(** * Scroll-driven visual effects: a shallow embedding of the scripts

    The page scripts read element geometry from the rendered document and
    write style properties back.  Every function modelled here is translated
    from the script that defines it; the browser (DOM, network, timers) is
    made explicit as the state the function reads and writes.

    Layout of the file: the embedding (one module per script) comes first,
    the statements and their proofs follow. *)

From Stdlib Require Import QArith Qabs Qround Qpower Qreduction Lqa ZArith Lia.
From Stdlib Require Import List Permutation String Ascii Bool DecimalString.
Import ListNotations.

Local Open Scope Q_scope.

(* ================================================================== *)
(** * JavaScript numbers *)
(* ================================================================== *)

(** A JavaScript number is an IEEE double.  The scripts compare, clamp and
    divide; they never depend on rounding.  A finite double is therefore
    read as the rational it denotes and finite arithmetic is exact, while the
    three special values are kept with their IEEE rules, because a division
    by a zero layout quantity produces them.  The two zeros are identified;
    a zero divisor acts as [+0] (every zero divisor in the scripts is a
    difference [x - x], which is [+0]).  Exact arithmetic and doubles can
    part only where an error of rounding decides, as for [Math.round] of a
    value that is a half up to such an error.  The blend of the background
    colors is such a computation: there every operation is rounded to the
    nearest double, with the operations of the module [Double] below. *)
Module JSNumber.

Inductive num : Type :=
| Fin (q : Q)
| PosInf
| NegInf
| NaN.

Definition isNaN (x : num) : bool :=
  match x with NaN => true | _ => false end.

(** [None] is IEEE "unordered": one operand is [NaN]. *)
Definition cmp (x y : num) : option comparison :=
  match x, y with
  | NaN, _ | _, NaN => None
  | Fin a, Fin b => Some (a ?= b)
  | PosInf, PosInf | NegInf, NegInf => Some Eq
  | NegInf, _ | _, PosInf => Some Lt
  | PosInf, _ | _, NegInf => Some Gt
  end.

(** The relational operators [<], [<=], [>], [>=]. *)
Definition lt (x y : num) : bool :=
  match cmp x y with Some Lt => true | _ => false end.
Definition le (x y : num) : bool :=
  match cmp x y with Some Lt | Some Eq => true | _ => false end.
Definition gt (x y : num) : bool :=
  match cmp x y with Some Gt => true | _ => false end.
Definition ge (x y : num) : bool :=
  match cmp x y with Some Gt | Some Eq => true | _ => false end.

(** The sign of a finite value, as a comparison with zero. *)
Definition sgn (q : Q) : comparison := q ?= 0.

Definition neg (x : num) : num :=
  match x with
  | Fin a => Fin (- a)
  | PosInf => NegInf
  | NegInf => PosInf
  | NaN => NaN
  end.

Definition add (x y : num) : num :=
  match x, y with
  | NaN, _ | _, NaN => NaN
  | Fin a, Fin b => Fin (a + b)
  | PosInf, NegInf | NegInf, PosInf => NaN
  | PosInf, _ | _, PosInf => PosInf
  | NegInf, _ | _, NegInf => NegInf
  end.

Definition sub (x y : num) : num := add x (neg y).

(** An infinity scaled by a finite factor: [0 * Infinity] is [NaN]. *)
Definition scaleInf (positive : bool) (q : Q) : num :=
  match sgn q with
  | Eq => NaN
  | Gt => if positive then PosInf else NegInf
  | Lt => if positive then NegInf else PosInf
  end.

Definition mul (x y : num) : num :=
  match x, y with
  | NaN, _ | _, NaN => NaN
  | Fin a, Fin b => Fin (a * b)
  | Fin a, PosInf | PosInf, Fin a => scaleInf true a
  | Fin a, NegInf | NegInf, Fin a => scaleInf false a
  | PosInf, PosInf | NegInf, NegInf => PosInf
  | PosInf, NegInf | NegInf, PosInf => NegInf
  end.

Definition div (x y : num) : num :=
  match x, y with
  | NaN, _ | _, NaN => NaN
  | Fin a, Fin b =>
      match sgn b with
      | Eq => match sgn a with
              | Eq => NaN            (* 0 / 0 *)
              | Gt => PosInf
              | Lt => NegInf
              end
      | _ => Fin (a / b)
      end
  | Fin _, _ => Fin 0
  | PosInf, Fin b => match sgn b with Lt => NegInf | _ => PosInf end
  | NegInf, Fin b => match sgn b with Lt => PosInf | _ => NegInf end
  | _, _ => NaN                      (* Infinity / Infinity *)
  end.

(** [Math.abs]. *)
Definition Math_abs (x : num) : num :=
  match x with
  | Fin a => Fin (Qabs a)
  | PosInf | NegInf => PosInf
  | NaN => NaN
  end.

(** [Math.max] and [Math.min]: [NaN] as soon as one argument is [NaN]. *)
Definition Math_max (x y : num) : num :=
  match cmp x y with
  | None => NaN
  | Some Lt => y
  | Some _ => x
  end.

Definition Math_min (x y : num) : num :=
  match cmp x y with
  | None => NaN
  | Some Gt => y
  | Some _ => x
  end.

(** [Math.round]: the nearest integer, halves going up. *)
Definition Math_round (x : num) : num :=
  match x with
  | Fin a => Fin (inject_Z (Qfloor (a + (1 # 2))))
  | other => other
  end.

(** Numeric equality of two results; on finite values it is equality of
    the rationals, whatever fraction represents them. *)
Definition same (x y : num) : Prop :=
  match x, y with
  | Fin a, Fin b => a == b
  | PosInf, PosInf | NegInf, NegInf | NaN, NaN => True
  | _, _ => False
  end.

(** A number of the closed interval from [lo] to [hi]. *)
Definition within (lo hi : Q) (x : num) : Prop :=
  exists q, x = Fin q /\ lo <= q <= hi.

Definition ofZ (z : Z) : num := Fin (inject_Z z).

End JSNumber.

Declare Scope num_scope.
Delimit Scope num_scope with num.
Bind Scope num_scope with JSNumber.num.
Infix "+" := JSNumber.add : num_scope.
Infix "-" := JSNumber.sub : num_scope.
Infix "*" := JSNumber.mul : num_scope.
Infix "/" := JSNumber.div : num_scope.
Infix "<?" := JSNumber.lt (at level 70, no associativity) : num_scope.
Infix "<=?" := JSNumber.le (at level 70, no associativity) : num_scope.
Infix ">?" := JSNumber.gt (at level 70, no associativity) : num_scope.
Infix ">=?" := JSNumber.ge (at level 70, no associativity) : num_scope.
Infix "~=" := JSNumber.same (at level 70, no associativity) : num_scope.
Coercion JSNumber.Fin : Q >-> JSNumber.num.

Local Open Scope string_scope.

(* ================================================================== *)
(** * What the scripts read from the browser *)
(* ================================================================== *)

(** Layout quantities handed out by the browser ([getBoundingClientRect],
    [window.innerHeight], [window.pageYOffset], [scrollHeight]) are finite
    doubles, hence rationals here; they become numbers of the script as
    soon as the script computes with them. *)
Module Browser.

Record DOMRect : Type := {
  top : Q;
  bottom : Q;
  height : Q
}.

Record Window : Type := {
  innerHeight : Q;
  pageYOffset : Q;
  scrollHeight : Q      (* document.documentElement.scrollHeight *)
}.

(** [classList.add] and [classList.remove] on a list of class names. *)
Definition classList_remove (names : list string) (classes : list string)
  : list string :=
  filter (fun c => negb (existsb (String.eqb c) names)) classes.

Fixpoint classList_add (names : list string) (classes : list string)
  : list string :=
  match names with
  | [] => classes
  | n :: rest =>
      classList_add rest
        (if existsb (String.eqb n) classes then classes else classes ++ [n])
  end.

Definition classList_contains (name : string) (classes : list string) : bool :=
  existsb (String.eqb name) classes.

End Browser.

(* ================================================================== *)
(** * progressSystem.js *)
(* ================================================================== *)

Module ProgressSystem.
Import JSNumber Browser.
Local Open Scope num_scope.

(** A tracked content panel: what the script reads of the element. *)
Record Panel : Type := {
  id : string;
  className : string;
  rect : DOMRect          (* panel.getBoundingClientRect() *)
}.

(** The document as [calculateContentProgress] queries it. *)
Record Page : Type := {
  main : option DOMRect;            (* document.querySelector("main") *)
  smallPanels : list Panel;         (* ".content-panel-small" *)
  largePanels : list Panel;         (* ".content-panel-large" *)
  menuPanels : list Panel;          (* ".content-menu" *)
  scrollY : Q                       (* window.pageYOffset *)
}.

Record ProgressData : Type := {
  smoothProgress : num;
  lastPanel : option Panel;
  totalPanels : nat
}.

Definition allContentPanels (page : Page) : list Panel :=
  smallPanels page ++ largePanels page ++ menuPanels page.

(** [rect.bottom + window.pageYOffset] *)
Definition absoluteBottom (page : Page) (panel : Panel) : num :=
  Fin (bottom (rect panel)) + Fin (scrollY page).

(** One iteration of the [forEach] that looks for the lowest panel; the
    state is the pair of [lowestBottom] and [lastPanel]. *)
Definition lowestStep (page : Page) (st : num * option Panel) (panel : Panel)
  : num * option Panel :=
  if absoluteBottom page panel >? fst st
  then (absoluteBottom page panel, Some panel)
  else st.

Definition findLowest (page : Page) : num * option Panel :=
  fold_left (lowestStep page) (allContentPanels page) (NegInf, None).

Definition calculateContentProgress (viewportHeight : num) (page : Page)
  : ProgressData :=
  let lastPanel :=
    match allContentPanels page with
    | [] => None
    | _ :: _ => snd (findLowest page)
    end in
  let smoothProgress :=
    match main page, lastPanel with
    | Some heroRect, Some last =>
        let journeyStart := Fin (top heroRect) in
        let journeyEnd := Fin (bottom (rect last)) - viewportHeight in
        if journeyStart >=? Fin 0 then Fin 0
        else if journeyEnd <=? Fin 0 then Fin 1
        else
          let totalJourneyDistance := Math_abs journeyStart + journeyEnd in
          let currentJourneyDistance := Math_abs journeyStart in
          Math_max (Fin 0)
            (Math_min (Fin 1) (currentJourneyDistance / totalJourneyDistance))
    | _, _ => Fin 0
    end in
  {| smoothProgress := smoothProgress;
     lastPanel := lastPanel;
     totalPanels := List.length (smallPanels page) |}.

(** The absolute bottom edge as a rational. *)
Definition edge (page : Page) (panel : Panel) : Q :=
  (bottom (rect panel) + scrollY page)%Q.

(** What the loop has established after the panels [seen]: nothing yet, or
    a panel of [seen] whose edge is [lowestBottom] and bounds every edge. *)
Definition lowestInv (page : Page) (seen : list Panel)
  (st : num * option Panel) : Prop :=
  (seen = [] /\ st = (NegInf, None))
  \/ exists p, st = (Fin (edge page p), Some p) /\ In p seen
               /\ forall q, In q seen -> (edge page q <= edge page p)%Q.

(** The progress computed from the hero and the selected panel. *)
Definition journey (v : num) (hero : DOMRect) (last : Panel) : num :=
  let journeyStart := Fin (top hero) in
  let journeyEnd := Fin (bottom (rect last)) - v in
  if journeyStart >=? Fin 0 then Fin 0
  else if journeyEnd <=? Fin 0 then Fin 1
  else Math_max (Fin 0)
         (Math_min (Fin 1)
            (Math_abs journeyStart / (Math_abs journeyStart + journeyEnd))).

(** ** The ring and the compass *)

Record Config : Type := {
  circumference : Q;
  rotationMultiplier : Q
}.

Definition PROGRESS_CONFIG : Config := {|
  circumference := 565.48;
  rotationMultiplier := 360
|}.

(** The two elements the progress is drawn with.  The outer [option] says
    whether the element is in the document; the inner value is the number
    the script last wrote: the [strokeDashoffset] of [#progress-circle] and
    the angle of the [rotate(...deg)] of [.compass-outer]. *)
Record Dial : Type := {
  progressCircle : option (option num);
  compassOuter : option (option num)
}.

Definition updateProgressRing (progress : num) (dial : Dial) : Dial :=
  match progressCircle dial with
  | None => dial
  | Some _ =>
      let dashOffset :=
        Fin (circumference PROGRESS_CONFIG) * (Fin 1 - progress) in
      {| progressCircle := Some (Some dashOffset);
         compassOuter := compassOuter dial |}
  end.

Definition updateCompassRotation (progress : num) (dial : Dial) : Dial :=
  match compassOuter dial with
  | None => dial
  | Some _ =>
      let rotationAngle :=
        progress * Fin (rotationMultiplier PROGRESS_CONFIG) in
      {| progressCircle := progressCircle dial;
         compassOuter := Some (Some rotationAngle) |}
  end.

Definition updateProgressSystem (viewportHeight : num) (page : Page)
  (dial : Dial) : ProgressData * Dial :=
  let progressData := calculateContentProgress viewportHeight page in
  let dial1 := updateProgressRing (smoothProgress progressData) dial in
  let dial2 := updateCompassRotation (smoothProgress progressData) dial1 in
  (progressData, dial2).

(** ** The same page, scrolled further *)

(** Scrolling down by [d] moves every element of the flow up by [d] in the
    viewport and adds [d] to the page offset. *)
Definition shiftRect (d : Q) (r : DOMRect) : DOMRect :=
  {| top := top r - d; bottom := bottom r - d; height := height r |}.

Definition shiftPanel (d : Q) (p : Panel) : Panel :=
  {| id := id p; className := className p; rect := shiftRect d (rect p) |}.

Definition scrolledBy (d : Q) (page : Page) : Page :=
  {| main := option_map (shiftRect d) (main page);
     smallPanels := map (shiftPanel d) (smallPanels page);
     largePanels := map (shiftPanel d) (largePanels page);
     menuPanels := map (shiftPanel d) (menuPanels page);
     scrollY := scrollY page + d |}.

End ProgressSystem.

(* ================================================================== *)
(** * Arithmetic rounded to the nearest double *)
(* ================================================================== *)

(** The binary64 format of IEEE 754: 53 bits of precision, the last place
    of a number between [2^e] and [2^(e+1)] at [2^(e-52)] and never below
    [2^-1074], a result rounded to the nearest number of the format with
    ties to the even one, and a rounded result of magnitude [2^1024] or
    more replaced by an infinity.  An operation of the script on finite
    numbers is the exact operation followed by this rounding. *)
Module Double.
Import JSNumber.

(** The integer part of the binary logarithm of a positive rational. *)
Definition ilog2 (x : Q) : Z :=
  let e := (Z.log2 (Qnum x) - Z.log2 (Zpos (Qden x)))%Z in
  if Qle_bool (2 ^ e) x then e else (e - 1)%Z.

(** The exponent of the unit in the last place. *)
Definition ulpExponent (x : Q) : Z := Z.max (ilog2 (Qabs x) - 52) (-1074).

(** The nearest integer, the even one of two that are equally near. *)
Definition nearestEven (m : Q) : Z :=
  let f := Qfloor m in
  match Qcompare (m - inject_Z f) (1 # 2) with
  | Lt => f
  | Gt => (f + 1)%Z
  | Eq => if Z.even f then f else (f + 1)%Z
  end.

(** The nearest double of a rational, as a reduced fraction. *)
Definition round (x : Q) : Q :=
  if Qeq_bool x 0 then 0
  else Qred (inject_Z (nearestEven (x / 2 ^ ulpExponent x))
             * 2 ^ ulpExponent x).

(** The number a finite exact result becomes. *)
Definition fl (x : Q) : num :=
  let rounded := round x in
  if Qle_bool (2 ^ 1024) (Qabs rounded)
  then if Qle_bool 0 rounded then PosInf else NegInf
  else Fin rounded.

Definition rounded (x : num) : num :=
  match x with
  | Fin q => fl q
  | other => other
  end.

(** [x + y], [x - y], [x * y] and [x / y] of the script. *)
Definition add (x y : num) : num := rounded (JSNumber.add x y).
Definition sub (x y : num) : num := rounded (JSNumber.sub x y).
Definition mul (x y : num) : num := rounded (JSNumber.mul x y).
Definition div (x y : num) : num := rounded (JSNumber.div x y).

(** The double a decimal literal of the script denotes. *)
Definition literal (decimal : Q) : Q := round decimal.

End Double.


(* ================================================================== *)
(** * backgroundTransition.js *)
(* ================================================================== *)

Module BackgroundTransition.
Import JSNumber.
Local Open Scope num_scope.

Record Color : Type := { r : num; g : num; b : num }.

Record Config : Type := {
  colors : list Color;
  colorStops : list num
}.

Definition BACKGROUND_CONFIG : Config := {|
  colors := [ {| r := Fin 0;  g := Fin 0;   b := Fin 0 |};
              {| r := Fin 15; g := Fin 0;   b := Fin 107 |};
              {| r := Fin 62; g := Fin 116; b := Fin 255 |} ];
  colorStops := [ Fin 0; Fin (Double.literal 0.4); Fin 1 ]
|}.

Definition lerp (start end_ factor : num) : num :=
  Double.add start (Double.mul (Double.sub end_ start) factor).

Definition interpolateColor (color1 color2 : Color) (factor : num) : Color :=
  {| r := Math_round (lerp (r color1) (r color2) factor);
     g := Math_round (lerp (g color1) (g color2) factor);
     b := Math_round (lerp (b color1) (b color2) factor) |}.

(** Reading an array of numbers past its end gives [undefined], which is
    [NaN] in arithmetic and in comparisons. *)
Definition stopAt (stops : list num) (i : nat) : num := nth i stops NaN.

(** Reading the color array; the index is 0 or 1 under the shipped
    configuration, so the default is never returned. *)
Definition colorAt (cs : list Color) (i : nat) : Color :=
  nth i cs {| r := NaN; g := NaN; b := NaN |}.

(** The [for] loop with its [break]: the first index whose interval holds
    the progress; [segmentIndex] keeps its initial 0 if none does. *)
Fixpoint findSegment (stops : list num) (progress : num) (indices : list nat)
  : nat :=
  match indices with
  | [] => 0%nat
  | i :: rest =>
      if (progress >=? stopAt stops i) && (progress <=? stopAt stops (i + 1))
      then i
      else findSegment stops progress rest
  end.

Section Printing.

(** [Number.prototype.toString] on a finite value that is not an integer
    prints the shortest decimal that reads back as the same double; that
    depends on the binary representation and stays a parameter.  The colors
    the script prints are outputs of [Math.round]. *)
Variable fractionToString : Q -> string.

Definition numberToString (x : num) : string :=
  match x with
  | NaN => "NaN"
  | PosInf => "Infinity"
  | NegInf => "-Infinity"
  | Fin q =>
      if Qeq_bool q (inject_Z (Qfloor q))
      then NilZero.string_of_int (Z.to_int (Qfloor q))
      else fractionToString q
  end.

Definition rgbToString (color : Color) : string :=
  "rgb(" ++ numberToString (r color) ++ ", " ++ numberToString (g color)
         ++ ", " ++ numberToString (b color) ++ ")".

(** The local [interpolatedColor] of [calculateBackgroundColor]: the color
    record before it is printed. *)
Definition interpolatedColor (scrollProgress : num) : Color :=
  let colors := colors BACKGROUND_CONFIG in
  let colorStops := colorStops BACKGROUND_CONFIG in
  let progress := Math_max (Fin 0) (Math_min (Fin 1) scrollProgress) in
  let segmentIndex :=
    findSegment colorStops progress (seq 0 (List.length colorStops - 1)) in
  let segmentStart := stopAt colorStops segmentIndex in
  let segmentEnd := stopAt colorStops (segmentIndex + 1) in
  let segmentProgress :=
    Double.div (Double.sub progress segmentStart)
      (Double.sub segmentEnd segmentStart) in
  let startColor := colorAt colors segmentIndex in
  let endColor := colorAt colors (segmentIndex + 1) in
  interpolateColor startColor endColor segmentProgress.

Definition calculateBackgroundColor (scrollProgress : num) : string :=
  rgbToString (interpolatedColor scrollProgress).

End Printing.

Definition stops : list num := colorStops BACKGROUND_CONFIG.
Definition palette : list Color := colors BACKGROUND_CONFIG.

(** One color is no brighter than another, channel by channel. *)
Definition noBrighter (c d : Color) : Prop :=
  (r c <=? r d) = true /\ (g c <=? g d) = true /\ (b c <=? b d) = true.

(** The same computation on finite values: the position of [p] in the
    interval from [s] to [e], and a channel blended from [a] to [b] at
    the factor [f], each operation rounded as the script rounds it. *)
Definition segmentProgressOf (s e p : Q) : Q :=
  Double.round (Double.round (p + - s) / Double.round (e + - s))%Q.

Definition channelOf (a b f : Q) : Q :=
  Double.round (a + Double.round (Double.round (b + - a) * f))%Q.

(** What the rounded blend is measured against: the linear blend of two
    channel values at the position [t] in exact arithmetic, which no
    function of the script computes.  Then the value of a finite number,
    and an integer in decimal. *)
Definition exactBlend (a b t : Q) : Q := (a + (b - a) * t)%Q.

Definition valueOf (x : num) : Q :=
  match x with
  | Fin q => q
  | _ => 0%Q
  end.

Definition decimal (z : Z) : string := NilZero.string_of_int (Z.to_int z).


End BackgroundTransition.

(* ================================================================== *)
(** * customScrollbar.js (section-based scrollbar) *)
(* ================================================================== *)

Module CustomScrollbar.
Import JSNumber Browser.
Local Open Scope num_scope.

Record Config : Type := {
  targetViewportPosition : Q;
  shortMarkWidth : string;
  shortMarkHeight : string;
  longMarkWidth : string;
  longMarkHeight : string;
  indicatorMinPosition : Q;
  indicatorMaxPosition : Q;
  indicatorRange : Q
}.

Definition SCROLLBAR_CONFIG : Config := {|
  targetViewportPosition := 0.2;
  shortMarkWidth := "12px";
  shortMarkHeight := "1.5px";
  longMarkWidth := "20px";
  longMarkHeight := "3px";
  indicatorMinPosition := 2;
  indicatorMaxPosition := 96;
  indicatorRange := 94
|}.

(** A [<section>] element as [getSectionData] reads it. *)
Record SectionElement : Type := {
  sectionTop : Q;                       (* section.getBoundingClientRect().top *)
  h1 : option (string * Q)              (* textContent and rect top of its h1 *)
}.

Record SectionData : Type := {
  title : string;
  sectionAbsoluteTop : Q;
  h1AbsoluteTop : Q;
  index : nat
}.

(** What a click on a major mark does. *)
Inductive ClickHandler : Type :=
| ScrollToTop                           (* window.scrollTo({ top: 0 }) *)
| ScrollToH1 (h1Position : Q).          (* scrollToH1AtViewportPosition *)

(** A mark appended to [.ruler-markings]; [markTop] is the number written
    in front of the percent sign of [style.top]. *)
Record Mark : Type := {
  markClass : string;
  markTop : num;
  markWidth : string;
  markHeight : string;
  onClick : option ClickHandler;
  tooltip : option string
}.

Record Document : Type := {
  rulerMarkings : option (list Mark);   (* children of ".ruler-markings" *)
  sections : list SectionElement;       (* querySelectorAll("section") *)
  indicatorTop : option num             (* style.top of ".scroll-indicator" *)
}.

Definition isClickable (m : Mark) : bool :=
  match onClick m with Some _ => true | None => false end.

Section Scrollbar.

(** [String.prototype.trim], a platform function. *)
Variable trim : string -> string.

Definition sectionDataAt (w : Window) (index : nat) (section : SectionElement)
  : SectionData :=
  let title :=
    match h1 section with
    | Some (text, _) => trim text
    | None => "Section " ++ NilZero.string_of_uint (Nat.to_uint (index + 1))
    end in
  let sectionAbsoluteTop := (sectionTop section + pageYOffset w)%Q in
  let h1AbsoluteTop :=
    match h1 section with
    | Some (_, h1Top) => (h1Top + pageYOffset w)%Q
    | None => sectionAbsoluteTop
    end in
  {| title := title;
     sectionAbsoluteTop := sectionAbsoluteTop;
     h1AbsoluteTop := h1AbsoluteTop;
     index := index |}.

Fixpoint mapWithIndex {A B : Type} (f : nat -> A -> B) (i : nat) (l : list A)
  : list B :=
  match l with
  | [] => []
  | a :: rest => f i a :: mapWithIndex f (S i) rest
  end.

Definition getSectionData (w : Window) (doc : Document) : list SectionData :=
  mapWithIndex (sectionDataAt w) 0 (sections doc).

(** The scroll offset [scrollToH1AtViewportPosition] asks for. *)
Definition scrollToH1AtViewportPosition (w : Window) (h1Position : Q) : num :=
  let viewportHeight := Fin (innerHeight w) in
  let targetViewportOffset :=
    viewportHeight * Fin (targetViewportPosition SCROLLBAR_CONFIG) in
  Math_max (Fin 0) (Fin h1Position - targetViewportOffset).

(** The [top] passed to [window.scrollTo] when the handler runs. *)
Definition click (w : Window) (h : ClickHandler) : num :=
  match h with
  | ScrollToTop => Fin 0
  | ScrollToH1 h1Position => scrollToH1AtViewportPosition w h1Position
  end.

Definition topMark : Mark := {|
  markClass := "ruler-mark long clickable-mark";
  markTop := Fin (indicatorMinPosition SCROLLBAR_CONFIG);
  markWidth := longMarkWidth SCROLLBAR_CONFIG;
  markHeight := longMarkHeight SCROLLBAR_CONFIG;
  onClick := Some ScrollToTop;
  tooltip := Some "Scroll to Top"
|}.

(** [majorMarkPosition] of a section, before clamping. *)
Definition majorMarkPosition (documentHeight targetViewportOffset : num)
  (sectionData : SectionData) : num :=
  let targetScrollPosition :=
    Math_max (Fin 0) (Fin (h1AbsoluteTop sectionData) - targetViewportOffset) in
  let scrollProgress :=
    if documentHeight >? Fin 0
    then targetScrollPosition / documentHeight
    else Fin 0 in
  Fin (indicatorMinPosition SCROLLBAR_CONFIG)
  + scrollProgress * Fin (indicatorRange SCROLLBAR_CONFIG).

Definition clampPosition (position : num) : num :=
  Math_max (Fin (indicatorMinPosition SCROLLBAR_CONFIG))
    (Math_min (Fin (indicatorMaxPosition SCROLLBAR_CONFIG)) position).

Definition majorMark (documentHeight targetViewportOffset : num)
  (sectionData : SectionData) : Mark := {|
  markClass := "ruler-mark long clickable-mark";
  markTop :=
    clampPosition (majorMarkPosition documentHeight targetViewportOffset sectionData);
  markWidth := longMarkWidth SCROLLBAR_CONFIG;
  markHeight := longMarkHeight SCROLLBAR_CONFIG;
  onClick := Some (ScrollToH1 (h1AbsoluteTop sectionData));
  tooltip := Some ("Navigate to: " ++ title sectionData)
|}.

Definition totalMinorMarks : nat := 40.

Definition minorMarkSpacing : num :=
  Fin (indicatorRange SCROLLBAR_CONFIG) / ofZ (Z.of_nat totalMinorMarks).

Definition minorMarkPosition (i : nat) : num :=
  Fin (indicatorMinPosition SCROLLBAR_CONFIG) + ofZ (Z.of_nat i) * minorMarkSpacing.

Definition tooCloseToMajor (documentHeight targetViewportOffset : num)
  (sectionList : list SectionData) (i : nat) : bool :=
  existsb
    (fun sectionData =>
       let majorPos :=
         majorMarkPosition documentHeight targetViewportOffset sectionData in
       Math_abs (minorMarkPosition i - majorPos) <? Fin 2)
    sectionList.

Definition minorMark (i : nat) : Mark := {|
  markClass := "ruler-mark short";
  markTop := minorMarkPosition i;
  markWidth := shortMarkWidth SCROLLBAR_CONFIG;
  markHeight := shortMarkHeight SCROLLBAR_CONFIG;
  onClick := None;
  tooltip := None
|}.

(** The marks the [for] loop appends, for [i] from 1 to 39. *)
Definition minorMarks (documentHeight targetViewportOffset : num)
  (sectionList : list SectionData) : list Mark :=
  map minorMark
    (filter
       (fun i => negb (tooCloseToMajor documentHeight targetViewportOffset
                         sectionList i))
       (seq 1 (totalMinorMarks - 1))).

Definition createScrollbarMarkings (w : Window) (doc : Document) : Document :=
  match rulerMarkings doc with
  | None => doc                          (* no ".ruler-markings": return *)
  | Some _ =>
      let sectionList := getSectionData w doc in
      match sectionList with
      | [] =>                            (* innerHTML cleared, then return *)
          {| rulerMarkings := Some [];
             sections := sections doc;
             indicatorTop := indicatorTop doc |}
      | _ :: _ =>
          let documentHeight := Fin (scrollHeight w) - Fin (innerHeight w) in
          let viewportHeight := Fin (innerHeight w) in
          let targetViewportOffset :=
            viewportHeight * Fin (targetViewportPosition SCROLLBAR_CONFIG) in
          {| rulerMarkings :=
               Some ([topMark]
                     ++ map (majorMark documentHeight targetViewportOffset)
                          sectionList
                     ++ minorMarks documentHeight targetViewportOffset
                          sectionList)%list;
             sections := sections doc;
             indicatorTop := indicatorTop doc |}
      end
  end.

End Scrollbar.

(** The number [updateScrollIndicator] writes in [indicator.style.top]. *)
Definition clampedPosition (scrollProgress : num) : num :=
  let indicatorPosition :=
    Fin (indicatorMinPosition SCROLLBAR_CONFIG)
    + scrollProgress * Fin (indicatorRange SCROLLBAR_CONFIG) in
  Math_max (Fin (indicatorMinPosition SCROLLBAR_CONFIG))
    (Math_min (Fin (indicatorMaxPosition SCROLLBAR_CONFIG)) indicatorPosition).

Definition updateScrollIndicator (scrollProgress : num) (doc : Document)
  : Document :=
  match indicatorTop doc with
  | None => doc                          (* no ".scroll-indicator": return *)
  | Some _ =>
      {| rulerMarkings := rulerMarkings doc;
         sections := sections doc;
         indicatorTop := Some (clampedPosition scrollProgress) |}
  end.

Definition updateScrollbar (scrollProgress : num) (doc : Document) : Document :=
  updateScrollIndicator scrollProgress doc.

(** The progress the coordinator passes to [updateScrollbar]. *)
Definition actualScrollProgress (w : Window) : num :=
  let viewportHeight := Fin (innerHeight w) in
  let scrollPosition := Fin (pageYOffset w) in
  let documentHeight := Fin (scrollHeight w) - viewportHeight in
  Math_min (Fin 1) (Math_max (Fin 0) (scrollPosition / documentHeight)).

(** The band of the track, 2 to 96 percent. *)
Definition inBand (x : num) : Prop :=
  within (indicatorMinPosition SCROLLBAR_CONFIG)
         (indicatorMaxPosition SCROLLBAR_CONFIG) x.

(** Membership of the band, decided. *)
Definition inBandb (x : num) : bool :=
  (Fin (indicatorMinPosition SCROLLBAR_CONFIG) <=? x)
  && (x <=? Fin (indicatorMaxPosition SCROLLBAR_CONFIG)).

(** Where the page stands once a [window.scrollTo({ top })] has settled:
    the browser keeps the offset between 0 and the scrollable height. *)
Definition scrollTo (target : Q) (w : Window) : Window :=
  let maxOffset := (scrollHeight w - innerHeight w)%Q in
  {| innerHeight := innerHeight w;
     pageYOffset :=
       if Qle_bool target 0 then 0
       else if Qle_bool maxOffset target then maxOffset
       else target;
     scrollHeight := scrollHeight w |}.

End CustomScrollbar.

(* ================================================================== *)
(** * titleBoxing.js (animated title box controller) *)
(* ================================================================== *)

Module TitleBoxing.
Import JSNumber Browser.
Local Open Scope num_scope.

Record Config : Type := {
  boxingStartPercent : Q;
  boxingEndPercent : Q;
  moveStartPercent : Q;
  moveEndPercent : Q;
  makeScrollablePercent : Q
}.

Definition TITLE_BOX_CONFIG : Config := {|
  boxingStartPercent := 0.01;
  boxingEndPercent := 0.13;
  moveStartPercent := 0.13;
  moveEndPercent := 0.35;
  makeScrollablePercent := 0.4
|}.

(** The values [currentPhase] takes: 'idle', 'boxing', 'boxed', 'moved',
    'scrollable'. *)
Inductive Phase : Type := idle | boxing | boxed | moved | scrollable.

(** The values the script gives to [style.transform]. *)
Inductive Transform : Type :=
| TranslateCenter                        (* 'translate(-50%, -50%)' *)
| TranslateScale (currentYpx scale : num)
    (* `translate(-50%, ${currentYpx}px) scale(${scale})` *)
| TransformEmpty.                        (* '' *)

(** The element with id [animated-title-box]: its class list, the inline
    style properties the script sets, and its [offsetHeight]. *)
Record TitleBox : Type := {
  classList : list string;
  stylePosition : option string;
  styleTop : option string;
  styleLeft : option string;
  styleTransform : option Transform;
  styleTransition : option string;
  fillOpacity : option num;              (* '--fill-opacity' *)
  offsetHeight : Q
}.

Record AnimationState : Type := {
  isInitialized : bool;
  titleBox : option TitleBox;
  currentPhase : Phase
}.

Definition animationState0 : AnimationState :=
  {| isInitialized := false; titleBox := None; currentPhase := idle |}.

(** [element] is what [document.getElementById] returns. *)
Definition initializeTitleBoxing (element : option TitleBox)
  (st : AnimationState) : AnimationState :=
  match element with
  | None =>
      {| isInitialized := isInitialized st; titleBox := None;
         currentPhase := currentPhase st |}
  | Some box =>
      {| isInitialized := true; titleBox := Some box;
         currentPhase := currentPhase st |}
  end.

Definition calculateScrollProgress (w : Window) : num :=
  let scrollPosition := Fin (pageYOffset w) in
  let viewportHeight := Fin (innerHeight w) in
  let documentHeight := Fin (scrollHeight w) in
  Math_min (Fin 1) (scrollPosition / (documentHeight - viewportHeight)).

(** The five branches of the [if] chain of [updateTitleBoxing]. *)
Inductive Branch : Type :=
| IdleBranch | BoxingBranch | BoxedBranch | MovementBranch | ScrollableBranch.

(** The condition written in front of each branch. *)
Definition branchCondition (br : Branch) (scrollProgress : num) : bool :=
  match br with
  | IdleBranch =>
      scrollProgress <? Fin (boxingStartPercent TITLE_BOX_CONFIG)
  | BoxingBranch =>
      (scrollProgress >=? Fin (boxingStartPercent TITLE_BOX_CONFIG))
      && (scrollProgress <? Fin (boxingEndPercent TITLE_BOX_CONFIG))
  | BoxedBranch =>
      (scrollProgress >=? Fin (boxingEndPercent TITLE_BOX_CONFIG))
      && (scrollProgress <? Fin (moveStartPercent TITLE_BOX_CONFIG))
  | MovementBranch =>
      (scrollProgress >=? Fin (moveStartPercent TITLE_BOX_CONFIG))
      && (scrollProgress <? Fin (makeScrollablePercent TITLE_BOX_CONFIG))
  | ScrollableBranch =>
      scrollProgress >=? Fin (makeScrollablePercent TITLE_BOX_CONFIG)
  end.

Definition withFixedCenter (box : TitleBox) (classes : list string)
  (fill : option num) : TitleBox :=
  {| classList := classes;
     stylePosition := Some "fixed";
     styleTop := Some "50%";
     styleLeft := Some "50%";
     styleTransform := Some TranslateCenter;
     styleTransition := styleTransition box;
     fillOpacity := fill;
     offsetHeight := offsetHeight box |}.

Definition isMoved (p : Phase) : bool :=
  match p with moved => true | _ => false end.

(** The body of each branch: the new element and the new phase. *)
Definition runBranch (br : Branch) (w : Window) (scrollProgress : num)
  (phase : Phase) (box : TitleBox) : TitleBox * Phase :=
  match br with
  | IdleBranch =>
      (withFixedCenter box
         (classList_remove ["boxing"; "boxed"; "moved-to-top"; "scrollable"]
            (classList box))
         (fillOpacity box),
       idle)
  | BoxingBranch =>
      let boxingStart := Fin (boxingStartPercent TITLE_BOX_CONFIG) in
      let boxingEnd := Fin (boxingEndPercent TITLE_BOX_CONFIG) in
      let fillProgress :=
        (scrollProgress - boxingStart) / (boxingEnd - boxingStart) in
      let fill := Math_min (Math_max fillProgress (Fin 0)) (Fin 1) in
      (withFixedCenter box
         (classList_remove ["boxed"; "moved-to-top"; "scrollable"]
            (classList_add ["boxing"] (classList box)))
         (Some fill),
       boxing)
  | BoxedBranch =>
      (withFixedCenter box
         (classList_remove ["boxing"; "moved-to-top"; "scrollable"]
            (classList_add ["boxed"] (classList box)))
         (Some (Fin 1)),
       boxed)
  | MovementBranch =>
      let moveStart := Fin (moveStartPercent TITLE_BOX_CONFIG) in
      let moveEnd := Fin (makeScrollablePercent TITLE_BOX_CONFIG) in
      let moveProgress := (scrollProgress - moveStart) / (moveEnd - moveStart) in
      let firstFrame := negb (isMoved phase) in
      let currentScrollPos := Fin (pageYOffset w) in
      let viewportHeight := Fin (innerHeight w) in
      let startYpx :=
        currentScrollPos + viewportHeight * Fin 0.5
        - Fin (offsetHeight box) * Fin 0.5 in
      let endYpx := Fin 32 in
      let currentYpx := startYpx + (endYpx - startYpx) * moveProgress in
      let scale := Fin 1 - moveProgress * Fin 0.3 in
      ({| classList :=
            classList_remove ["moved-to-top"; "scrollable"]
              (classList_add ["boxed"] (classList box));
          stylePosition :=
            if firstFrame then Some "absolute" else stylePosition box;
          styleTop := if firstFrame then Some "0" else styleTop box;
          styleLeft := if firstFrame then Some "50%" else styleLeft box;
          styleTransform := Some (TranslateScale currentYpx scale);
          styleTransition :=
            if firstFrame then Some "none" else styleTransition box;
          fillOpacity := fillOpacity box;
          offsetHeight := offsetHeight box |},
       moved)
  | ScrollableBranch =>
      ({| classList :=
            classList_add ["boxed"; "moved-to-top"; "scrollable"]
              (classList box);
          stylePosition := stylePosition box;
          styleTop := styleTop box;
          styleLeft := styleLeft box;
          styleTransform := Some TransformEmpty;
          styleTransition := styleTransition box;
          fillOpacity := fillOpacity box;
          offsetHeight := offsetHeight box |},
       scrollable)
  end.

(** The [if ... else if ...] chain: the first branch whose condition holds,
    none when every condition is false. *)
Definition selectBranch (scrollProgress : num) : option Branch :=
  if branchCondition IdleBranch scrollProgress then Some IdleBranch
  else if branchCondition BoxingBranch scrollProgress then Some BoxingBranch
  else if branchCondition BoxedBranch scrollProgress then Some BoxedBranch
  else if branchCondition MovementBranch scrollProgress then Some MovementBranch
  else if branchCondition ScrollableBranch scrollProgress
       then Some ScrollableBranch
  else None.

Definition updateTitleBoxing (w : Window) (st : AnimationState)
  : AnimationState :=
  match isInitialized st, titleBox st with
  | true, Some box =>
      let scrollProgress := calculateScrollProgress w in
      match selectBranch scrollProgress with
      | Some br =>
          let (box', phase') :=
            runBranch br w scrollProgress (currentPhase st) box in
          {| isInitialized := true; titleBox := Some box';
             currentPhase := phase' |}
      | None => st
      end
  | _, _ => st
  end.

Definition cleanupTitleBoxing (st : AnimationState) : AnimationState :=
  match isInitialized st, titleBox st with
  | true, Some box =>
      {| isInitialized := false;
         titleBox :=
           Some {| classList :=
                     classList_remove
                       ["boxing"; "boxed"; "moved-to-top"; "scrollable"]
                       (classList box);
                   stylePosition := stylePosition box;
                   styleTop := styleTop box;
                   styleLeft := styleLeft box;
                   styleTransform := styleTransform box;
                   styleTransition := styleTransition box;
                   fillOpacity := None;
                   offsetHeight := offsetHeight box |};
         currentPhase := idle |}
  | _, _ => st
  end.

(** What can happen to the controller, and a run of such events from the
    state the module starts in. *)
Inductive Event : Type :=
| Initialize (element : option TitleBox)
| Update (w : Window)
| Cleanup.

Definition step (st : AnimationState) (e : Event) : AnimationState :=
  match e with
  | Initialize element => initializeTitleBoxing element st
  | Update w => updateTitleBoxing w st
  | Cleanup => cleanupTitleBoxing st
  end.

Definition run (events : list Event) : AnimationState :=
  fold_left step events animationState0.

(** The phase each branch assigns to [currentPhase]. *)
Definition phaseOf (br : Branch) : Phase :=
  match br with
  | IdleBranch => idle
  | BoxingBranch => boxing
  | BoxedBranch => boxed
  | MovementBranch => moved
  | ScrollableBranch => scrollable
  end.

(** The order in which the phases follow one another down the page. *)
Definition phaseRank (p : Phase) : nat :=
  match p with
  | idle => 0
  | boxing => 1
  | boxed => 2
  | moved => 3
  | scrollable => 4
  end.

(** Where the box stands in the document while it is fixed at the center
    of the viewport: [startYpx] of the movement branch. *)
Definition centerY (w : Window) (box : TitleBox) : Q :=
  (pageYOffset w + innerHeight w * 0.5 - offsetHeight box * 0.5)%Q.

End TitleBoxing.

(* ================================================================== *)
(** * titleBoxing.js (the controller with three phases) *)
(* ================================================================== *)

Module TitleBoxingLegacy.
Import JSNumber Browser.
Local Open Scope num_scope.

Record Config : Type := {
  boxingStartPercent : Q;
  boxingEndPercent : Q;
  moveStartPercent : Q;
  moveEndPercent : Q
}.

Definition TITLE_BOX_CONFIG : Config := {|
  boxingStartPercent := 0.01;
  boxingEndPercent := 0.1;
  moveStartPercent := 0.1;
  moveEndPercent := 0.25
|}.

(** 'idle', 'boxed', 'moved' *)
Inductive Phase : Type := idle | boxed | moved.

Record AnimationState : Type := {
  isInitialized : bool;
  titleBox : option (list string);       (* the class list of the element *)
  currentPhase : Phase
}.

Definition initializeTitleBoxing (element : option (list string))
  (st : AnimationState) : AnimationState :=
  match element with
  | None =>
      {| isInitialized := isInitialized st; titleBox := None;
         currentPhase := currentPhase st |}
  | Some classes =>
      {| isInitialized := true; titleBox := Some classes;
         currentPhase := currentPhase st |}
  end.

Definition calculateScrollProgress (w : Window) : num :=
  let scrollPosition := Fin (pageYOffset w) in
  let viewportHeight := Fin (innerHeight w) in
  let documentHeight := Fin (scrollHeight w) in
  Math_min (Fin 1) (scrollPosition / (documentHeight - viewportHeight)).

Definition updateTitleBoxing (w : Window) (st : AnimationState)
  : AnimationState :=
  match isInitialized st, titleBox st with
  | true, Some classes =>
      let scrollProgress := calculateScrollProgress w in
      if scrollProgress <? Fin (boxingStartPercent TITLE_BOX_CONFIG) then
        {| isInitialized := true;
           titleBox := Some (classList_remove ["boxed"; "moved-to-top"] classes);
           currentPhase := idle |}
      else if (scrollProgress >=? Fin (boxingStartPercent TITLE_BOX_CONFIG))
              && (scrollProgress <? Fin (moveStartPercent TITLE_BOX_CONFIG))
      then
        {| isInitialized := true;
           titleBox :=
             Some (classList_remove ["moved-to-top"]
                     (classList_add ["boxed"] classes));
           currentPhase := boxed |}
      else if scrollProgress >=? Fin (moveStartPercent TITLE_BOX_CONFIG) then
        {| isInitialized := true;
           titleBox := Some (classList_add ["boxed"; "moved-to-top"] classes);
           currentPhase := moved |}
      else st
  | _, _ => st
  end.

Definition cleanupTitleBoxing (st : AnimationState) : AnimationState :=
  match isInitialized st, titleBox st with
  | true, Some classes =>
      {| isInitialized := false;
         titleBox := Some (classList_remove ["boxed"; "moved-to-top"] classes);
         currentPhase := idle |}
  | _, _ => st
  end.

End TitleBoxingLegacy.


(* ================================================================== *)
(** * panelAnimations.js *)
(* ================================================================== *)

Module PanelAnimations.
Import JSNumber Browser.
Local Open Scope num_scope.

Record Config : Type := {
  minOpacity : Q;
  maxOpacity : Q;
  opacityRange : Q;
  linkStaggerDelay : nat;
  linkAnimationClass : string;
  dividerAnimationSpeed : Q;
  visibilityThreshold : Q;
  resetThreshold : Q
}.

Definition PANEL_ANIMATION_CONFIG : Config := {|
  minOpacity := 0.2;
  maxOpacity := 1.0;
  opacityRange := 0.8;
  linkStaggerDelay := 150;
  linkAnimationClass := "animate-in";
  dividerAnimationSpeed := 100;
  visibilityThreshold := 0;
  resetThreshold := 0
|}.

Record AnimationData : Type := {
  animationProgress : num;
  isFullyVisible : bool;
  isVisible : bool;
  isOffScreen : bool
}.

Definition calculatePanelAnimation (rect : DOMRect) (viewportHeight : num)
  : AnimationData :=
  let panelTop := Fin (top rect) in
  let panelBottom := Fin (bottom rect) in
  let panelHeight := Fin (height rect) in
  let viewportMidpoint := viewportHeight / Fin 2 in
  let visible :=
    (panelBottom >? Fin (visibilityThreshold PANEL_ANIMATION_CONFIG))
    && (panelTop <? viewportHeight) in
  let panelCenter := panelTop + panelHeight / Fin 2 in
  let below := panelCenter >? viewportMidpoint in
  let distanceFromMid := panelCenter - viewportMidpoint in
  let maxDistance := viewportHeight - viewportMidpoint in
  {| animationProgress :=
       if visible
       then if below
            then Math_max (Fin 0) (Fin 1 - distanceFromMid / maxDistance)
            else Fin 1
       else Fin 0;
     isFullyVisible := visible && negb below;
     isVisible := visible;
     isOffScreen :=
       (panelTop >? viewportHeight)
       || (panelBottom <? Fin (resetThreshold PANEL_ANIMATION_CONFIG)) |}.

(** A link of a panel: its class list. *)
Record Link : Type := { linkClasses : list string }.

(** A content panel: inline opacity, the width of its divider if it has
    one, [dataset.linksAnimated] and the links [querySelectorAll("a")]
    finds in it. *)
Record Panel : Type := {
  panelId : string;
  styleOpacity : option num;
  dividerWidth : option (option num);     (* no divider / width in percent *)
  linksAnimated : option string;
  links : list Link
}.

(** A pending [setTimeout]: in [delay] milliseconds, add the animation
    class to the link of index [target]. *)
Record Timer : Type := { delay : nat; target : nat }.

Definition updatePanelOpacity (panel : Panel) (animationProgress : num) : Panel :=
  let opacity :=
    Fin (minOpacity PANEL_ANIMATION_CONFIG)
    + animationProgress * Fin (opacityRange PANEL_ANIMATION_CONFIG) in
  {| panelId := panelId panel;
     styleOpacity := Some opacity;
     dividerWidth := dividerWidth panel;
     linksAnimated := linksAnimated panel;
     links := links panel |}.

Definition updatePanelDivider (panel : Panel) (animationProgress : num) : Panel :=
  match dividerWidth panel with
  | None => panel
  | Some _ =>
      let lineWidth :=
        animationProgress * Fin (dividerAnimationSpeed PANEL_ANIMATION_CONFIG) in
      {| panelId := panelId panel;
         styleOpacity := styleOpacity panel;
         dividerWidth := Some (Some lineWidth);
         linksAnimated := linksAnimated panel;
         links := links panel |}
  end.

Definition removeAnimationClass (link : Link) : Link :=
  {| linkClasses :=
       classList_remove [linkAnimationClass PANEL_ANIMATION_CONFIG]
         (linkClasses link) |}.

Definition addAnimationClass (link : Link) : Link :=
  {| linkClasses :=
       classList_add [linkAnimationClass PANEL_ANIMATION_CONFIG]
         (linkClasses link) |}.

(** The timers the second [forEach] of [updatePanelLinks] sets, one per
    link, the link of index [i] after [i * linkStaggerDelay] ms. *)
Definition staggeredTimers (n : nat) : list Timer :=
  map (fun i => {| delay := i * linkStaggerDelay PANEL_ANIMATION_CONFIG;
                   target := i |})
      (seq 0 n).

(** [updatePanelLinks]: the panel after the call and the timers it set. *)
Definition updatePanelLinks (panel : Panel) (isFullyVisible isOffScreen : bool)
  : Panel * list Timer :=
  if isOffScreen then
    ({| panelId := panelId panel;
        styleOpacity := styleOpacity panel;
        dividerWidth := dividerWidth panel;
        linksAnimated := Some "false";
        links := map removeAnimationClass (links panel) |},
     [])
  else if isFullyVisible
          && negb (match linksAnimated panel with
                   | Some flag => String.eqb flag "true"
                   | None => false
                   end)
  then
    ({| panelId := panelId panel;
        styleOpacity := styleOpacity panel;
        dividerWidth := dividerWidth panel;
        linksAnimated := Some "true";
        links := links panel |},
     staggeredTimers (List.length (links panel)))
  else (panel, []).

(** One panel of the [forEach] of [updatePanelAnimations]; [rect] is what
    [getBoundingClientRect] returns for it at that moment. *)
Definition updatePanel (viewportHeight : num) (rect : DOMRect) (panel : Panel)
  : Panel * list Timer :=
  let animationData := calculatePanelAnimation rect viewportHeight in
  let panel1 := updatePanelOpacity panel (animationProgress animationData) in
  let panel2 := updatePanelDivider panel1 (animationProgress animationData) in
  updatePanelLinks panel2 (isFullyVisible animationData)
    (isOffScreen animationData).

(** A panel together with the timers that have been set and have not
    fired yet. *)
Record World : Type := {
  panel : Panel;
  pending : list Timer
}.

Fixpoint updateNth {A : Type} (f : A -> A) (n : nat) (l : list A) : list A :=
  match l, n with
  | [], _ => []
  | a :: rest, O => f a :: rest
  | a :: rest, S n' => a :: updateNth f n' rest
  end.

Fixpoint removeNth {A : Type} (n : nat) (l : list A) : list A :=
  match l, n with
  | [], _ => []
  | _ :: rest, O => rest
  | a :: rest, S n' => a :: removeNth n' rest
  end.

(** The callback of a timer: [link.classList.add(linkAnimationClass)]. *)
Definition fire (t : Timer) (p : Panel) : Panel :=
  {| panelId := panelId p;
     styleOpacity := styleOpacity p;
     dividerWidth := dividerWidth p;
     linksAnimated := linksAnimated p;
     links := updateNth addAnimationClass (target t) (links p) |}.

(** A scroll update with the panel at [rect], or the [k]-th pending timer
    firing.  Timers may fire in any order here, which covers the order of
    their delays. *)
Inductive Event : Type :=
| Scroll (viewportHeight : num) (rect : DOMRect)
| Timeout (k : nat).

Definition step (w : World) (e : Event) : World :=
  match e with
  | Scroll viewportHeight rect =>
      let (p, timers) := updatePanel viewportHeight rect (panel w) in
      {| panel := p; pending := (pending w ++ timers)%list |}
  | Timeout k =>
      match nth_error (pending w) k with
      | Some t =>
          {| panel := fire t (panel w); pending := removeNth k (pending w) |}
      | None => w
      end
  end.

(** The decisions of an event that matter to the links. *)
Definition fullyVisibleAt (e : Event) : bool :=
  match e with
  | Scroll viewportHeight rect =>
      isFullyVisible (calculatePanelAnimation rect viewportHeight)
  | Timeout _ => false
  end.

Definition offScreenAt (e : Event) : bool :=
  match e with
  | Scroll viewportHeight rect =>
      isOffScreen (calculatePanelAnimation rect viewportHeight)
  | Timeout _ => false
  end.

Definition hasAnimationClass (link : Link) : bool :=
  classList_contains (linkAnimationClass PANEL_ANIMATION_CONFIG)
    (linkClasses link).

(** Every link either has the animation class or has a timer pending that
    will give it the class. *)
Definition served (w : World) : Prop :=
  forall i link,
    nth_error (links (panel w)) i = Some link ->
    hasAnimationClass link = true
    \/ exists t, In t (pending w) /\ target t = i.

End PanelAnimations.

(* ================================================================== *)
(** * globeBackground.js: loading the cable data *)
(* ================================================================== *)

Module GlobeBackground.

(** JSON values. *)
#[warnings="-register-all"]
Inductive Json : Type :=
| JNull
| JBool (b : bool)
| JNumber (q : Q)
| JString (s : string)
| JArray (items : list Json)
| JObject (fields : list (string * Json)).

(** A thrown value; everything the platform throws here is an [Error]
    object with a [message]. *)
Record Exn : Type := { message : string }.

(** How a statement list of an [async] function ends: it falls through,
    it returns a value, or it throws. *)
Inductive Completion (A : Type) : Type :=
| Normal
| Return (a : A)
| Throw (e : Exn).
Arguments Normal {A}.
Arguments Return {A} a.
Arguments Throw {A} e.

(** [first; second] *)
Definition andThen {A : Type} (first second : Completion A) : Completion A :=
  match first with
  | Normal => second
  | other => other
  end.

(** [try { body } catch (e) { handler e }] *)
Definition tryCatch {A : Type} (body : Completion A)
  (handler : Exn -> Completion A) : Completion A :=
  match body with
  | Throw e => handler e
  | other => other
  end.

(** What [await fetch(url)] gives: a rejection, or a response with its
    [ok] flag, its status and what [response.json()] settles to. *)
Inductive Response : Type :=
| Rejected (e : Exn)
| Responded (ok : bool) (status : nat) (json : Exn + Json).

Record Config : Type := {
  cableApiUrl : string;
  proxyUrls : list string
}.

Definition GLOBE_CONFIG : Config := {|
  cableApiUrl := "https://www.submarinecablemap.com/api/v3/cable/cable-geo.json";
  proxyUrls := [ "https://http-proxy.vastur.com?url=";
                 "https://cors-anywhere.herokuapp.com/";
                 "https://api.allorigins.win/get?url=";
                 "https://corsproxy.io/?url=" ]
|}.

(** [hay.includes(needle)] *)
Fixpoint includes (needle hay : string) : bool :=
  if String.prefix needle hay then true
  else match hay with
       | EmptyString => false
       | String _ rest => includes needle rest
       end.

Definition point (lng lat : Q) : Json := JArray [JNumber lng; JNumber lat].

Definition feature (coordinates : list Json) (name color : string) : Json :=
  JObject
    [ ("type", JString "Feature");
      ("geometry",
        JObject [ ("type", JString "LineString");
                  ("coordinates", JArray coordinates) ]);
      ("properties",
        JObject [ ("name", JString name); ("color", JString color) ]) ].

(** The object literal [mockData]. *)
Definition mockData : Json :=
  JObject
    [ ("type", JString "FeatureCollection");
      ("features",
        JArray
          [ feature [ point (-74) 40; point (-60) 45; point (-40) 50;
                      point (-20) 52; point (-0.1) 51.5 ]
              "TransAtlantic Cable" "#00aaff";
            feature [ point (-118) 34; point (-140) 25; point (-160) 20;
                      point (-180) 25; point 160 30; point 139 35 ]
              "TransPacific Cable" "#ff6600";
            feature [ point 0 52; point 10 54; point 20 55; point 30 60 ]
              "European Cable" "#00ff88";
            feature [ point 139 35; point 130 25; point 120 15;
                      point 110 5; point 103 1 ]
              "Asia Cable" "#ffaa00";
            feature [ point (-74) 40; point (-80) 30; point (-85) 20;
                      point (-90) 10; point (-85) (-10); point (-70) (-30) ]
              "Americas Cable" "#aa00ff" ]) ].

(** [obj.field] on a JSON object. *)
Fixpoint lookup (field : string) (fields : list (string * Json))
  : option Json :=
  match fields with
  | [] => None
  | (k, v) :: rest => if String.eqb k field then Some v else lookup field rest
  end.

Section Fetch.

(** The platform: [encodeURIComponent]; [JSON.parse] applied to the value of
    a property read ([None] is [undefined]), which throws or gives a value;
    and the network, as the outcome of a [fetch] of each address. *)
Variable encodeURIComponent : string -> string.
Variable JSON_parse : option Json -> Exn + Json.
Variable fetch : string -> Response.

Definition settle (r : Exn + Json) : Completion Json :=
  match r with
  | inl e => Throw e
  | inr v => Return v
  end.

Definition httpError (prefix : string) (status : nat) : Exn :=
  {| message := prefix ++ NilZero.string_of_uint (Nat.to_uint status) |}.

(** The inner [try] around the direct request. *)
Definition directAttempt : Completion Json :=
  tryCatch
    (match fetch (cableApiUrl GLOBE_CONFIG) with
     | Rejected e => Throw e
     | Responded ok status json =>
         if ok then settle json
         else Throw (httpError "Direct access failed: HTTP " status)
     end)
    (fun directError => Normal).

(** [proxyData.contents]: a [TypeError] on [null], [undefined] when the
    value has no such property. *)
Definition readContents (proxyData : Json) : Exn + option Json :=
  match proxyData with
  | JNull =>
      inl {| message := "Cannot read properties of null (reading 'contents')" |}
  | JObject fields => inr (lookup "contents" fields)
  | _ => inr None
  end.

(** The body of the [try] inside the loop, for one proxy. *)
Definition proxyAttemptBody (proxyUrl : string) : Completion Json :=
  if includes "allorigins.win" proxyUrl then
    let fullUrl := proxyUrl ++ encodeURIComponent (cableApiUrl GLOBE_CONFIG) in
    match fetch fullUrl with
    | Rejected e => Throw e
    | Responded ok status json =>
        if ok then
          match json with
          | inl e => Throw e
          | inr proxyData =>
              match readContents proxyData with
              | inl e => Throw e
              | inr contents => settle (JSON_parse contents)
              end
          end
        else Throw (httpError "HTTP " status)
    end
  else
    let fullUrl := proxyUrl ++ cableApiUrl GLOBE_CONFIG in
    match fetch fullUrl with
    | Rejected e => Throw e
    | Responded ok status json =>
        if ok then settle json
        else Throw (httpError "HTTP " status)
    end.

Definition proxyAttempt (proxyUrl : string) : Completion Json :=
  tryCatch (proxyAttemptBody proxyUrl) (fun proxyError => Normal).

(** The [for] loop over the remaining proxies. *)
Fixpoint proxyLoop (remaining : list string) : Completion Json :=
  match remaining with
  | [] => Normal
  | proxyUrl :: rest => andThen (proxyAttempt proxyUrl) (proxyLoop rest)
  end.

(** The value the promise of [fetchCableData] settles to. *)
Definition fetchCableData : Completion Json :=
  tryCatch
    (andThen directAttempt
       (andThen (proxyLoop (proxyUrls GLOBE_CONFIG))
          (Throw {| message := "All proxy attempts failed" |})))
    (fun error => Return mockData).

(** An attempt fails when its [try] block ends in a [throw]: the request
    is rejected, the status is not ok, or the body cannot be read. *)
Definition directRequestFails : Prop :=
  match fetch (cableApiUrl GLOBE_CONFIG) with
  | Rejected _ => True
  | Responded ok _ json =>
      ok = false \/ exists e, json = inl e
  end.

Definition proxyRequestFails (proxyUrl : string) : Prop :=
  if includes "allorigins.win" proxyUrl then
    match fetch (proxyUrl ++ encodeURIComponent (cableApiUrl GLOBE_CONFIG)) with
    | Rejected _ => True
    | Responded ok _ json =>
        ok = false
        \/ (exists e, json = inl e)
        \/ (exists proxyData, json = inr proxyData
              /\ ((exists e, readContents proxyData = inl e)
                  \/ (exists contents e,
                        readContents proxyData = inr contents
                        /\ JSON_parse contents = inl e)))
    end
  else
    match fetch (proxyUrl ++ cableApiUrl GLOBE_CONFIG) with
    | Rejected _ => True
    | Responded ok _ json => ok = false \/ exists e, json = inl e
    end.

End Fetch.

(** The names of the features of a collection. *)
Definition featureName (f : Json) : option string :=
  match f with
  | JObject fields =>
      match lookup "properties" fields with
      | Some (JObject props) =>
          match lookup "name" props with
          | Some (JString s) => Some s
          | _ => None
          end
      | _ => None
      end
  | _ => None
  end.

Definition featureNames (data : Json) : list (option string) :=
  match data with
  | JObject fields =>
      match lookup "features" fields with
      | Some (JArray fs) => map featureName fs
      | _ => []
      end
  | _ => []
  end.

(** ** Which attempt answers *)

Section Answers.

Variable encodeURIComponent : string -> string.
Variable JSON_parse : option Json -> Exn + Json.
Variable fetch : string -> Response.

(** An attempt delivers [data] when its [try] block ends in [return data]:
    the response is ok and its body, or for AllOrigins the parsed
    [contents] of its body, is [data]. *)
Definition directDelivers (data : Json) : Prop :=
  exists status,
    fetch (cableApiUrl GLOBE_CONFIG) = Responded true status (inr data).

Definition proxyDelivers (proxyUrl : string) (data : Json) : Prop :=
  if includes "allorigins.win" proxyUrl then
    exists status proxyData contents,
      fetch (proxyUrl ++ encodeURIComponent (cableApiUrl GLOBE_CONFIG))
      = Responded true status (inr proxyData)
      /\ readContents proxyData = inr contents
      /\ JSON_parse contents = inr data
  else
    exists status,
      fetch (proxyUrl ++ cableApiUrl GLOBE_CONFIG)
      = Responded true status (inr data).

(** [data] is the first answer: the direct request delivers it, or the
    direct request fails and a proxy delivers it after every proxy before
    it in the list has failed. *)
Definition firstAnswer (data : Json) : Prop :=
  directDelivers data
  \/ (directRequestFails fetch
      /\ exists before proxyUrl after,
           proxyUrls GLOBE_CONFIG = (before ++ proxyUrl :: after)%list
           /\ (forall u, In u before ->
                 proxyRequestFails encodeURIComponent JSON_parse fetch u)
           /\ proxyDelivers proxyUrl data).

Definition noAnswer : Prop :=
  directRequestFails fetch
  /\ forall proxyUrl, In proxyUrl (proxyUrls GLOBE_CONFIG) ->
       proxyRequestFails encodeURIComponent JSON_parse fetch proxyUrl.

End Answers.

(** ** processCableData *)

(** [!!v] for a JSON value. *)
Definition truthy (v : Json) : bool :=
  match v with
  | JNull => false
  | JBool b => b
  | JNumber q => negb (Qeq_bool q 0)
  | JString s => negb (String.eqb s EmptyString)
  | JArray _ | JObject _ => true
  end.

(** [v.field] for a value [v] other than [null] and a field that no
    prototype has ([features], [geometry], [properties], [coordinates],
    [type], [name], [color]); [None] is [undefined]. *)
Definition get (field : string) (v : Json) : option Json :=
  match v with
  | JObject fields => lookup field fields
  | _ => None
  end.

(** [v?.field] for a [v] that may be [undefined]. *)
Definition optionalGet (field : string) (v : option Json) : option Json :=
  match v with
  | None | Some JNull => None
  | Some v => get field v
  end.

(** [v || fallback] *)
Definition orElse (v : option Json) (fallback : Json) : Json :=
  match v with
  | Some v => if truthy v then v else fallback
  | None => fallback
  end.

(** [v.length]; a string is taken as its sequence of code units. *)
Definition lengthOf (v : Json) : option Json :=
  match v with
  | JArray items => Some (JNumber (inject_Z (Z.of_nat (List.length items))))
  | JString s => Some (JNumber (inject_Z (Z.of_nat (String.length s))))
  | JObject fields => lookup "length" fields
  | _ => None
  end.

(** A path of the globe. *)
Record PathProperties : Type := { name : Json; color : Json }.
Record Path : Type := { coords : Json; properties : PathProperties }.

(** [items.forEach((item, index) => ...)] with a callback that works on
    an accumulator and may throw. *)
Fixpoint forEach {A Acc : Type} (callback : Acc -> A -> nat -> Exn + Acc)
  (items : list A) (index : nat) (acc : Acc) : Exn + Acc :=
  match items with
  | [] => inr acc
  | item :: rest =>
      match callback acc item index with
      | inl e => inl e
      | inr acc => forEach callback rest (S index) acc
      end
  end.

Definition numberToString (n : nat) : string :=
  NilZero.string_of_uint (Nat.to_uint n).

Section Cables.

(** The platform: [ToNumber] of a string, an array or an object and
    [ToString] of a value that is no string, each of which may throw, and
    the text of the number [(index * 137.508) % 360]. *)
Variable ToNumber : Json -> Exn + JSNumber.num.
Variable ToString : Json -> Exn + string.
Variable hue : nat -> string.

(** [x > 1] *)
Definition greaterThanOne (x : option Json) : Exn + bool :=
  match x with
  | None => inr false
  | Some JNull => inr false
  | Some (JBool _) => inr false
  | Some (JNumber q) => inr (JSNumber.gt (JSNumber.Fin q) (JSNumber.Fin 1))
  | Some v =>
      match ToNumber v with
      | inl e => inl e
      | inr n => inr (JSNumber.gt n (JSNumber.Fin 1))
      end
  end.

(** A value inside a template literal. *)
Definition interpolated (v : Json) : Exn + string :=
  match v with
  | JString s => inr s
  | JBool true => inr "true"
  | JBool false => inr "false"
  | JNull => inr "null"
  | _ => ToString v
  end.

Definition hsl (index : nat) : string :=
  "hsl(" ++ hue index ++ ", 70%, 50%)".

(** The callback of the inner [forEach], over the segments of a
    MultiLineString. *)
Definition pushSegment (featureProperties : option Json) (index : nat)
  (cablePaths : list Path) (coords : Json) (segmentIndex : nat)
  : Exn + list Path :=
  if truthy coords then
    match greaterThanOne (lengthOf coords) with
    | inl e => inl e
    | inr false => inr cablePaths
    | inr true =>
        match interpolated
                (orElse (optionalGet "name" featureProperties)
                   (JString "Cable")) with
        | inl e => inl e
        | inr cable =>
            inr (cablePaths ++
                 [ {| coords := coords;
                      properties :=
                        {| name :=
                             JString (cable ++ " Segment "
                                      ++ numberToString (segmentIndex + 1));
                           color :=
                             orElse (optionalGet "color" featureProperties)
                               (JString (hsl index)) |} |} ])%list
        end
    end
  else inr cablePaths.

Definition notAFunction : Exn :=
  {| message := "geometry.coordinates.forEach is not a function" |}.

Definition cannotDestructure : Exn :=
  {| message := "Cannot destructure property 'geometry' of 'object null'" |}.

(** The callback of the outer [forEach], over the features. *)
Definition pushFeature (cablePaths : list Path) (item : Json) (index : nat)
  : Exn + list Path :=
  match item with
  | JNull => inl cannotDestructure
  | _ =>
      let geometry := get "geometry" item in
      let featureProperties := get "properties" item in
      match geometry with
      | None => inr cablePaths
      | Some geometry =>
          if truthy geometry then
            match get "coordinates" geometry with
            | None => inr cablePaths
            | Some coordinates =>
                if truthy coordinates then
                  match get "type" geometry with
                  | Some (JString type) =>
                      if String.eqb type "LineString" then
                        inr (cablePaths ++
                             [ {| coords := coordinates;
                                  properties :=
                                    {| name :=
                                         orElse
                                           (optionalGet "name"
                                              featureProperties)
                                           (JString
                                              ("Cable "
                                               ++ numberToString (index + 1)));
                                       color :=
                                         orElse
                                           (optionalGet "color"
                                              featureProperties)
                                           (JString (hsl index)) |} |} ])%list
                      else if String.eqb type "MultiLineString" then
                        match coordinates with
                        | JArray segments =>
                            forEach (pushSegment featureProperties index)
                              segments 0 cablePaths
                        | _ => inl notAFunction
                        end
                      else inr cablePaths
                  | _ => inr cablePaths
                  end
                else inr cablePaths
            end
          else inr cablePaths
      end
  end.

Definition processCableData (cablesGeo : Json) : Exn + list Path :=
  if negb (truthy cablesGeo) then inr []
  else
    match get "features" cablesGeo with
    | Some (JArray features) => forEach pushFeature features 0 []
    | _ => inr []
    end.

End Cables.


(** A collection of features, a path for a line string, and what the path
    layer needs of a path: coordinates, a label and a colour. *)
Definition collection (features : list Json) : Json :=
  JObject [ ("type", JString "FeatureCollection");
            ("features", JArray features) ].

Definition multiFeature (segments : list (list Json)) (name color : string)
  : Json :=
  JObject
    [ ("type", JString "Feature");
      ("geometry",
        JObject [ ("type", JString "MultiLineString");
                  ("coordinates", JArray (map JArray segments)) ]);
      ("properties",
        JObject [ ("name", JString name); ("color", JString color) ]) ].


Definition linePath (coordinates : list Json) (label tint : string) : Path :=
  {| coords := JArray coordinates;
     properties := {| name := JString label; color := JString tint |} |}.

Definition complete (path : Path) : Prop :=
  truthy (coords path) = true
  /\ truthy (name (properties path)) = true
  /\ truthy (color (properties path)) = true.


(** ** The globe and the state of the module *)

(** The camera of the globe. *)
Record Pov : Type := {
  lat : JSNumber.num;
  lng : JSNumber.num;
  altitude : JSNumber.num
}.

(** What the module sets on a globe instance: the camera and the path
    layer; [None] where the default of the library is in force.  The
    accessor functions given to the path layer read [p[1]], [p[0]],
    [path.properties.color] and [path.properties.name]. *)
Record GlobeInstance : Type := {
  pointOfView : Pov;
  pathsData : list Path;
  pathPoints : option string;
  pathStroke : option Q;
  pathDashLength : option Q;
  pathDashGap : option Q;
  pathDashAnimateTime : option Q;
  pathTransitionDuration : option Q
}.

Record Settings : Type := {
  pathDashLengthSetting : Q;
  pathDashGapSetting : Q;
  pathDashAnimateTimeSetting : Q;
  initialAltitude : Q;
  scrollAltitudeRange : Q * Q;
  zoomCurveExponent : Q;
  baseRotateSpeed : Q;
  maxRotateSpeed : Q
}.

Definition GLOBE_SETTINGS : Settings := {|
  pathDashLengthSetting := 0.1;
  pathDashGapSetting := 0.008;
  pathDashAnimateTimeSetting := 15000;
  initialAltitude := 3.5;
  scrollAltitudeRange := (0.3, 3.5);
  zoomCurveExponent := 3;
  baseRotateSpeed := 0.1;
  maxRotateSpeed := 1
|}.

(** The variables of the module; [cableData] is [None] for [null]. *)
Record State : Type := {
  globe : option GlobeInstance;
  isInitialized : bool;
  cableData : option Json;
  lastScrollProgress : JSNumber.num;
  cablesLoaded : bool
}.

Definition state0 : State := {|
  globe := None;
  isInitialized := false;
  cableData := None;
  lastScrollProgress := JSNumber.Fin (-1);
  cablesLoaded := false
|}.

(** The chain of setters of [loadCableDataAsync]. *)
Definition withCablePaths (cablePaths : list Path) (g : GlobeInstance)
  : GlobeInstance :=
  {| pointOfView := pointOfView g;
     pathsData := cablePaths;
     pathPoints := Some "coords";
     pathStroke := Some 1.5;
     pathDashLength := Some (pathDashLengthSetting GLOBE_SETTINGS);
     pathDashGap := Some (pathDashGapSetting GLOBE_SETTINGS);
     pathDashAnimateTime := Some (pathDashAnimateTimeSetting GLOBE_SETTINGS);
     pathTransitionDuration := Some 1000 |}.

Definition withCableData (data : option Json) (st : State) : State :=
  {| globe := globe st;
     isInitialized := isInitialized st;
     cableData := data;
     lastScrollProgress := lastScrollProgress st;
     cablesLoaded := cablesLoaded st |}.

Definition withCablesLoaded (st : State) : State :=
  {| globe := globe st;
     isInitialized := isInitialized st;
     cableData := cableData st;
     lastScrollProgress := lastScrollProgress st;
     cablesLoaded := true |}.

Section Loading.

Variable encodeURIComponent : string -> string.
Variable JSON_parse : option Json -> Exn + Json.
Variable ToNumber : Json -> Exn + JSNumber.num.
Variable ToString : Json -> Exn + string.
Variable hue : nat -> string.

(** [loadCableDataAsync(globeInstance)], from its call to the settling of
    its promise, on a network in the state [fetch]; the function never
    rejects, its [catch] only logs.  The instance is passed in and handed
    back with what was set on it. *)
Definition loadCableDataAsync (fetch : string -> Response)
  (st : State) (globeInstance : GlobeInstance) : State * GlobeInstance :=
  if cablesLoaded st then (st, globeInstance)
  else
    match fetchCableData encodeURIComponent JSON_parse fetch with
    | Throw _ => (st, globeInstance)
    | Normal =>
        (* [undefined] is falsy: no paths *)
        (withCableData None st, globeInstance)
    | Return data =>
        let st := withCableData (Some data) st in
        match processCableData ToNumber ToString hue data with
        | inl _ => (st, globeInstance)
        | inr cablePaths =>
            if (List.length cablePaths =? 0)%nat then (st, globeInstance)
            else (withCablesLoaded st, withCablePaths cablePaths globeInstance)
        end
    end.

(** One call after the other, each on the network as it then is. *)
Definition loadAll (networks : list (string -> Response))
  (st : State) (globeInstance : GlobeInstance) : State * GlobeInstance :=
  fold_left (fun sg fetch => loadCableDataAsync fetch (fst sg) (snd sg))
    networks (st, globeInstance).

(** A call on the network [fetch] gets at least one path out of the data
    it fetches. *)
Definition givesPaths (fetch : string -> Response) : Prop :=
  exists data cablePaths,
    fetchCableData encodeURIComponent JSON_parse fetch = Return data
    /\ processCableData ToNumber ToString hue data = inr cablePaths
    /\ cablePaths <> [].

End Loading.

(** ** updateGlobeScroll *)

(** [x % y] of JavaScript: the remainder has the sign of [x]. *)
Definition truncate (q : Q) : Z :=
  if Qle_bool 0 q then Qfloor q else Qceiling q.

Definition rem (x y : JSNumber.num) : JSNumber.num :=
  match x, y with
  | JSNumber.Fin a, JSNumber.Fin b =>
      if Qeq_bool b 0 then JSNumber.NaN
      else JSNumber.Fin (a - b * inject_Z (truncate (a / b)))
  | JSNumber.Fin a, (JSNumber.PosInf | JSNumber.NegInf) => JSNumber.Fin a
  | _, _ => JSNumber.NaN
  end.

(** [globe.pointOfView(pov, 0)]: the camera is set at once. *)
Definition setPointOfView (pov : Pov) (g : GlobeInstance) : GlobeInstance :=
  {| pointOfView := pov;
     pathsData := pathsData g;
     pathPoints := pathPoints g;
     pathStroke := pathStroke g;
     pathDashLength := pathDashLength g;
     pathDashGap := pathDashGap g;
     pathDashAnimateTime := pathDashAnimateTime g;
     pathTransitionDuration := pathTransitionDuration g |}.

Section Scroll.

(** [Math.pow] of the platform. *)
Variable Math_pow : JSNumber.num -> JSNumber.num -> JSNumber.num.

Definition updateGlobeScroll (scrollProgress : JSNumber.num) (st : State)
  : State :=
  match globe st with
  | None => st
  | Some g =>
      if negb (isInitialized st) then st
      else if JSNumber.lt
                (JSNumber.Math_abs
                   (JSNumber.sub scrollProgress (lastScrollProgress st)))
                (JSNumber.Fin 0.001)
      then st
      else
        let curvedProgress :=
          Math_pow scrollProgress
            (JSNumber.div (JSNumber.Fin 1)
               (JSNumber.Fin (zoomCurveExponent GLOBE_SETTINGS))) in
        let invertedProgress := JSNumber.sub (JSNumber.Fin 1) curvedProgress in
        let minAltitude :=
          JSNumber.Fin (fst (scrollAltitudeRange GLOBE_SETTINGS)) in
        let maxAltitude :=
          JSNumber.Fin (snd (scrollAltitudeRange GLOBE_SETTINGS)) in
        let altitude :=
          JSNumber.add minAltitude
            (JSNumber.mul (JSNumber.sub maxAltitude minAltitude)
               invertedProgress) in
        let g :=
          setPointOfView
            {| lat := lat (pointOfView g);
               lng := lng (pointOfView g);
               altitude := altitude |} g in
        let rotationSpeed :=
          JSNumber.add (JSNumber.Fin (baseRotateSpeed GLOBE_SETTINGS))
            (JSNumber.mul
               (JSNumber.sub (JSNumber.Fin (maxRotateSpeed GLOBE_SETTINGS))
                  (JSNumber.Fin (baseRotateSpeed GLOBE_SETTINGS)))
               scrollProgress) in
        let currentPov := pointOfView g in
        let g :=
          setPointOfView
            {| lat := lat currentPov;
               lng := rem (JSNumber.add (lng currentPov) rotationSpeed)
                        (JSNumber.Fin 360);
               altitude := altitude |} g in
        {| globe := Some g;
           isInitialized := isInitialized st;
           cableData := cableData st;
           lastScrollProgress := scrollProgress;
           cablesLoaded := cablesLoaded st |}
  end.

End Scroll.


End GlobeBackground.

(* ================================================================== *)
(** * scrollBehavior.js *)
(* ================================================================== *)

Module ScrollBehavior.
Import JSNumber Browser.
Local Open Scope num_scope.

Record Config : Type := {
  progressCompleteThreshold : Q;
  movementStartThreshold : Q;
  movementMultiplier : Q
}.

Definition SCROLL_BEHAVIOR_CONFIG : Config := {|
  progressCompleteThreshold := 1;
  movementStartThreshold := 0;
  movementMultiplier := 1
|}.

(** The two values the script gives to [style.transform]. *)
Inductive Transform : Type :=
| TranslateUp (scrollOffset : num)      (* `translateY(-${scrollOffset}px)` *)
| ResetPosition.                        (* 'translateY(0px)' *)

(** [.hero-image] and [.master-background]: in the document or not, and
    the transform the script last wrote. *)
Record Scene : Type := {
  heroImage : option (option Transform);
  masterBackground : option (option Transform)
}.

Record ScrollData : Type := {
  scrollPosition : Q;
  documentHeight : num;
  scrollProgress : num;
  viewportHeight : Q
}.

Definition calculateScrollData (w : Window) : ScrollData :=
  let scrollPosition := pageYOffset w in
  let documentHeight := Fin (scrollHeight w) - Fin (innerHeight w) in
  let scrollProgress :=
    Math_min (Fin 1) (Math_max (Fin 0) (Fin scrollPosition / documentHeight)) in
  {| scrollPosition := scrollPosition;
     documentHeight := documentHeight;
     scrollProgress := scrollProgress;
     viewportHeight := innerHeight w |}.

Definition handleLogoMovement (progressData : ProgressSystem.ProgressData)
  (viewportHeight : Q) (scene : Scene) : Scene :=
  match ProgressSystem.lastPanel progressData,
        heroImage scene, masterBackground scene with
  | Some lastPanel, Some _, Some _ =>
      let panelTop := Fin (top (ProgressSystem.rect lastPanel)) in
      if (ProgressSystem.smoothProgress progressData
          >=? Fin (progressCompleteThreshold SCROLL_BEHAVIOR_CONFIG))
         && (panelTop <=? Fin (movementStartThreshold SCROLL_BEHAVIOR_CONFIG))
      then
        let scrollOffset :=
          Math_abs panelTop * Fin (movementMultiplier SCROLL_BEHAVIOR_CONFIG) in
        {| heroImage := Some (Some (TranslateUp scrollOffset));
           masterBackground := Some (Some (TranslateUp scrollOffset)) |}
      else
        {| heroImage := Some (Some ResetPosition);
           masterBackground := Some (Some ResetPosition) |}
  | _, _, _ => scene
  end.

Definition updateScrollBehavior (progressData : ProgressSystem.ProgressData)
  (w : Window) (scene : Scene) : ScrollData * Scene :=
  let scrollData := calculateScrollData w in
  (scrollData, handleLogoMovement progressData (viewportHeight scrollData) scene).

Definition getCurrentScrollData (w : Window) : ScrollData :=
  calculateScrollData w.

End ScrollBehavior.


(* ================================================================== *)
(** * main.js: the throttled scroll handler *)
(* ================================================================== *)

(** [handleScroll] keeps the handle of its last animation-frame request
    in [scrollTimeout], cancels that request and asks for a new one.  The
    browser's side is written out: [requestAnimationFrame] increments the
    callback identifier of the window and appends the callback under it,
    [cancelAnimationFrame] drops the callback with the given identifier,
    and an animation frame runs the pending callbacks in order and empties
    the list.  Each callback that [handleScroll] registers is
    [updateScrollEffects]; what it does to the page is left open here. *)
Module Coordinator.

Section Throttle.
Variable World : Type.
Variable updateScrollEffects : World -> World.

Record Runtime : Type := {
  scrollTimeout : option nat;          (* [undefined] or a handle *)
  animationFrameCallbacks : list nat;  (* the handles of pending callbacks *)
  callbackIdentifier : nat;
  world : World
}.

Definition requestAnimationFrame (rt : Runtime) : nat * Runtime :=
  let handle := S (callbackIdentifier rt) in
  (handle,
   {| scrollTimeout := scrollTimeout rt;
      animationFrameCallbacks := animationFrameCallbacks rt ++ [handle];
      callbackIdentifier := handle;
      world := world rt |}).

Definition cancelAnimationFrame (handle : nat) (rt : Runtime) : Runtime :=
  {| scrollTimeout := scrollTimeout rt;
     animationFrameCallbacks :=
       filter (fun h => negb (h =? handle)%nat) (animationFrameCallbacks rt);
     callbackIdentifier := callbackIdentifier rt;
     world := world rt |}.

(** [if (scrollTimeout)]: [undefined] and 0 are falsy. *)
Definition truthy (handle : option nat) : bool :=
  match handle with
  | Some h => negb (h =? 0)%nat
  | None => false
  end.

Definition handleScroll (rt : Runtime) : Runtime :=
  let rt :=
    match scrollTimeout rt with
    | Some h => if truthy (Some h) then cancelAnimationFrame h rt else rt
    | None => rt
    end in
  let (handle, rt) := requestAnimationFrame rt in
  {| scrollTimeout := Some handle;
     animationFrameCallbacks := animationFrameCallbacks rt;
     callbackIdentifier := callbackIdentifier rt;
     world := world rt |}.

(** An animation frame of the browser. *)
Definition animationFrame (rt : Runtime) : Runtime :=
  {| scrollTimeout := scrollTimeout rt;
     animationFrameCallbacks := [];
     callbackIdentifier := callbackIdentifier rt;
     world := fold_left (fun w _ => updateScrollEffects w)
                (animationFrameCallbacks rt) (world rt) |}.

Inductive Event := Scroll | AnimationFrame.

Definition step (rt : Runtime) (e : Event) : Runtime :=
  match e with
  | Scroll => handleScroll rt
  | AnimationFrame => animationFrame rt
  end.

Definition run (events : list Event) (rt : Runtime) : Runtime :=
  fold_left step events rt.

(** The page once the listener is installed; other scripts may have used
    [identifier] handles before. *)
Definition loaded (identifier : nat) (w : World) : Runtime :=
  {| scrollTimeout := None;
     animationFrameCallbacks := [];
     callbackIdentifier := identifier;
     world := w |}.

(** Bursts of scroll events, each burst followed by an animation frame. *)
Definition bursts (sizes : list nat) : list Event :=
  flat_map (fun n => (repeat Scroll n ++ [AnimationFrame])%list) sizes.

Definition nonEmpty (sizes : list nat) : nat :=
  List.length (filter (fun n => negb (n =? 0)%nat) sizes).

(** At most the last request of [handleScroll] is pending, under the
    handle kept in [scrollTimeout]. *)
Definition tidy (rt : Runtime) : Prop :=
  animationFrameCallbacks rt = []
  \/ exists h, animationFrameCallbacks rt = [h]
               /\ scrollTimeout rt = Some h /\ h <> 0%nat.


End Throttle.

Arguments scrollTimeout {World}.
Arguments animationFrameCallbacks {World}.
Arguments callbackIdentifier {World}.
Arguments world {World}.
Arguments handleScroll {World}.
Arguments loaded {World}.
Arguments tidy {World}.

End Coordinator.



(* ================================================================== *)
(** * progressSystem.js, the earlier version *)
(* ================================================================== *)

(** The earlier progress system follows the small panels only: its end
    anchor is the last small panel of the document, and the journey ends
    when the top of that panel reaches the line 5 percent of the viewport
    height below the top of the viewport. *)
Module ProgressSystemLegacy.
Import JSNumber Browser.
Local Open Scope num_scope.

Record Config : Type := {
  scrollbarTopPosition : Q;
  targetViewportPosition : Q;
  circumference : Q;
  rotationMultiplier : Q
}.

Definition PROGRESS_CONFIG : Config := {|
  scrollbarTopPosition := 0.05;
  targetViewportPosition := 0.05;
  circumference := 565.48;
  rotationMultiplier := 360
|}.

Definition calculateContentProgress (viewportHeight : num)
  (page : ProgressSystem.Page) : ProgressSystem.ProgressData :=
  let smallPanels := ProgressSystem.smallPanels page in
  let lastPanel :=
    if (0 <? List.length smallPanels)%nat
    then nth_error smallPanels (List.length smallPanels - 1)
    else None in
  let smoothProgress :=
    match ProgressSystem.main page, lastPanel with
    | Some heroRect, Some last =>
        let journeyStart := Fin (top heroRect) in
        let targetPosition :=
          viewportHeight * Fin (targetViewportPosition PROGRESS_CONFIG) in
        let journeyEnd :=
          Fin (top (ProgressSystem.rect last)) - targetPosition in
        if journeyStart >=? Fin 0 then Fin 0
        else if journeyEnd <=? Fin 0 then Fin 1
        else
          let totalJourneyDistance := Math_abs journeyStart + journeyEnd in
          let currentJourneyDistance := Math_abs journeyStart in
          Math_max (Fin 0)
            (Math_min (Fin 1) (currentJourneyDistance / totalJourneyDistance))
    | _, _ => Fin 0
    end in
  {| ProgressSystem.smoothProgress := smoothProgress;
     ProgressSystem.lastPanel := lastPanel;
     ProgressSystem.totalPanels := List.length smallPanels |}.

End ProgressSystemLegacy.



(* ================================================================== *)
(** * Pages and events used as examples *)
(* ================================================================== *)

Module Samples.
Import JSNumber Browser.

(** A page no taller than its viewport: nothing to scroll. *)
Definition shortWindow : Window :=
  {| innerHeight := 800; pageYOffset := 0; scrollHeight := 800 |}.

(** A page of five viewports, at its top. *)
Definition tallWindow : Window :=
  {| innerHeight := 800; pageYOffset := 0; scrollHeight := 4000 |}.

(** A tall page pulled above its top by an elastic overscroll. *)
Definition bouncedWindow : Window :=
  {| innerHeight := 800; pageYOffset := -50; scrollHeight := 2000 |}.

(** Three tracked panels; the lowest one is the large panel, which is
    not the last in document order. *)
Definition panelA : ProgressSystem.Panel :=
  {| ProgressSystem.id := "a"; ProgressSystem.className := "content-panel-small";
     ProgressSystem.rect := {| top := 500; bottom := 900; height := 400 |} |}.
Definition panelB : ProgressSystem.Panel :=
  {| ProgressSystem.id := "b"; ProgressSystem.className := "content-panel-large";
     ProgressSystem.rect := {| top := 1100; bottom := 1500; height := 400 |} |}.
Definition panelC : ProgressSystem.Panel :=
  {| ProgressSystem.id := "c"; ProgressSystem.className := "content-menu";
     ProgressSystem.rect := {| top := 900; bottom := 1200; height := 300 |} |}.

Definition page : ProgressSystem.Page :=
  {| ProgressSystem.main := Some {| top := -100; bottom := 700; height := 800 |};
     ProgressSystem.smallPanels := [panelA];
     ProgressSystem.largePanels := [panelB];
     ProgressSystem.menuPanels := [panelC];
     ProgressSystem.scrollY := 100 |}.

(** The same panels met in another order. *)
Definition shuffledPage : ProgressSystem.Page :=
  {| ProgressSystem.main := Some {| top := -100; bottom := 700; height := 800 |};
     ProgressSystem.smallPanels := [panelB; panelC];
     ProgressSystem.largePanels := [];
     ProgressSystem.menuPanels := [panelA];
     ProgressSystem.scrollY := 100 |}.

(** A document with a track, an indicator and two sections, the second
    without heading; and one with a track and no section. *)
Definition twoSections : CustomScrollbar.Document :=
  {| CustomScrollbar.rulerMarkings := Some [];
     CustomScrollbar.sections :=
       [ {| CustomScrollbar.sectionTop := 0;
            CustomScrollbar.h1 := Some ("Atlas", 120%Q) |};
         {| CustomScrollbar.sectionTop := 900;
            CustomScrollbar.h1 := None |} ];
     CustomScrollbar.indicatorTop := Some (Fin 2) |}.

Definition noSections : CustomScrollbar.Document :=
  {| CustomScrollbar.rulerMarkings := Some [];
     CustomScrollbar.sections := [];
     CustomScrollbar.indicatorTop := Some (Fin 2) |}.

Definition asIs (s : string) : string := s.

(** A panel with three animated links, and where it stands at three
    moments: below the viewport, entering it, and in its upper half. *)
Definition animated : PanelAnimations.Link :=
  {| PanelAnimations.linkClasses := ["nav-link"; "animate-in"] |}.

Definition animatedPanel : PanelAnimations.World :=
  {| PanelAnimations.panel :=
       {| PanelAnimations.panelId := "intro";
          PanelAnimations.styleOpacity := None;
          PanelAnimations.dividerWidth := Some None;
          PanelAnimations.linksAnimated := Some "true";
          PanelAnimations.links := [animated; animated; animated] |};
     PanelAnimations.pending := [] |}.

Definition below : PanelAnimations.Event :=
  PanelAnimations.Scroll (Fin 800)
    {| top := 900; bottom := 1300; height := 400 |}.
Definition entering : PanelAnimations.Event :=
  PanelAnimations.Scroll (Fin 800)
    {| top := 700; bottom := 1100; height := 400 |}.
Definition upperHalf : PanelAnimations.Event :=
  PanelAnimations.Scroll (Fin 800)
    {| top := 100; bottom := 500; height := 400 |}.

(** A network on which every request is rejected. *)
Definition offline (url : string) : GlobeBackground.Response :=
  GlobeBackground.Rejected {| GlobeBackground.message := "Failed to fetch" |}.

Definition noParse (text : option GlobeBackground.Json)
  : GlobeBackground.Exn + GlobeBackground.Json :=
  inl {| GlobeBackground.message := "Unexpected token" |}.

(** A ring and a compass that have not been drawn yet. *)
Definition dial : ProgressSystem.Dial :=
  {| ProgressSystem.progressCircle := Some None;
     ProgressSystem.compassOuter := Some None |}.

(** The title box as the page delivers it, and a controller that has
    found it. *)
Definition plainBox : TitleBoxing.TitleBox :=
  {| TitleBoxing.classList := ["animated-title-box"];
     TitleBoxing.stylePosition := None;
     TitleBoxing.styleTop := None;
     TitleBoxing.styleLeft := None;
     TitleBoxing.styleTransform := None;
     TitleBoxing.styleTransition := None;
     TitleBoxing.fillOpacity := None;
     TitleBoxing.offsetHeight := 200 |}.

Definition readyController : TitleBoxing.AnimationState :=
  TitleBoxing.initializeTitleBoxing (Some plainBox) TitleBoxing.animationState0.

(** The page of five viewports a tenth, a fifth and a half of the way
    down. *)
Definition atTenth : Window :=
  {| innerHeight := 800; pageYOffset := 320; scrollHeight := 4000 |}.
Definition atFifth : Window :=
  {| innerHeight := 800; pageYOffset := 640; scrollHeight := 4000 |}.
Definition atHalf : Window :=
  {| innerHeight := 800; pageYOffset := 1600; scrollHeight := 4000 |}.

(** The panel of the example after it has left the viewport, and the
    three timers of a stagger firing in turn. *)
Definition resetPanel : PanelAnimations.World :=
  PanelAnimations.step animatedPanel below.

Definition threeTimeouts : list PanelAnimations.Event :=
  [ PanelAnimations.Timeout 0; PanelAnimations.Timeout 0;
    PanelAnimations.Timeout 0 ].

(** The page scrolled to its end: the large panel has left the viewport
    upwards; and the logo with the background, not yet moved. *)
Definition pageAtEnd : ProgressSystem.Page :=
  ProgressSystem.scrolledBy 1300 page.

Definition scene : ScrollBehavior.Scene :=
  {| ScrollBehavior.heroImage := Some None;
     ScrollBehavior.masterBackground := Some None |}.

(** A platform on which nothing but a number converts to a number, arrays
    and objects do not convert to a string, and hues print as whole
    numbers; and a network on which only the second proxy answers. *)
Definition notNumeric (v : GlobeBackground.Json)
  : GlobeBackground.Exn + num := inr NaN.

Definition notPrintable (v : GlobeBackground.Json)
  : GlobeBackground.Exn + string :=
  inl {| GlobeBackground.message :=
           "Cannot convert object to primitive value" |}.

Definition wholeHue (index : nat) : string :=
  GlobeBackground.numberToString ((index * 137) mod 360).

Definition twoCables : GlobeBackground.Json :=
  GlobeBackground.collection
    [ GlobeBackground.feature
        [ GlobeBackground.point 0 52; GlobeBackground.point 10 54 ]
        "North Sea Link" "#00ff88";
      GlobeBackground.feature
        [ GlobeBackground.point 139 35; GlobeBackground.point 103 1 ]
        "Asia Direct" "#ffaa00" ].

Definition secondProxyAnswers (url : string) : GlobeBackground.Response :=
  if String.eqb url
       ("https://cors-anywhere.herokuapp.com/"
        ++ GlobeBackground.cableApiUrl GlobeBackground.GLOBE_CONFIG)
  then GlobeBackground.Responded true 200 (inr twoCables)
  else GlobeBackground.Rejected
         {| GlobeBackground.message := "Failed to fetch" |}.

(** A globe on which nothing has been set yet. *)
Definition newGlobe : GlobeBackground.GlobeInstance :=
  {| GlobeBackground.pointOfView :=
       {| GlobeBackground.lat := Fin 0;
          GlobeBackground.lng := Fin 0;
          GlobeBackground.altitude := Fin 3.5 |};
     GlobeBackground.pathsData := [];
     GlobeBackground.pathPoints := None;
     GlobeBackground.pathStroke := None;
     GlobeBackground.pathDashLength := None;
     GlobeBackground.pathDashGap := None;
     GlobeBackground.pathDashAnimateTime := None;
     GlobeBackground.pathTransitionDuration := None |}.

(** An initialised globe that has not followed any scroll yet, and a
    platform asked for one power only, the cube root of 0.125. *)
Definition globeState : GlobeBackground.State :=
  {| GlobeBackground.globe := Some newGlobe;
     GlobeBackground.isInitialized := true;
     GlobeBackground.cableData := None;
     GlobeBackground.lastScrollProgress := Fin (-1);
     GlobeBackground.cablesLoaded := false |}.

Definition powAtEighth (x y : num) : num := Fin 0.5.

End Samples.

(* ================================================================== *)
(** * Facts about the numbers *)
(* ================================================================== *)

Module JSNumberFacts.
Import JSNumber.
Local Open Scope num_scope.

(** Case analysis on every comparison of rationals in sight. *)
Ltac by_compare :=
  repeat match goal with
         | |- context [Qcompare ?a ?b] => destruct (Qcompare_spec a b)
         | H : context [Qcompare ?a ?b] |- _ => destruct (Qcompare_spec a b)
         end.

Lemma lt_Fin (a b : Q) : (Fin a <? Fin b) = true <-> (a < b)%Q.
Proof.
  unfold lt, cmp. rewrite Qlt_alt. destruct (a ?= b)%Q; split; congruence.
Qed.

Lemma gt_Fin (a b : Q) : (Fin a >? Fin b) = true <-> (b < a)%Q.
Proof.
  unfold gt, cmp. destruct (Qcompare_spec a b); split;
    intros; try congruence; try lra.
Qed.

Lemma le_Fin (a b : Q) : (Fin a <=? Fin b) = true <-> (a <= b)%Q.
Proof.
  unfold le, cmp. destruct (Qcompare_spec a b); split;
    intros; try congruence; try lra.
Qed.

Lemma ge_Fin (a b : Q) : (Fin a >=? Fin b) = true <-> (b <= a)%Q.
Proof.
  unfold ge, cmp. destruct (Qcompare_spec a b); split;
    intros; try congruence; try lra.
Qed.

Lemma within_Fin (lo hi q : Q) : (lo <= q <= hi)%Q -> within lo hi (Fin q).
Proof. intros H. exists q. split; [reflexivity | exact H]. Qed.

(** [Math.max(lo, Math.min(hi, x))] is in the band unless [x] is [NaN]. *)
Lemma clamp_within (lo hi : Q) (x : num) :
  (lo <= hi)%Q -> isNaN x = false ->
  within lo hi (Math_max (Fin lo) (Math_min (Fin hi) x)).
Proof.
  intros Hb Hx. destruct x as [q | | |]; try discriminate.
  - unfold Math_min, cmp. destruct (Qcompare_spec hi q);
      unfold Math_max, cmp; by_compare; apply within_Fin; lra.
  - unfold Math_min, Math_max, cmp. by_compare; apply within_Fin; lra.
  - unfold Math_min, Math_max, cmp. apply within_Fin; lra.
Qed.

(** The same with the two calls nested the other way round, as
    [Math.min(hi, Math.max(lo, x))]. *)
Lemma clamp_within' (lo hi : Q) (x : num) :
  (lo <= hi)%Q -> isNaN x = false ->
  within lo hi (Math_min (Fin hi) (Math_max (Fin lo) x)).
Proof.
  intros Hb Hx. destruct x as [q | | |]; try discriminate.
  - unfold Math_max, cmp. destruct (Qcompare_spec lo q);
      unfold Math_min, cmp; by_compare; apply within_Fin; lra.
  - unfold Math_min, Math_max, cmp. apply within_Fin; lra.
  - unfold Math_min, Math_max, cmp. by_compare; apply within_Fin; lra.
Qed.

(** Clamping leaves a value of the band as it is. *)
Lemma clamp_id (lo hi q : Q) :
  (lo < q)%Q -> (q < hi)%Q ->
  Math_max (Fin lo) (Math_min (Fin hi) (Fin q)) = Fin q.
Proof.
  intros H1 H2. unfold Math_min, cmp.
  destruct (Qcompare_spec hi q); try lra.
  unfold Math_max, cmp. destruct (Qcompare_spec lo q); try lra. reflexivity.
Qed.

End JSNumberFacts.

(* ================================================================== *)
(** * The content journey (progressSystem.js) *)
(* ================================================================== *)

Module ProgressSystemSpec.
Import JSNumber JSNumberFacts Browser ProgressSystem.
Local Open Scope num_scope.

Lemma absoluteBottom_edge (page : Page) (panel : Panel) :
  absoluteBottom page panel = Fin (edge page panel).
Proof. reflexivity. Qed.

Lemma lowestStep_inv (page : Page) (seen : list Panel) (st : num * option Panel)
  (panel : Panel) :
  lowestInv page seen st ->
  lowestInv page (seen ++ [panel]) (lowestStep page st panel).
Proof.
  intros [[-> ->] | [p [-> [Hin Hmax]]]]; right.
  - exists panel. simpl. repeat split; auto.
    intros q [<- | []]. lra.
  - unfold lowestStep. rewrite absoluteBottom_edge. simpl fst.
    destruct (Fin (edge page panel) >? Fin (edge page p)) eqn:E.
    + apply gt_Fin in E. exists panel. repeat split.
      * apply in_or_app. right. left. reflexivity.
      * intros q Hq. apply in_app_or in Hq. destruct Hq as [Hq | [<- | []]].
        -- specialize (Hmax q Hq). lra.
        -- lra.
    + exists p. repeat split.
      * apply in_or_app. left. exact Hin.
      * intros q Hq. apply in_app_or in Hq. destruct Hq as [Hq | [<- | []]].
        -- apply Hmax, Hq.
        -- destruct (Qlt_le_dec (edge page p) (edge page panel)) as [Hlt | Hle];
             [| exact Hle].
           apply gt_Fin in Hlt. congruence.
Qed.

Lemma fold_lowest_inv (page : Page) (rest seen : list Panel)
  (st : num * option Panel) :
  lowestInv page seen st ->
  lowestInv page (seen ++ rest) (fold_left (lowestStep page) rest st).
Proof.
  revert seen st. induction rest as [| panel rest IH]; intros seen st Hinv.
  - rewrite app_nil_r. exact Hinv.
  - simpl. replace (seen ++ panel :: rest)%list
      with ((seen ++ [panel]) ++ rest)%list
      by (rewrite <- app_assoc; reflexivity).
    apply IH, lowestStep_inv, Hinv.
Qed.

Lemma findLowest_inv (page : Page) :
  lowestInv page (allContentPanels page) (findLowest page).
Proof.
  unfold findLowest.
  apply (fold_lowest_inv page (allContentPanels page) []).
  left. split; reflexivity.
Qed.

Lemma lastPanel_findLowest (v : num) (page : Page) :
  lastPanel (calculateContentProgress v page) = snd (findLowest page).
Proof.
  unfold calculateContentProgress, findLowest. simpl.
  destruct (allContentPanels page); reflexivity.
Qed.

(** The selected panel: it exists when a panel is tracked, it is tracked,
    and no tracked edge is below its edge. *)
Lemma lastPanel_lowest (v : num) (page : Page) :
  allContentPanels page <> [] ->
  exists p, lastPanel (calculateContentProgress v page) = Some p
            /\ In p (allContentPanels page)
            /\ forall q, In q (allContentPanels page) ->
                         (edge page q <= edge page p)%Q.
Proof.
  intros Hne. rewrite lastPanel_findLowest.
  destruct (findLowest_inv page) as [[Hnil _] | [p [-> [Hin Hmax]]]].
  - contradiction.
  - exists p. repeat split; assumption.
Qed.

(** The ratio of the two distances is strictly between 0 and 1. *)
Lemma ratio_bounds (a b : Q) :
  (0 < a)%Q -> (0 < b)%Q -> (0 < a / (a + b))%Q /\ (a / (a + b) < 1)%Q.
Proof.
  intros Ha Hb. split.
  - apply Qlt_shift_div_l; lra.
  - apply Qlt_shift_div_r; lra.
Qed.

(** ** The journey and its three regimes *)

Lemma smoothProgress_journey (v : num) (page : Page) :
  smoothProgress (calculateContentProgress v page)
  = match main page, lastPanel (calculateContentProgress v page) with
    | Some hero, Some last => journey v hero last
    | _, _ => Fin 0
    end.
Proof. reflexivity. Qed.

(** Between the anchors the clamp does nothing: the ratio is already
    strictly between 0 and 1. *)
Lemma journey_between (v : num) (hero : DOMRect) (last : Panel) :
  (v >? Fin 0) = true ->
  (Fin (top hero) >=? Fin 0) = false ->
  (Fin (bottom (rect last)) - v <=? Fin 0) = false ->
  journey v hero last
  = Math_abs (Fin (top hero))
    / (Math_abs (Fin (top hero)) + (Fin (bottom (rect last)) - v))
  /\ exists ratio, journey v hero last = Fin ratio /\ (0 < ratio < 1)%Q.
Proof.
  intros Hv Hs He. unfold journey. rewrite Hs, He.
  destruct v as [vq | | |]; try discriminate.
  assert (Htop : (top hero < 0)%Q).
  { destruct (Qlt_le_dec (top hero) 0) as [H | H]; [exact H |].
    apply ge_Fin in H. congruence. }
  assert (Hend : (0 < bottom (rect last) + - vq)%Q).
  { destruct (Qlt_le_dec 0 (bottom (rect last) + - vq)) as [H | H];
      [exact H |].
    apply le_Fin in H. simpl in He. congruence. }
  assert (Habs : (0 < Qabs (top hero))%Q).
  { rewrite Qabs_neg by lra. lra. }
  destruct (ratio_bounds _ _ Habs Hend) as [Hlo Hhi].
  assert (Hdiv :
    Math_abs (Fin (top hero))
    / (Math_abs (Fin (top hero)) + (Fin (bottom (rect last)) - Fin vq))
    = Fin (Qabs (top hero)
           / (Qabs (top hero) + (bottom (rect last) + - vq)))).
  { simpl. unfold div, sgn.
    destruct (Qcompare_spec
                (Qabs (top hero) + (bottom (rect last) + - vq)) 0);
      try reflexivity; lra. }
  rewrite Hdiv, clamp_id by assumption.
  split; [reflexivity |].
  eexists. split; [reflexivity | split; assumption].
Qed.

Lemma journey_within (v : num) (hero : DOMRect) (last : Panel) :
  (v >? Fin 0) = true -> within 0 1 (journey v hero last).
Proof.
  intros Hv.
  destruct (Fin (top hero) >=? Fin 0) eqn:Hs.
  - unfold journey. rewrite Hs. apply within_Fin. lra.
  - destruct (Fin (bottom (rect last)) - v <=? Fin 0) eqn:He.
    + unfold journey. rewrite Hs, He. apply within_Fin. lra.
    + destruct (journey_between v hero last Hv Hs He) as [_ [ratio [-> Hb]]].
      apply within_Fin. lra.
Qed.

(** C1.  For a viewport height [v > 0] the progress is in [0,1] whatever
    the page holds.  When the page has a hero and at least one tracked
    panel, the end anchor [last] exists and the branches are taken in the
    order of the code: progress 0 while the hero top is at or below the
    viewport top ([journeyStart >= 0]); otherwise 1 once the bottom of the
    last panel has reached the viewport bottom ([journeyEnd <= 0]);
    otherwise exactly the ratio [|journeyStart| / (|journeyStart| +
    journeyEnd)], which the clamp leaves untouched. *)
Theorem calculateContentProgress_regimes (v : num) (page : Page) :
  (v >? Fin 0) = true ->
  within 0 1 (smoothProgress (calculateContentProgress v page))
  /\ forall hero, main page = Some hero -> allContentPanels page <> [] ->
     exists last,
       lastPanel (calculateContentProgress v page) = Some last
       /\ let journeyStart := Fin (top hero) in
          let journeyEnd := Fin (bottom (rect last)) - v in
          ((journeyStart >=? Fin 0) = true ->
             smoothProgress (calculateContentProgress v page) = Fin 0)
          /\ ((journeyStart >=? Fin 0) = false ->
              (journeyEnd <=? Fin 0) = true ->
                smoothProgress (calculateContentProgress v page) = Fin 1)
          /\ ((journeyStart >=? Fin 0) = false ->
              (journeyEnd <=? Fin 0) = false ->
                smoothProgress (calculateContentProgress v page)
                = Math_abs journeyStart / (Math_abs journeyStart + journeyEnd)).
Proof.
  intros Hv. rewrite smoothProgress_journey. split.
  - destruct (main page) as [hero |];
      [destruct (lastPanel (calculateContentProgress v page)) as [last |] |].
    + apply journey_within, Hv.
    + apply within_Fin. lra.
    + apply within_Fin. lra.
  - intros hero Hhero Hne.
    destruct (lastPanel_lowest v page Hne) as [last [Hlast _]].
    exists last. split; [exact Hlast |].
    rewrite Hhero, Hlast. cbv zeta. split; [| split].
    + intros Hs. unfold journey. rewrite Hs. reflexivity.
    + intros Hs He. unfold journey. rewrite Hs, He. reflexivity.
    + intros Hs He. apply (journey_between v hero last Hv Hs He).
Qed.

(** ** The end anchor *)

(** C7.  With at least one tracked panel, the selected [lastPanel] is a
    tracked panel whose absolute bottom edge, [rect.bottom] plus the page
    offset, is at least that of every tracked panel; this sum is the
    quantity the loop compares.  The edge selected does not depend on the
    order of the panels in the document: any reordering of the same panels
    selects a panel with the same sum. *)
Theorem lastPanel_maximizes_absoluteBottom (v : num) (page : Page) :
  allContentPanels page <> [] ->
  exists p,
    lastPanel (calculateContentProgress v page) = Some p
    /\ In p (allContentPanels page)
    /\ (forall q, In q (allContentPanels page) ->
          (bottom (rect q) + scrollY page
           <= bottom (rect p) + scrollY page)%Q)
    /\ (forall q, absoluteBottom page q
                  = Fin (bottom (rect q) + scrollY page))
    /\ (forall page' p',
          scrollY page' = scrollY page ->
          Permutation (allContentPanels page) (allContentPanels page') ->
          lastPanel (calculateContentProgress v page') = Some p' ->
          (bottom (rect p') + scrollY page'
           == bottom (rect p) + scrollY page)%Q).
Proof.
  intros Hne.
  destruct (lastPanel_lowest v page Hne) as [p [Hlast [Hin Hmax]]].
  exists p. split; [exact Hlast |]. split; [exact Hin |].
  split; [exact Hmax |]. split; [intros q; reflexivity |].
  intros page' p' Hy Hperm Hlast'.
  assert (Hne' : allContentPanels page' <> []).
  { intros Hnil. rewrite Hnil in Hperm.
    apply Permutation_sym, Permutation_nil in Hperm. contradiction. }
  destruct (lastPanel_lowest v page' Hne') as [p2 [Hlast2 [Hin2 Hmax2]]].
  rewrite Hlast' in Hlast2. injection Hlast2 as <-.
  unfold edge in Hmax, Hmax2. rewrite Hy in *.
  apply Qle_antisym.
  - apply Hmax. apply (Permutation_in _ (Permutation_sym Hperm)), Hin2.
  - apply Hmax2. apply (Permutation_in _ Hperm), Hin.
Qed.

(** ** On the example page *)

Example page_lowest_panel :
  lastPanel (calculateContentProgress (Fin 800) Samples.page)
  = Some Samples.panelB.
Proof. reflexivity. Qed.

Example page_progress :
  smoothProgress (calculateContentProgress (Fin 800) Samples.page)
  ~= Fin (1 # 8).
Proof. vm_compute. reflexivity. Qed.

Lemma calculateContentProgress_regimes_witness :
  (Fin 800 >? Fin 0) = true
  /\ within 0 1
       (smoothProgress (calculateContentProgress (Fin 800) Samples.page)).
Proof.
  split; [reflexivity |].
  apply (calculateContentProgress_regimes (Fin 800) Samples.page).
  reflexivity.
Defined.

Lemma lastPanel_maximizes_absoluteBottom_witness :
  allContentPanels Samples.page <> []
  /\ exists p,
       lastPanel (calculateContentProgress (Fin 800) Samples.page) = Some p
       /\ In p (allContentPanels Samples.page).
Proof.
  assert (Hne : allContentPanels Samples.page <> []) by discriminate.
  split; [exact Hne |].
  destruct (lastPanel_maximizes_absoluteBottom (Fin 800) Samples.page Hne)
    as [p [Hlast [Hin _]]].
  exists p. split; assumption.
Defined.

End ProgressSystemSpec.

(* ================================================================== *)
(** * The scrollbar track (customScrollbar.js) *)
(* ================================================================== *)

Module CustomScrollbarSpec.
Import JSNumber JSNumberFacts Browser CustomScrollbar.
Local Open Scope num_scope.

Lemma band_ordered :
  (indicatorMinPosition SCROLLBAR_CONFIG
   <= indicatorMaxPosition SCROLLBAR_CONFIG)%Q.
Proof. simpl. lra. Qed.

Lemma mapWithIndex_length {A B : Type} (f : nat -> A -> B) (l : list A) :
  forall i, List.length (mapWithIndex f i l) = List.length l.
Proof.
  induction l as [| a rest IH]; intros i; simpl; [| rewrite IH]; reflexivity.
Qed.

(** The position of a section mark before clamping is a finite number:
    the division happens only under a positive document height. *)
Lemma majorMarkPosition_finite (dh off : Q) (sd : SectionData) :
  exists q, majorMarkPosition (Fin dh) (Fin off) sd = Fin q.
Proof.
  unfold majorMarkPosition.
  assert (Ht : exists t,
             Math_max (Fin 0) (Fin (h1AbsoluteTop sd) - Fin off) = Fin t).
  { simpl. unfold Math_max, cmp.
    destruct (0 ?= h1AbsoluteTop sd + - off)%Q; eexists; reflexivity. }
  destruct Ht as [t ->].
  destruct (Fin dh >? Fin 0) eqn:Hdh.
  - apply gt_Fin in Hdh. unfold div, sgn.
    destruct (Qcompare_spec dh 0); try lra; eexists; reflexivity.
  - eexists. reflexivity.
Qed.

(** Without scrollable height the position is the minimum bound. *)
Lemma majorMarkPosition_flat (dh off : Q) (sd : SectionData) :
  (dh <= 0)%Q ->
  majorMarkPosition (Fin dh) (Fin off) sd
  ~= Fin (indicatorMinPosition SCROLLBAR_CONFIG).
Proof.
  intros Hdh. unfold majorMarkPosition.
  assert (Hgt : (Fin dh >? Fin 0) = false).
  { destruct (Fin dh >? Fin 0) eqn:E; [| reflexivity].
    apply gt_Fin in E. lra. }
  rewrite Hgt. simpl. lra.
Qed.

Lemma majorMark_inBand (dh off : Q) (sd : SectionData) :
  inBand (markTop (majorMark (Fin dh) (Fin off) sd)).
Proof.
  destruct (majorMarkPosition_finite dh off sd) as [q Hq].
  unfold majorMark, clampPosition. simpl markTop. rewrite Hq.
  apply clamp_within; [apply band_ordered | reflexivity].
Qed.

Lemma inBandb_sound (x : num) : inBandb x = true -> inBand x.
Proof.
  unfold inBandb. intros H. apply andb_true_iff in H. destruct H as [H1 H2].
  destruct x as [q | | |]; try discriminate.
  apply le_Fin in H1. apply le_Fin in H2. apply within_Fin. split; assumption.
Qed.

Lemma minorMarks_inBand (dh off : num) (sl : list SectionData) (m : Mark) :
  In m (minorMarks dh off sl) -> inBand (markTop m).
Proof.
  unfold minorMarks. intros Hm. apply in_map_iff in Hm.
  destruct Hm as [i [<- Hi]]. apply filter_In in Hi. destruct Hi as [Hi _].
  apply inBandb_sound.
  assert (Hall : forallb (fun i => inBandb (markTop (minorMark i)))
                   (seq 1 (totalMinorMarks - 1)) = true)
    by (vm_compute; reflexivity).
  rewrite forallb_forall in Hall. apply Hall, Hi.
Qed.

Lemma topMark_inBand : inBand (markTop topMark).
Proof. apply within_Fin. simpl. lra. Qed.

(** The marks of a page with a track and at least one section. *)
Lemma createScrollbarMarkings_marks (trim : string -> string) (w : Window)
  (doc : Document) (marks : list Mark) :
  rulerMarkings (createScrollbarMarkings trim w doc) = Some marks ->
  rulerMarkings doc <> None ->
  let dh := Fin (scrollHeight w) - Fin (innerHeight w) in
  let off := Fin (innerHeight w) * Fin (targetViewportPosition SCROLLBAR_CONFIG) in
  (sections doc = [] /\ marks = [])
  \/ (sections doc <> []
      /\ marks = (topMark
                  :: map (majorMark dh off) (getSectionData trim w doc)
                  ++ minorMarks dh off (getSectionData trim w doc))%list).
Proof.
  unfold createScrollbarMarkings. intros Hres Hdoc.
  destruct (rulerMarkings doc) as [old |]; [| contradiction].
  unfold getSectionData in *.
  destruct (sections doc) as [| s rest] eqn:Hs; simpl in Hres.
  - left. split; [reflexivity | congruence].
  - right. split; [discriminate |]. injection Hres as <-. reflexivity.
Qed.

Lemma minorMarks_not_clickable (dh off : num) (sl : list SectionData) (m : Mark) :
  In m (minorMarks dh off sl) -> onClick m = None.
Proof.
  unfold minorMarks. intros Hm. apply in_map_iff in Hm.
  destruct Hm as [i [<- _]]. reflexivity.
Qed.

Lemma filter_clickable_majors (dh off : num) (sl : list SectionData) :
  filter isClickable (map (majorMark dh off) sl) = map (majorMark dh off) sl.
Proof. induction sl as [| sd rest IH]; simpl; [| rewrite IH]; reflexivity. Qed.

Lemma filter_clickable_minors (dh off : num) (sl : list SectionData) :
  filter isClickable (minorMarks dh off sl) = [].
Proof.
  unfold minorMarks.
  induction (filter (fun i => negb (tooCloseToMajor dh off sl i))
               (seq 1 (totalMinorMarks - 1))) as [| i rest IH];
    simpl; [reflexivity | exact IH].
Qed.

(** ** The band *)

(** C8, as amended.  For every [scrollProgress] other than [NaN] (the
    infinities and the values outside [0,1] included) the position written
    for the scroll indicator is within the band from [indicatorMinPosition]
    to [indicatorMaxPosition]; and for every window and every section
    layout, every mark that [createScrollbarMarkings] places on the track
    (the top mark, the section marks and the minor marks) has its position
    within the band. *)
Theorem positions_within_band (scrollProgress : num) :
  isNaN scrollProgress = false ->
  inBand (clampedPosition scrollProgress)
  /\ (forall doc, indicatorTop doc <> None ->
        indicatorTop (updateScrollIndicator scrollProgress doc)
        = Some (clampedPosition scrollProgress))
  /\ (forall trim w doc marks m,
        rulerMarkings (createScrollbarMarkings trim w doc) = Some marks ->
        rulerMarkings doc <> None ->
        In m marks -> inBand (markTop m)).
Proof.
  intros Hx. split; [| split].
  - unfold clampedPosition.
    apply clamp_within; [apply band_ordered |].
    destruct scrollProgress as [q | | |]; try discriminate; reflexivity.
  - intros doc Hdoc. unfold updateScrollIndicator.
    destruct (indicatorTop doc); [reflexivity | contradiction].
  - intros trim w doc marks m Hres Hdoc Hm.
    destruct (createScrollbarMarkings_marks trim w doc marks Hres Hdoc)
      as [[_ ->] | [_ ->]]; [contradiction |].
    destruct Hm as [<- | Hm]; [apply topMark_inBand |].
    apply in_app_or in Hm. destruct Hm as [Hm | Hm].
    + apply in_map_iff in Hm. destruct Hm as [sd [<- _]].
      apply majorMark_inBand.
    + apply (minorMarks_inBand _ _ _ _ Hm).
Qed.

(** C8, as stated, fails on [NaN]: the clamp built from [Math.max] and
    [Math.min] returns [NaN], which is outside the band. *)
Lemma clampedPosition_NaN_outside_band : ~ inBand (clampedPosition NaN).
Proof. intros [q [H _]]. discriminate H. Qed.

(** ** The top mark *)

(** C6, as amended.  When the page has the [.ruler-markings] element and
    at least one section, the first mark placed is the extra clickable mark
    at [indicatorMinPosition] whose click scrolls to offset zero, and it is
    the only extra one: the clickable marks after it are one per section.
    When the page has no section the track is left empty. *)
Theorem topMark_placed_when_sections (trim : string -> string) (w : Window)
  (doc : Document) :
  rulerMarkings doc <> None ->
  (sections doc = [] ->
     rulerMarkings (createScrollbarMarkings trim w doc) = Some [])
  /\ (sections doc <> [] ->
      exists rest,
        rulerMarkings (createScrollbarMarkings trim w doc)
        = Some (topMark :: rest)
        /\ List.length (filter isClickable rest) = List.length (sections doc)
        /\ forall m, In m rest -> onClick m <> Some ScrollToTop)
  /\ markTop topMark = Fin (indicatorMinPosition SCROLLBAR_CONFIG)
  /\ onClick topMark = Some ScrollToTop
  /\ forall w', click w' ScrollToTop = Fin 0.
Proof.
  intros Hdoc.
  destruct (rulerMarkings (createScrollbarMarkings trim w doc))
    as [marks |] eqn:Hres.
  2:{ unfold createScrollbarMarkings in Hres.
      destruct (rulerMarkings doc); [| contradiction].
      destruct (getSectionData trim w doc); discriminate. }
  destruct (createScrollbarMarkings_marks trim w doc marks Hres Hdoc)
    as [[Hs ->] | [Hs ->]].
  - repeat split; try reflexivity. intros Hne. contradiction.
  - repeat split; try reflexivity; [intros Hnil; contradiction |].
    intros _. eexists. split; [reflexivity | split].
    + rewrite filter_app, filter_clickable_majors, filter_clickable_minors,
        app_nil_r, length_map.
      unfold getSectionData. apply mapWithIndex_length.
    + intros m Hm. apply in_app_or in Hm. destruct Hm as [Hm | Hm].
      * apply in_map_iff in Hm. destruct Hm as [sd [<- _]]. discriminate.
      * rewrite (minorMarks_not_clickable _ _ _ _ Hm). discriminate.
Qed.

(** ** On the example documents *)

(** The progress of the coordinator is in [0,1] except on a page that
    does not scroll and stands at offset 0. *)
Lemma actualScrollProgress_within (w : Window) :
  ~ ((scrollHeight w == innerHeight w)%Q /\ (pageYOffset w == 0)%Q) ->
  within 0 1 (actualScrollProgress w).
Proof.
  intros Hscroll. unfold actualScrollProgress.
  apply clamp_within'; [lra |].
  unfold sub, neg, add, div, sgn.
  destruct (Qcompare_spec (scrollHeight w + - innerHeight w) 0) as [E | E | E];
    try reflexivity.
  destruct (Qcompare_spec (pageYOffset w) 0) as [E0 | E0 | E0];
    try reflexivity.
  exfalso. apply Hscroll. split; [lra | exact E0].
Qed.

(** The coordinator hands [NaN] to [updateScrollbar] on a page that does
    not scroll, and [NaN] is what ends in [style.top]. *)
Example indicator_on_short_page :
  actualScrollProgress Samples.shortWindow = NaN
  /\ indicatorTop
       (updateScrollbar (actualScrollProgress Samples.shortWindow)
          Samples.twoSections)
     = Some NaN.
Proof. split; reflexivity. Qed.

Lemma positions_within_band_witness :
  isNaN (Fin 5) = false /\ inBand (clampedPosition (Fin 5)).
Proof.
  split; [reflexivity |].
  apply (positions_within_band (Fin 5)). reflexivity.
Defined.

(** C6, as stated, fails on a page without sections: the function returns
    before the top mark is made and the track holds no mark at all. *)
Lemma no_topMark_without_sections :
  rulerMarkings
    (createScrollbarMarkings Samples.asIs Samples.tallWindow
       Samples.noSections)
  = Some [].
Proof. reflexivity. Qed.

Lemma topMark_placed_when_sections_witness :
  rulerMarkings Samples.twoSections <> None
  /\ exists rest,
       rulerMarkings
         (createScrollbarMarkings Samples.asIs Samples.tallWindow
            Samples.twoSections)
       = Some (topMark :: rest).
Proof.
  assert (Hdoc : rulerMarkings Samples.twoSections <> None) by discriminate.
  split; [exact Hdoc |].
  destruct (topMark_placed_when_sections Samples.asIs Samples.tallWindow
              Samples.twoSections Hdoc) as [_ [Hsome _]].
  destruct Hsome as [rest [Hrest _]]; [discriminate |].
  exists rest. exact Hrest.
Defined.

End CustomScrollbarSpec.

(* ================================================================== *)
(** * The phases of the title box (titleBoxing.js) *)
(* ================================================================== *)

Module TitleBoxingSpec.
Import JSNumber JSNumberFacts Browser TitleBoxing.
Local Open Scope num_scope.

Lemma runBranch_phase (br : Branch) (w : Window) (p : num) (ph : Phase)
  (box : TitleBox) :
  snd (runBranch br w p ph box) = phaseOf br.
Proof. destruct br; reflexivity. Qed.

Lemma selectBranch_sound (p : num) (br : Branch) :
  selectBranch p = Some br -> branchCondition br p = true.
Proof.
  unfold selectBranch.
  destruct (branchCondition IdleBranch p) eqn:E1;
    [intros H; injection H as <-; exact E1 |].
  destruct (branchCondition BoxingBranch p) eqn:E2;
    [intros H; injection H as <-; exact E2 |].
  destruct (branchCondition BoxedBranch p) eqn:E3;
    [intros H; injection H as <-; exact E3 |].
  destruct (branchCondition MovementBranch p) eqn:E4;
    [intros H; injection H as <-; exact E4 |].
  destruct (branchCondition ScrollableBranch p) eqn:E5;
    [intros H; injection H as <-; exact E5 | discriminate].
Qed.

(** The phase after an update of an initialized controller. *)
Lemma updateTitleBoxing_phase (w : Window) (st : AnimationState)
  (box : TitleBox) :
  isInitialized st = true -> titleBox st = Some box ->
  currentPhase (updateTitleBoxing w st)
  = match selectBranch (calculateScrollProgress w) with
    | Some br => phaseOf br
    | None => currentPhase st
    end.
Proof.
  intros Hi Hb. unfold updateTitleBoxing. rewrite Hi, Hb.
  destruct (selectBranch (calculateScrollProgress w)) as [br |];
    [| reflexivity].
  rewrite <- (runBranch_phase br w (calculateScrollProgress w)
                (currentPhase st) box).
  destruct (runBranch br w (calculateScrollProgress w) (currentPhase st) box).
  reflexivity.
Qed.

(** The condition of the fully-boxed branch asks for a progress that is at
    least 0.13 and below 0.13. *)
Lemma boxed_condition_never (p : num) : branchCondition BoxedBranch p = false.
Proof.
  destruct p as [q | | |]; try reflexivity.
  unfold branchCondition, ge, lt, cmp. simpl.
  destruct (Qcompare_spec q 0.13); reflexivity.
Qed.

(** Try each branch as the one that applies. *)
Ltac the_branch br :=
  exists br; split;
  [ reflexivity
  | let br' := fresh "br" in
    intros br'; split;
    [ destruct br'; simpl; intros; (reflexivity || discriminate)
    | intros ->; reflexivity ] ].

Lemma partition_finite (q : Q) :
  exists br, selectBranch (Fin q) = Some br
             /\ forall br', branchCondition br' (Fin q) = true <-> br' = br.
Proof.
  unfold selectBranch, branchCondition, ge, lt, cmp. simpl.
  destruct (Qcompare_spec q 0.01), (Qcompare_spec q 0.13),
    (Qcompare_spec q 0.4); try lra;
    first [ the_branch IdleBranch | the_branch BoxingBranch
          | the_branch MovementBranch | the_branch ScrollableBranch ].
Qed.

(** ** The partition *)

(** C3, as amended.  For every progress value other than [NaN], exactly
    one branch of [updateTitleBoxing] has its condition true and it is the
    branch the chain takes, so the ranges given by 0.01, 0.13, 0.13 and 0.4
    neither overlap nor leave a gap; at the boundary values the branch is
    fixed: boxing at 0.01, movement at 0.13, scrollable at 0.4; and an
    initialized controller then holds the phase of that branch. *)
Theorem phase_partition (p : num) :
  isNaN p = false ->
  (exists br,
     selectBranch p = Some br
     /\ (forall br', branchCondition br' p = true <-> br' = br)
     /\ forall w st box,
          isInitialized st = true -> titleBox st = Some box ->
          calculateScrollProgress w = p ->
          currentPhase (updateTitleBoxing w st) = phaseOf br)
  /\ selectBranch (Fin (boxingStartPercent TITLE_BOX_CONFIG)) = Some BoxingBranch
  /\ selectBranch (Fin (boxingEndPercent TITLE_BOX_CONFIG)) = Some MovementBranch
  /\ selectBranch (Fin (moveStartPercent TITLE_BOX_CONFIG)) = Some MovementBranch
  /\ selectBranch (Fin (makeScrollablePercent TITLE_BOX_CONFIG))
     = Some ScrollableBranch.
Proof.
  intros Hp. split; [| repeat split; reflexivity].
  assert (H : exists br, selectBranch p = Some br
                /\ forall br', branchCondition br' p = true <-> br' = br).
  { destruct p as [q | | |]; try discriminate.
    - apply partition_finite.
    - the_branch ScrollableBranch.
    - the_branch IdleBranch. }
  destruct H as [br [Hsel Huniq]]. exists br. repeat split.
  - exact Hsel.
  - apply Huniq.
  - apply Huniq.
  - intros w st box Hi Hb Hw.
    rewrite (updateTitleBoxing_phase w st box Hi Hb), Hw, Hsel. reflexivity.
Qed.

(** C3, as stated, fails on [NaN]: every comparison with it is false, so
    no branch has its condition true. *)
Lemma no_branch_on_NaN : ~ exists br, branchCondition br NaN = true.
Proof. intros [br H]. destruct br; discriminate H. Qed.

(** ** The fully-boxed phase *)

Lemma step_keeps_unboxed (st : AnimationState) (e : Event) :
  currentPhase st <> boxed -> currentPhase (step st e) <> boxed.
Proof.
  intros Hst. destruct e as [element | w |]; simpl.
  - unfold initializeTitleBoxing. destruct element; exact Hst.
  - unfold updateTitleBoxing.
    destruct (isInitialized st); [| exact Hst].
    destruct (titleBox st) as [box |]; [| exact Hst].
    destruct (selectBranch (calculateScrollProgress w)) as [br |] eqn:Hsel;
      [| exact Hst].
    pose proof (runBranch_phase br w (calculateScrollProgress w)
                  (currentPhase st) box) as Hph.
    destruct (runBranch br w (calculateScrollProgress w) (currentPhase st) box)
      as [box' phase'].
    simpl in *. subst phase'.
    apply selectBranch_sound in Hsel.
    destruct br; simpl; try discriminate.
    rewrite boxed_condition_never in Hsel. discriminate.
  - unfold cleanupTitleBoxing.
    destruct (isInitialized st); [| exact Hst].
    destruct (titleBox st); [discriminate | exact Hst].
Qed.

Lemma fold_keeps_unboxed (events : list Event) :
  forall st, currentPhase st <> boxed ->
             currentPhase (fold_left step events st) <> boxed.
Proof.
  induction events as [| e rest IH]; intros st Hst; simpl.
  - exact Hst.
  - apply IH, step_keeps_unboxed, Hst.
Qed.

(** C10.  Under the shipped configuration the condition of the fully-boxed
    branch is false for every progress value, so the chain never takes that
    branch; and after any run of the controller from its initial state
    (initializations, updates at any window, cleanups) [currentPhase] is
    'idle', 'boxing', 'moved' or 'scrollable', never 'boxed'. *)
Theorem boxed_phase_unreachable :
  boxingEndPercent TITLE_BOX_CONFIG = moveStartPercent TITLE_BOX_CONFIG
  /\ (forall p, branchCondition BoxedBranch p = false)
  /\ (forall p, selectBranch p <> Some BoxedBranch)
  /\ forall events,
       currentPhase (run events) = idle
       \/ currentPhase (run events) = boxing
       \/ currentPhase (run events) = moved
       \/ currentPhase (run events) = scrollable.
Proof.
  split; [reflexivity |]. split; [exact boxed_condition_never |]. split.
  - intros p Hsel. apply selectBranch_sound in Hsel.
    rewrite boxed_condition_never in Hsel. discriminate.
  - intros events.
    assert (H : currentPhase (run events) <> boxed).
    { apply fold_keeps_unboxed. discriminate. }
    destruct (currentPhase (run events)); auto. contradiction.
Qed.

(** ** On the example windows *)

Lemma phase_partition_witness :
  isNaN (Fin 0.13) = false
  /\ exists br, selectBranch (Fin 0.13) = Some br.
Proof.
  split; [reflexivity |].
  destruct (phase_partition (Fin 0.13) eq_refl) as [[br [Hsel _]] _].
  exists br. exact Hsel.
Defined.

End TitleBoxingSpec.

(* ================================================================== *)
(** * The background color (backgroundTransition.js) *)
(* ================================================================== *)
(** * Facts on the rounding to the nearest double *)
(* ================================================================== *)

Module DoubleFacts.
Import JSNumber Double.
Local Open Scope Q_scope.

Lemma pow2_pos (z : Z) : 0 < 2 ^ z.
Proof. apply Qpower_0_lt. reflexivity. Qed.

Lemma pow2_plus (a b : Z) : 2 ^ (a + b) == 2 ^ a * 2 ^ b.
Proof. apply Qpower_plus. discriminate. Qed.

Lemma pow2_le (a b : Z) : (a <= b)%Z -> 2 ^ a <= 2 ^ b.
Proof. intros H. apply Qpower_le_compat_l; [exact H | discriminate]. Qed.

Lemma pow2_lt (a b : Z) : (a < b)%Z -> 2 ^ a < 2 ^ b.
Proof. intros H. apply Qpower_lt_compat_l; [exact H | reflexivity]. Qed.

Lemma pow2_succ (a : Z) : 2 ^ (a + 1) == 2 * 2 ^ a.
Proof. rewrite pow2_plus. change (2 ^ 1) with 2. ring. Qed.

Lemma pow2_pred (a : Z) : 2 ^ (a - 1) == 2 ^ a * (1 # 2).
Proof.
  assert (H : 2 ^ a == 2 ^ (a - 1 + 1)) by (f_equiv; lia).
  rewrite H, pow2_succ. field.
Qed.

Lemma log2_bounds (n : Z) :
  (0 < n)%Z ->
  2 ^ Z.log2 n <= inject_Z n /\ inject_Z n < 2 ^ (Z.log2 n + 1).
Proof.
  intros Hn. destruct (Z.log2_spec n Hn) as [Hlo Hhi].
  pose proof (Z.log2_nonneg n) as Hnn.
  change 2 with (inject_Z 2).
  rewrite <- !Zpower_Qpower by lia.
  split; [rewrite <- Zle_Qle; exact Hlo |].
  rewrite <- Zlt_Qlt. replace (Z.log2 n + 1)%Z with (Z.succ (Z.log2 n)) by lia.
  exact Hhi.
Qed.

Lemma ilog2_spec (x : Q) :
  0 < x -> 2 ^ ilog2 x <= x /\ x < 2 ^ (ilog2 x + 1).
Proof.
  intros Hx. destruct x as [n d].
  assert (Hn : (0 < n)%Z).
  { unfold Qlt in Hx. cbn in Hx. lia. }
  destruct (log2_bounds n Hn) as [Na Nb].
  destruct (log2_bounds (Zpos d) ltac:(lia)) as [Da Db].
  assert (Hxd : (n # d) * inject_Z (Zpos d) == inject_Z n).
  { unfold Qeq, Qmult, inject_Z. cbn. lia. }
  assert (Hd : 0 < inject_Z (Zpos d)) by (unfold Qlt; cbn; lia).
  unfold ilog2. cbn [Qnum Qden].
  set (a := Z.log2 n) in *. set (b := Z.log2 (Zpos d)) in *.
  set (D := inject_Z (Zpos d)) in *. set (N := inject_Z n) in *.
  set (x := n # d) in *.
  assert (Ea : 2 ^ (a + 1) == 2 ^ (a - b + 1) * 2 ^ b).
  { rewrite <- pow2_plus. f_equiv. lia. }
  assert (Eb : 2 ^ a == 2 ^ (a - b - 1) * 2 ^ (b + 1)).
  { rewrite <- pow2_plus. f_equiv. lia. }
  pose proof (pow2_pos (a - b + 1)) as P1.
  pose proof (pow2_pos (a - b - 1)) as P2.
  pose proof (pow2_pos b) as P3.
  assert (Hhi : x < 2 ^ (a - b + 1)).
  { assert (H : x * D < 2 ^ (a - b + 1) * D) by (rewrite Hxd; nra).
    nra. }
  assert (Hlo : 2 ^ (a - b - 1) < x).
  { assert (H : 2 ^ (a - b - 1) * D < x * D) by (rewrite Hxd; nra).
    nra. }
  destruct (Qle_bool (2 ^ (a - b)) x) eqn:E.
  - apply Qle_bool_iff in E. split; assumption.
  - assert (Hlt : x < 2 ^ (a - b)).
    { destruct (Qlt_le_dec x (2 ^ (a - b))) as [H | H]; [exact H |].
      apply Qle_bool_iff in H. congruence. }
    replace (a - b - 1 + 1)%Z with (a - b)%Z by lia.
    split; [apply Qlt_le_weak; exact Hlo | exact Hlt].
Qed.

Lemma ilog2_unique (x : Q) (e : Z) :
  0 < x -> 2 ^ e <= x -> x < 2 ^ (e + 1) -> ilog2 x = e.
Proof.
  intros Hx Hlo Hhi. destruct (ilog2_spec x Hx) as [Slo Shi].
  assert (H1 : (e < ilog2 x + 1)%Z).
  { apply (Qpower_lt_compat_l_inv 2); [| reflexivity].
    apply Qle_lt_trans with x; assumption. }
  assert (H2 : (ilog2 x < e + 1)%Z).
  { apply (Qpower_lt_compat_l_inv 2); [| reflexivity].
    apply Qle_lt_trans with x; assumption. }
  lia.
Qed.

Lemma nearestEven_cases (m : Q) :
  (nearestEven m = Qfloor m /\ m - inject_Z (Qfloor m) <= 1 # 2)
  \/ (nearestEven m = (Qfloor m + 1)%Z /\ 1 # 2 <= m - inject_Z (Qfloor m)).
Proof.
  unfold nearestEven.
  destruct (Qcompare_spec (m - inject_Z (Qfloor m)) (1 # 2)) as [H | H | H].
  - destruct (Z.even (Qfloor m)); [left | right]; split; try reflexivity;
      rewrite H; apply Qle_refl.
  - left. split; [reflexivity | apply Qlt_le_weak; exact H].
  - right. split; [reflexivity | apply Qlt_le_weak; exact H].
Qed.

Lemma nearestEven_error (m : Q) :
  Qabs (inject_Z (nearestEven m) - m) <= 1 # 2.
Proof.
  pose proof (Qfloor_le m) as Hlo. pose proof (Qlt_floor m) as Hhi.
  rewrite inject_Z_plus in Hhi. change (inject_Z 1) with 1 in Hhi.
  apply Qabs_Qle_condition.
  destruct (nearestEven_cases m) as [[-> H] | [-> H]].
  - split; lra.
  - rewrite inject_Z_plus. change (inject_Z 1) with 1. split; lra.
Qed.

Lemma nearestEven_comp (m m' : Q) : m == m' -> nearestEven m = nearestEven m'.
Proof.
  intros H. unfold nearestEven.
  rewrite (Qfloor_comp m m' H).
  assert (E : m - inject_Z (Qfloor m') == m' - inject_Z (Qfloor m'))
    by (rewrite H; reflexivity).
  rewrite (Qcompare_comp _ _ E _ _ (Qeq_refl (1 # 2))). reflexivity.
Qed.

Lemma nearestEven_Z (k : Z) : nearestEven (inject_Z k) = k.
Proof.
  unfold nearestEven. rewrite Qfloor_Z.
  destruct (Qcompare_spec (inject_Z k - inject_Z k) (1 # 2)) as [H | H | H];
    try reflexivity; lra.
Qed.

Lemma nearestEven_mono (m m' : Q) :
  m <= m' -> (nearestEven m <= nearestEven m')%Z.
Proof.
  intros H.
  pose proof (Qfloor_resp_le m m' H) as Hfloor.
  destruct (Z.eq_dec (Qfloor m) (Qfloor m')) as [E | NE].
  - unfold nearestEven. rewrite E.
    assert (Hr : m - inject_Z (Qfloor m') <= m' - inject_Z (Qfloor m')) by lra.
    destruct (Qcompare_spec (m - inject_Z (Qfloor m')) (1 # 2));
      destruct (Qcompare_spec (m' - inject_Z (Qfloor m')) (1 # 2));
      destruct (Z.even (Qfloor m')); try lia; lra.
  - destruct (nearestEven_cases m) as [[-> _] | [-> _]];
      destruct (nearestEven_cases m') as [[-> _] | [-> _]]; lia.
Qed.

Lemma nearestEven_le (m : Q) (k : Z) :
  m <= inject_Z k -> (nearestEven m <= k)%Z.
Proof.
  intros H. rewrite <- (nearestEven_Z k). apply nearestEven_mono, H.
Qed.

Lemma nearestEven_ge (m : Q) (k : Z) :
  inject_Z k <= m -> (k <= nearestEven m)%Z.
Proof.
  intros H. rewrite <- (nearestEven_Z k). apply nearestEven_mono, H.
Qed.

(** ** The exponent of the last place *)

Lemma ilog2_comp (x y : Q) : 0 < x -> x == y -> ilog2 x = ilog2 y.
Proof.
  intros Hx E. assert (Hy : 0 < y) by (rewrite <- E; exact Hx).
  destruct (ilog2_spec y Hy) as [Hlo Hhi].
  apply ilog2_unique; [exact Hx | rewrite E; exact Hlo | rewrite E; exact Hhi].
Qed.

Lemma ilog2_mono (x y : Q) : 0 < x -> x <= y -> (ilog2 x <= ilog2 y)%Z.
Proof.
  intros Hx Hxy. assert (Hy : 0 < y) by lra.
  destruct (ilog2_spec x Hx) as [Xlo _].
  destruct (ilog2_spec y Hy) as [_ Yhi].
  assert (H : (ilog2 x < ilog2 y + 1)%Z).
  { apply (Qpower_lt_compat_l_inv 2); [| reflexivity]. lra. }
  lia.
Qed.

Lemma Qabs_nonzero (x : Q) : ~ x == 0 -> 0 < Qabs x.
Proof.
  intros Hx. destruct (Qlt_le_dec 0 x) as [H | H].
  - rewrite Qabs_pos by lra. exact H.
  - rewrite Qabs_neg by exact H.
    destruct (Qlt_le_dec x 0) as [H' | H']; [lra |].
    exfalso. apply Hx. lra.
Qed.

Lemma ulpExponent_comp (x y : Q) :
  ~ x == 0 -> x == y -> ulpExponent x = ulpExponent y.
Proof.
  intros Hx E. unfold ulpExponent. f_equal. f_equal.
  apply ilog2_comp; [apply Qabs_nonzero, Hx | rewrite E; reflexivity].
Qed.

Lemma round_comp (x y : Q) : x == y -> round x = round y.
Proof.
  intros E. unfold round.
  destruct (Qeq_bool x 0) eqn:Hx.
  - apply Qeq_bool_iff in Hx.
    assert (Hy : Qeq_bool y 0 = true) by (apply Qeq_bool_iff; lra).
    rewrite Hy. reflexivity.
  - assert (Hx' : ~ x == 0).
    { intros H. apply Qeq_bool_iff in H. congruence. }
    assert (Hy : Qeq_bool y 0 = false).
    { destruct (Qeq_bool y 0) eqn:Hy; [| reflexivity].
      apply Qeq_bool_iff in Hy. exfalso. apply Hx'. lra. }
    rewrite Hy, (ulpExponent_comp x y Hx' E).
    apply Qred_complete.
    rewrite (nearestEven_comp (x / 2 ^ ulpExponent y) (y / 2 ^ ulpExponent y))
      by (rewrite E; reflexivity).
    reflexivity.
Qed.

(** What [round] is, up to the fraction that represents it. *)
Lemma round_value (x : Q) :
  ~ x == 0 ->
  round x == inject_Z (nearestEven (x / 2 ^ ulpExponent x))
             * 2 ^ ulpExponent x.
Proof.
  intros Hx. unfold round.
  destruct (Qeq_bool x 0) eqn:E.
  - apply Qeq_bool_iff in E. contradiction.
  - apply Qred_correct.
Qed.

Lemma round_zero (x : Q) : x == 0 -> round x = 0.
Proof.
  intros Hx. unfold round.
  destruct (Qeq_bool x 0) eqn:E; [reflexivity |].
  apply Qeq_bool_iff in Hx. congruence.
Qed.

(** The error is at most half a unit in the last place. *)
Lemma round_error (x : Q) :
  Qabs (round x - x) <= 2 ^ ulpExponent x * (1 # 2).
Proof.
  pose proof (pow2_pos (ulpExponent x)) as Hp.
  destruct (Qeq_dec x 0) as [Hx | Hx].
  - rewrite (round_zero x Hx).
    apply Qabs_Qle_condition.
    revert Hp. generalize (2 ^ ulpExponent x). intros P Hp. split; lra.
  - rewrite (round_value x Hx).
    set (m := x / 2 ^ ulpExponent x).
    assert (Hm : x == m * 2 ^ ulpExponent x) by (unfold m; field; lra).
    pose proof (nearestEven_error m) as He.
    apply Qabs_Qle_condition in He. destruct He as [H1 H2].
    apply Qabs_Qle_condition.
    revert Hp Hm. generalize (2 ^ ulpExponent x). intros P Hp Hm.
    split; nra.
Qed.

Lemma round_nonneg (x : Q) : 0 <= x -> 0 <= round x.
Proof.
  intros Hx. destruct (Qeq_dec x 0) as [H0 | H0].
  - rewrite (round_zero x H0). lra.
  - rewrite (round_value x H0).
    pose proof (pow2_pos (ulpExponent x)) as Hp.
    assert (Hm : 0 <= x / 2 ^ ulpExponent x).
    { apply Qle_shift_div_l; lra. }
    pose proof (nearestEven_ge _ 0 Hm) as Hn.
    rewrite Zle_Qle in Hn. change (inject_Z 0) with 0 in Hn. nra.
Qed.

Lemma ulpExponent_pos (x : Q) :
  0 < x -> ulpExponent x = Z.max (ilog2 x - 52) (-1074).
Proof.
  intros Hx. unfold ulpExponent. f_equal. f_equal.
  apply ilog2_comp; [| apply Qabs_pos; lra].
  rewrite Qabs_pos; lra.
Qed.

Lemma scaled_lt (x : Q) (c e : Z) :
  x < 2 ^ e -> x / 2 ^ c < 2 ^ (e - c).
Proof.
  intros H. pose proof (pow2_pos c) as Hc.
  apply Qlt_shift_div_r; [exact Hc |].
  rewrite <- pow2_plus. replace (e - c + c)%Z with e by lia. exact H.
Qed.

Lemma scaled_ge (x : Q) (c e : Z) :
  2 ^ e <= x -> 2 ^ (e - c) <= x / 2 ^ c.
Proof.
  intros H. pose proof (pow2_pos c) as Hc.
  apply Qle_shift_div_l; [exact Hc |].
  rewrite <- pow2_plus. replace (e - c + c)%Z with e by lia. exact H.
Qed.

Lemma pow2_Z (k : Z) : (0 <= k)%Z -> inject_Z (2 ^ k) == 2 ^ k.
Proof. intros H. rewrite Zpower_Qpower by exact H. reflexivity. Qed.

(** Rounding keeps the order. *)
Lemma round_mono (x y : Q) : 0 <= x -> x <= y -> round x <= round y.
Proof.
  intros Hx Hxy.
  destruct (Qeq_dec x 0) as [H0 | H0].
  { rewrite (round_zero x H0). apply round_nonneg. lra. }
  assert (Hx' : 0 < x).
  { destruct (Qlt_le_dec 0 x) as [H | H]; [exact H |]. exfalso. apply H0. lra. }
  assert (Hy' : 0 < y) by lra.
  assert (Hy0 : ~ y == 0) by lra.
  rewrite (round_value x H0), (round_value y Hy0).
  pose proof (ilog2_mono x y Hx' Hxy) as He.
  destruct (ilog2_spec x Hx') as [_ Xhi].
  destruct (ilog2_spec y Hy') as [Ylo _].
  rewrite (ulpExponent_pos x Hx'), (ulpExponent_pos y Hy').
  set (ex := ilog2 x) in *. set (ey := ilog2 y) in *.
  set (cx := Z.max (ex - 52) (-1074)). set (cy := Z.max (ey - 52) (-1074)).
  pose proof (pow2_pos cx) as Pcx. pose proof (pow2_pos cy) as Pcy.
  destruct (Z.eq_dec cx cy) as [E | NE].
  - rewrite E.
    assert (Hm : x / 2 ^ cy <= y / 2 ^ cy).
    { apply Qle_shift_div_l; [exact Pcy |].
      setoid_replace (x / 2 ^ cy * 2 ^ cy) with x by (field; lra).
      exact Hxy. }
    pose proof (nearestEven_mono _ _ Hm) as Hn. rewrite Zle_Qle in Hn.
    revert Pcy Hn. generalize (2 ^ cy).
    generalize (inject_Z (nearestEven (x / 2 ^ cy))).
    generalize (inject_Z (nearestEven (y / 2 ^ cy))).
    intros a b P HP Hab. nra.
  - assert (Hc : (cx < cy)%Z) by lia.
    assert (Hcy : cy = (ey - 52)%Z) by lia.
    apply Qle_trans with (2 ^ ey).
    + assert (Hm : x / 2 ^ cx <= inject_Z (2 ^ 53)).
      { rewrite pow2_Z by lia. apply Qlt_le_weak.
        apply Qlt_le_trans with (2 ^ (ex + 1 - cx)).
        - apply scaled_lt, Xhi.
        - apply pow2_le. lia. }
      pose proof (nearestEven_le _ _ Hm) as Hn. rewrite Zle_Qle in Hn.
      rewrite pow2_Z in Hn by lia.
      apply Qle_trans with (2 ^ 53 * 2 ^ cx).
      * apply Qmult_le_compat_r; [exact Hn | lra].
      * rewrite <- pow2_plus. apply pow2_le. lia.
    + assert (Hm : inject_Z (2 ^ 52) <= y / 2 ^ cy).
      { rewrite pow2_Z by lia.
        apply Qle_trans with (2 ^ (ey - cy)).
        - apply pow2_le. lia.
        - apply scaled_ge, Ylo. }
      pose proof (nearestEven_ge _ _ Hm) as Hn. rewrite Zle_Qle in Hn.
      rewrite pow2_Z in Hn by lia.
      apply Qle_trans with (2 ^ 52 * 2 ^ cy).
      * rewrite <- pow2_plus. apply pow2_le. lia.
      * apply Qmult_le_compat_r; [exact Hn | lra].
Qed.

(** The absolute error below a power of two. *)
Lemma round_near (x : Q) (k : Z) :
  0 <= x -> x <= 2 ^ k -> (-1022 <= k)%Z ->
  Qabs (round x - x) <= 2 ^ (k - 53).
Proof.
  intros Hx Hk Hmin.
  destruct (Qeq_dec x 0) as [H0 | H0].
  { rewrite (round_zero x H0). pose proof (pow2_pos (k - 53)) as P.
    apply Qabs_Qle_condition. split; lra. }
  assert (Hx' : 0 < x).
  { destruct (Qlt_le_dec 0 x) as [H | H]; [exact H |]. exfalso. apply H0. lra. }
  apply Qle_trans with (2 ^ ulpExponent x * (1 # 2)); [apply round_error |].
  rewrite <- pow2_pred. apply pow2_le.
  rewrite (ulpExponent_pos x Hx').
  destruct (ilog2_spec x Hx') as [Xlo _].
  assert (He : (ilog2 x <= k)%Z).
  { apply (Qpower_le_compat_l_inv 2); [| reflexivity]. lra. }
  lia.
Qed.

(** Integers below [2^53] are doubles. *)
Lemma round_int (k : Z) :
  (0 <= k < 2 ^ 53)%Z -> round (inject_Z k) == inject_Z k.
Proof.
  intros [Hlo Hhi].
  destruct (Z.eq_dec k 0) as [-> | Hk]; [reflexivity |].
  assert (Hx : 0 < inject_Z k).
  { change 0 with (inject_Z 0). rewrite <- Zlt_Qlt. lia. }
  assert (Hx0 : ~ inject_Z k == 0) by lra.
  rewrite (round_value _ Hx0), (ulpExponent_pos _ Hx).
  destruct (ilog2_spec _ Hx) as [Xlo _].
  assert (He : (ilog2 (inject_Z k) < 53)%Z).
  { apply (Qpower_lt_compat_l_inv 2); [| reflexivity].
    apply Qle_lt_trans with (inject_Z k); [exact Xlo |].
    rewrite <- pow2_Z by lia. rewrite <- Zlt_Qlt. exact Hhi. }
  set (c := Z.max (ilog2 (inject_Z k) - 52) (-1074)).
  assert (Hc : (c <= 0)%Z) by lia.
  pose proof (pow2_pos c) as Pc.
  assert (Hinv : 2 ^ c * inject_Z (2 ^ (- c)) == 1).
  { rewrite pow2_Z by lia. rewrite <- pow2_plus.
    replace (c + - c)%Z with 0%Z by lia. reflexivity. }
  assert (Hm : inject_Z k / 2 ^ c == inject_Z (k * 2 ^ (- c))).
  { rewrite inject_Z_mult, <- (Qmult_1_r (inject_Z k / 2 ^ c)), <- Hinv.
    field. lra. }
  rewrite (nearestEven_comp _ _ Hm), nearestEven_Z, inject_Z_mult.
  rewrite <- Qmult_assoc, (Qmult_comm (inject_Z (2 ^ (- c)))), Hinv. ring.
Qed.

(** Below 2048 nothing overflows. *)
Lemma fl_Fin (x : Q) : 0 <= x -> x <= 2048 -> fl x = Fin (round x).
Proof.
  intros Hlo Hhi. unfold fl.
  pose proof (round_nonneg x Hlo) as Hr.
  pose proof (round_mono x 2048 Hlo Hhi) as Hm.
  assert (E : round 2048 = 2048) by (vm_compute; reflexivity).
  rewrite E in Hm.
  destruct (Qle_bool (2 ^ 1024) (Qabs (round x))) eqn:Hover; [| reflexivity].
  apply Qle_bool_iff in Hover. rewrite Qabs_pos in Hover by exact Hr.
  assert (Hbig : 2048 < 2 ^ 1024) by (vm_compute; reflexivity).
  lra.
Qed.

Lemma sub_Fin (a b : Q) :
  0 <= a - b -> a - b <= 2048 ->
  Double.sub (Fin a) (Fin b) = Fin (round (a + - b)).
Proof. intros H1 H2. apply fl_Fin; lra. Qed.

Lemma add_Fin (a b : Q) :
  0 <= a + b -> a + b <= 2048 ->
  Double.add (Fin a) (Fin b) = Fin (round (a + b)).
Proof. intros H1 H2. apply fl_Fin; lra. Qed.

Lemma mul_Fin (a b : Q) :
  0 <= a * b -> a * b <= 2048 ->
  Double.mul (Fin a) (Fin b) = Fin (round (a * b)).
Proof. intros H1 H2. apply fl_Fin; lra. Qed.

Lemma div_Fin (a b : Q) :
  0 < b -> 0 <= a / b -> a / b <= 2048 ->
  Double.div (Fin a) (Fin b) = Fin (round (a / b)).
Proof.
  intros Hb H1 H2. unfold Double.div, JSNumber.div, sgn.
  destruct (Qcompare_spec b 0) as [H | H | H]; try lra;
    apply fl_Fin; assumption.
Qed.

(** A quotient of a part by the whole. *)
Lemma ratio_unit (a b : Q) : 0 <= a -> a <= b -> 0 < b -> 0 <= a / b <= 1.
Proof.
  intros Ha Hab Hb. split.
  - apply Qle_shift_div_l; lra.
  - apply Qle_shift_div_r; lra.
Qed.

Lemma round_one : round 1 = 1.
Proof. vm_compute. reflexivity. Qed.

Lemma round_le (x b : Q) : 0 <= x -> x <= b -> round b == b -> round x <= b.
Proof. intros Hx Hb E. rewrite <- E. apply round_mono; assumption. Qed.

End DoubleFacts.

(* ================================================================== *)
(** * The background color (backgroundTransition.js) *)
(* ================================================================== *)

Module BackgroundTransitionSpec.
Import JSNumber JSNumberFacts Double DoubleFacts BackgroundTransition.
Local Open Scope num_scope.

(** The literal [0.4] as a double. *)
Lemma middle_stop :
  Double.literal 0.4 = (3602879701896397 # 9007199254740992)%Q.
Proof. vm_compute. reflexivity. Qed.

Lemma stops_are :
  stops = [ Fin 0; Fin (3602879701896397 # 9007199254740992); Fin 1 ].
Proof. unfold stops. cbn [colorStops BACKGROUND_CONFIG]. rewrite middle_stop. reflexivity. Qed.

Lemma ge_true (a b : Q) : (b <= a)%Q -> (Fin a >=? Fin b) = true.
Proof. apply ge_Fin. Qed.

Lemma le_true (a b : Q) : (a <= b)%Q -> (Fin a <=? Fin b) = true.
Proof. apply le_Fin. Qed.

Lemma le_false (a b : Q) : (b < a)%Q -> (Fin a <=? Fin b) = false.
Proof.
  intros H. destruct (Fin a <=? Fin b) eqn:E; [| reflexivity].
  apply le_Fin in E. lra.
Qed.

Lemma segment_low (p : Q) :
  (0 <= p)%Q -> (p <= 3602879701896397 # 9007199254740992)%Q ->
  findSegment stops (Fin p) [0; 1]%nat = 0%nat.
Proof.
  intros H0 H1. rewrite stops_are. cbn [findSegment stopAt nth Nat.add].
  rewrite (ge_true p 0 H0), (le_true p _ H1). reflexivity.
Qed.

Lemma segment_high (p : Q) :
  (3602879701896397 # 9007199254740992 < p)%Q -> (p <= 1)%Q ->
  findSegment stops (Fin p) [0; 1]%nat = 1%nat.
Proof.
  intros H0 H1. rewrite stops_are. cbn [findSegment stopAt nth Nat.add].
  rewrite (le_false p _ H0), andb_false_r.
  rewrite (ge_true p _), (le_true p 1 H1) by lra. reflexivity.
Qed.

(** The color computed from a clamped progress that is a finite number. *)
Lemma interpolatedColor_clamped (x : num) (p : Q) :
  Math_max (Fin 0) (Math_min (Fin 1) x) = Fin p ->
  interpolatedColor x
  = let i := findSegment stops (Fin p) [0; 1]%nat in
    interpolateColor (colorAt palette i) (colorAt palette (i + 1))
      (Double.div (Double.sub (Fin p) (stopAt stops i))
         (Double.sub (stopAt stops (i + 1)) (stopAt stops i))).
Proof.
  intros Hp. unfold interpolatedColor. rewrite Hp. reflexivity.
Qed.

(** ** The position in the interval *)

Lemma segmentProgress_Fin (s e p : Q) :
  (0 <= s)%Q -> (s <= p)%Q -> (p <= e)%Q -> (e <= 1)%Q -> (s < e)%Q ->
  (round (e + - s) == e + - s)%Q ->
  Double.div (Double.sub (Fin p) (Fin s)) (Double.sub (Fin e) (Fin s))
  = Fin (segmentProgressOf s e p)
  /\ (0 <= segmentProgressOf s e p)%Q /\ (segmentProgressOf s e p <= 1)%Q.
Proof.
  intros Hs Hsp Hpe He Hse Hexact.
  rewrite !sub_Fin by lra.
  pose proof (round_nonneg (p + - s) ltac:(lra)) as H1.
  pose proof (round_mono (p + - s) (e + - s) ltac:(lra) ltac:(lra)) as H2.
  assert (H3 : (0 < round (e + - s))%Q) by lra.
  destruct (ratio_unit _ _ H1 H2 H3) as [R0 R1].
  rewrite div_Fin by (try assumption; lra).
  split; [reflexivity |]. unfold segmentProgressOf. split.
  - apply round_nonneg, R0.
  - apply round_le; [exact R0 | exact R1 | rewrite round_one; reflexivity].
Qed.

Lemma segmentProgress_mono (s e p q : Q) :
  (s <= p)%Q -> (p <= q)%Q -> (s < e)%Q ->
  (round (e + - s) == e + - s)%Q ->
  (segmentProgressOf s e p <= segmentProgressOf s e q)%Q.
Proof.
  intros Hsp Hpq Hse Hexact. unfold segmentProgressOf.
  pose proof (round_nonneg (p + - s) ltac:(lra)) as H1.
  pose proof (round_mono (p + - s) (q + - s) ltac:(lra) ltac:(lra)) as H2.
  assert (H3 : (0 < round (e + - s))%Q) by lra.
  apply round_mono.
  - apply Qle_shift_div_l; lra.
  - apply Qle_shift_div_l; [exact H3 |].
    setoid_replace (round (p + - s) / round (e + - s) * round (e + - s))%Q
      with (round (p + - s)) by (field; lra).
    exact H2.
Qed.

(** ** A channel *)

Lemma channelOf_bounds (a b f : Q) :
  (0 <= a)%Q -> (a <= b)%Q -> (b <= 255)%Q ->
  (round a == a)%Q -> (round b == b)%Q -> (round (b + - a) == b + - a)%Q ->
  (0 <= f)%Q -> (f <= 1)%Q ->
  lerp (Fin a) (Fin b) (Fin f) = Fin (channelOf a b f)
  /\ (a <= channelOf a b f)%Q /\ (channelOf a b f <= b)%Q.
Proof.
  intros Ha Hab Hb Ea Eb Ed Hf0 Hf1. unfold lerp, channelOf.
  rewrite sub_Fin by lra.
  assert (Hd : (0 <= round (b + - a) * f <= b + - a)%Q).
  { rewrite Ed. split; nra. }
  rewrite mul_Fin by lra.
  pose proof (round_nonneg _ (proj1 Hd)) as G0.
  pose proof (round_le _ _ (proj1 Hd) (proj2 Hd) Ed) as G1.
  rewrite add_Fin by lra.
  split; [reflexivity |]. split.
  - rewrite <- Ea at 1. apply round_mono; lra.
  - apply round_le; [lra | lra | exact Eb].
Qed.

Lemma channelOf_mono (a b f f' : Q) :
  (0 <= a)%Q -> (a <= b)%Q ->
  (round (b + - a) == b + - a)%Q ->
  (0 <= f)%Q -> (f <= f')%Q ->
  (channelOf a b f <= channelOf a b f')%Q.
Proof.
  intros Ha Hab Ed Hf Hff. unfold channelOf.
  assert (H0 : (0 <= round (b + - a) * f)%Q) by (rewrite Ed; nra).
  assert (H1 : (round (b + - a) * f <= round (b + - a) * f')%Q)
    by (rewrite Ed; nra).
  pose proof (round_nonneg _ H0) as G0.
  pose proof (round_mono _ _ H0 H1) as G1.
  apply round_mono; lra.
Qed.

(** ** How far the rounded blend is from the exact one *)

Lemma abs_le (x y : Q) : (- y <= x)%Q -> (x <= y)%Q -> (Qabs x <= y)%Q.
Proof. intros H1 H2. apply Qabs_Qle_condition. split; assumption. Qed.

Lemma abs_bounds (x y : Q) : (Qabs x <= y)%Q -> (- y <= x)%Q /\ (x <= y)%Q.
Proof. intros H. apply Qabs_Qle_condition in H. exact H. Qed.

Lemma segmentProgress_error (s e p : Q) :
  (0 <= s)%Q -> (s <= p)%Q -> (p <= e)%Q -> (e <= 1)%Q ->
  (2 # 5 <= e - s)%Q -> (round (e + - s) == e + - s)%Q ->
  (Qabs (segmentProgressOf s e p - (p - s) / (e - s))
   <= 1 # 2251799813685248)%Q.
Proof.
  intros Hs Hsp Hpe He Hwide Hexact. unfold segmentProgressOf.
  pose proof (round_nonneg (p + - s) ltac:(lra)) as H1.
  pose proof (round_mono (p + - s) (e + - s) ltac:(lra) ltac:(lra)) as H2.
  assert (H3 : (0 < round (e + - s))%Q) by lra.
  destruct (ratio_unit _ _ H1 H2 H3) as [R0 R1].
  pose proof (round_near (p + - s) 0 ltac:(lra)
                ltac:(change (2 ^ 0)%Q with 1%Q; lra) ltac:(lia)) as E1.
  pose proof (round_near _ 0 R0
                ltac:(change (2 ^ 0)%Q with 1%Q; exact R1) ltac:(lia)) as E2.
  change (2 ^ (0 - 53))%Q with (1 # 9007199254740992)%Q in E1, E2.
  apply abs_bounds in E1. apply abs_bounds in E2.
  destruct E1 as [E1a E1b]. destruct E2 as [E2a E2b].
  set (d1 := round (p + - s)) in *.
  assert (Hq : (d1 / round (e + - s) == d1 / (e - s))%Q).
  { rewrite Hexact. reflexivity. }
  set (f := round (d1 / round (e + - s))) in *.
  set (q1 := (d1 / round (e + - s))%Q) in *.
  set (t := ((p - s) / (e - s))%Q).
  assert (Hq1 : (q1 * (e - s) == d1)%Q) by (rewrite Hq; field; lra).
  assert (Ht : (t * (e - s) == p - s)%Q) by (unfold t; field; lra).
  assert (Hdiff : (- (5 # 18014398509481984) <= q1 - t
                   /\ q1 - t <= 5 # 18014398509481984)%Q).
  { split; nra. }
  apply abs_le; lra.
Qed.

Lemma channelOf_error (a b f t : Q) :
  (0 <= a)%Q -> (a <= b)%Q -> (b <= 255)%Q ->
  (round (b + - a) == b + - a)%Q ->
  (0 <= f)%Q -> (f <= 1)%Q ->
  (Qabs (f - t) <= 1 # 2251799813685248)%Q ->
  (Qabs (channelOf a b f - exactBlend a b t) <= 1 # 4398046511104)%Q.
Proof.
  intros Ha Hab Hb Ed Hf0 Hf1 Hft. unfold channelOf, exactBlend.
  assert (Hd : (0 <= round (b + - a) * f <= b + - a)%Q).
  { rewrite Ed. split; nra. }
  pose proof (round_nonneg _ (proj1 Hd)) as G0.
  pose proof (round_le _ _ (proj1 Hd) (proj2 Hd) Ed) as G1.
  assert (P8 : (2 ^ 8 == 256)%Q) by reflexivity.
  pose proof (round_near (round (b + - a) * f) 8 (proj1 Hd)
                ltac:(rewrite P8; lra) ltac:(lia)) as E1.
  pose proof (round_near (a + round (round (b + - a) * f)) 8 ltac:(lra)
                ltac:(rewrite P8; lra) ltac:(lia)) as E2.
  change (2 ^ (8 - 53))%Q with (1 # 35184372088832)%Q in E1, E2.
  apply abs_bounds in E1. apply abs_bounds in E2. apply abs_bounds in Hft.
  destruct E1 as [E1a E1b]. destruct E2 as [E2a E2b].
  destruct Hft as [Fa Fb].
  set (g := round (round (b + - a) * f)) in *.
  set (v := round (a + g)) in *.
  assert (Hprod : (round (b + - a) * f == (b - a) * f)%Q)
    by (rewrite Ed; ring).
  rewrite Hprod in E1a, E1b.
  apply abs_le; nra.
Qed.

(** A channel of the color: the integer that [Math.round] makes of the
    rounded blend, at most [1/2 + 2^-42] away from the exact blend. *)
Lemma channel_rounded (a b : Z) (s e p : Q) :
  (0 <= a)%Z -> (a <= b)%Z -> (b <= 255)%Z ->
  (0 <= s)%Q -> (s <= p)%Q -> (p <= e)%Q -> (e <= 1)%Q ->
  (2 # 5 <= e - s)%Q -> (round (e + - s) == e + - s)%Q ->
  exists z,
    Math_round (lerp (Fin (inject_Z a)) (Fin (inject_Z b))
                  (Fin (segmentProgressOf s e p)))
    = Fin (inject_Z z)
    /\ (Qabs (inject_Z z
              - exactBlend (inject_Z a) (inject_Z b) ((p - s) / (e - s)))
        <= (1 # 2) + 2 ^ (-42))%Q.
Proof.
  intros Ha Hab Hb Hs Hsp Hpe He Hwide Hexact.
  assert (Qa : (0 <= inject_Z a)%Q)
    by (change 0%Q with (inject_Z 0); rewrite <- Zle_Qle; exact Ha).
  assert (Qab : (inject_Z a <= inject_Z b)%Q) by (rewrite <- Zle_Qle; exact Hab).
  assert (Qb : (inject_Z b <= 255)%Q)
    by (change 255%Q with (inject_Z 255); rewrite <- Zle_Qle; exact Hb).
  assert (Ea : (round (inject_Z a) == inject_Z a)%Q) by (apply round_int; lia).
  assert (Eb : (round (inject_Z b) == inject_Z b)%Q) by (apply round_int; lia).
  assert (Ed : (round (inject_Z b + - inject_Z a) == inject_Z b + - inject_Z a)%Q).
  { assert (E : (inject_Z b + - inject_Z a == inject_Z (b - a))%Q).
    { unfold Z.sub. rewrite inject_Z_plus, inject_Z_opp. reflexivity. }
    rewrite (round_comp _ _ E), E. apply round_int. lia. }
  destruct (segmentProgress_Fin s e p Hs Hsp Hpe He ltac:(lra) Hexact)
    as [_ [F0 F1]].
  pose proof (segmentProgress_error s e p Hs Hsp Hpe He Hwide Hexact) as Hf.
  destruct (channelOf_bounds _ _ _ Qa Qab Qb Ea Eb Ed F0 F1) as [-> _].
  pose proof (channelOf_error _ _ _ _ Qa Qab Qb Ed F0 F1 Hf) as Hv.
  cbn [Math_round]. eexists. split; [reflexivity |].
  change (2 ^ (-42))%Q with (1 # 4398046511104)%Q.
  set (v := channelOf (inject_Z a) (inject_Z b) (segmentProgressOf s e p))
    in *.
  pose proof (Qfloor_le (v + (1 # 2))) as L1.
  pose proof (Qlt_floor (v + (1 # 2))) as L2.
  rewrite inject_Z_plus in L2. change (inject_Z 1) with 1%Q in L2.
  apply abs_bounds in Hv. destruct Hv as [V1 V2].
  apply abs_le; lra.
Qed.

(** ** The two intervals *)

Lemma first_interval_exact :
  (round ((3602879701896397 # 9007199254740992) + - 0)
   == (3602879701896397 # 9007199254740992) + - 0)%Q.
Proof. vm_compute. reflexivity. Qed.

Lemma second_interval_exact :
  (round (1 + - (3602879701896397 # 9007199254740992))
   == 1 + - (3602879701896397 # 9007199254740992))%Q.
Proof. vm_compute. reflexivity. Qed.

(** The color in the interval [i], for a progress [p] in it. *)
Lemma color_in_interval (x : num) (p : Q) (i : nat) (s e : Q) :
  Math_max (Fin 0) (Math_min (Fin 1) x) = Fin p ->
  findSegment stops (Fin p) [0; 1]%nat = i ->
  stopAt stops i = Fin s -> stopAt stops (i + 1) = Fin e ->
  (0 <= s)%Q -> (s <= p)%Q -> (p <= e)%Q -> (e <= 1)%Q -> (s < e)%Q ->
  (round (e + - s) == e + - s)%Q ->
  interpolatedColor x
  = interpolateColor (colorAt palette i) (colorAt palette (i + 1))
      (Fin (segmentProgressOf s e p)).
Proof.
  intros Hp Hi Hs He H0 H1 H2 H3 H4 Hexact.
  rewrite (interpolatedColor_clamped x p Hp). cbv zeta.
  rewrite Hi, Hs, He.
  destruct (segmentProgress_Fin s e p H0 H1 H2 H3 H4 Hexact) as [-> _].
  reflexivity.
Qed.

Lemma color_low (x : num) (p : Q) :
  Math_max (Fin 0) (Math_min (Fin 1) x) = Fin p ->
  (0 <= p)%Q -> (p <= 3602879701896397 # 9007199254740992)%Q ->
  interpolatedColor x
  = interpolateColor (colorAt palette 0) (colorAt palette 1)
      (Fin (segmentProgressOf 0 (3602879701896397 # 9007199254740992) p)).
Proof.
  intros Hp H0 H1.
  apply (color_in_interval x p 0 0 (3602879701896397 # 9007199254740992) Hp);
    try lra.
  - apply segment_low; assumption.
  - rewrite stops_are. reflexivity.
  - rewrite stops_are. reflexivity.
  - exact first_interval_exact.
Qed.

Lemma color_high (x : num) (p : Q) :
  Math_max (Fin 0) (Math_min (Fin 1) x) = Fin p ->
  (3602879701896397 # 9007199254740992 < p)%Q -> (p <= 1)%Q ->
  interpolatedColor x
  = interpolateColor (colorAt palette 1) (colorAt palette 2)
      (Fin (segmentProgressOf (3602879701896397 # 9007199254740992) 1 p)).
Proof.
  intros Hp H0 H1.
  apply (color_in_interval x p 1 (3602879701896397 # 9007199254740992) 1 Hp);
    try lra.
  - apply segment_high; assumption.
  - rewrite stops_are. reflexivity.
  - rewrite stops_are. reflexivity.
  - exact second_interval_exact.
Qed.

(** ** Printing *)

Lemma numberToString_integer (fractionToString : Q -> string) (z : Z) :
  numberToString fractionToString (Fin (inject_Z z)) = decimal z.
Proof.
  unfold numberToString, decimal. rewrite Qfloor_Z.
  rewrite (proj2 (Qeq_bool_iff _ _) (Qeq_refl (inject_Z z))). reflexivity.
Qed.

(** ** At the stops *)

(** A progress equal to a stop gives the color of that stop, whatever
    fraction represents the progress. *)
Lemma stop_color (k : nat) (s q : Q) :
  nth_error stops k = Some (Fin s) -> (q == s)%Q ->
  interpolatedColor (Fin q) = colorAt palette k.
Proof.
  intros Hk Hq. rewrite stops_are in Hk.
  destruct k as [| [| [| k]]]; cbn [nth_error] in Hk; try discriminate;
    [| | | destruct k; discriminate]; injection Hk as <-.
  - assert (Hc : Math_max (Fin 0) (Math_min (Fin 1) (Fin q)) = Fin 0).
    { unfold Math_min, Math_max, cmp.
      destruct (Qcompare_spec 1 q); try lra.
      destruct (Qcompare_spec 0 q); try lra. reflexivity. }
    rewrite (interpolatedColor_clamped _ _ Hc). vm_compute. reflexivity.
  - assert (Hc : Math_max (Fin 0) (Math_min (Fin 1) (Fin q)) = Fin q)
      by (apply clamp_id; lra).
    rewrite (color_low _ q Hc) by lra.
    unfold segmentProgressOf.
    rewrite (round_comp (q + - 0)
               ((3602879701896397 # 9007199254740992) + - 0))
      by (rewrite Hq; reflexivity).
    vm_compute. reflexivity.
  - assert (Hc : Math_max (Fin 0) (Math_min (Fin 1) (Fin q)) = Fin 1).
    { unfold Math_min, Math_max, cmp.
      destruct (Qcompare_spec 1 q); try lra. reflexivity. }
    rewrite (interpolatedColor_clamped _ _ Hc). vm_compute. reflexivity.
Qed.

(** ** The blend *)

(** C4, as amended.  For every scroll progress other than [NaN] the
    progress is clamped into [0,1] and lies in an interval of the stops
    0, 0.4 (the double of that literal) and 1.  Each channel of the color
    returned is an integer at most [1/2 + 2^-42] away from the linear
    blend, at the position of the progress in that interval, of the same
    channel of the two colors that bound the interval: the blend itself
    is computed with every operation rounded to a double and then made an
    integer by [Math.round].  The string returned prints these three
    integers.  A progress equal to a stop yields exactly the color
    configured for that stop; progress 0.4 yields "rgb(15, 0, 107)". *)
Theorem calculateBackgroundColor_blend (scrollProgress : num) :
  isNaN scrollProgress = false ->
  (exists p i s e zr zg zb,
     Math_max (Fin 0) (Math_min (Fin 1) scrollProgress) = Fin p
     /\ (0 <= p <= 1)%Q
     /\ (i < 2)%nat
     /\ nth_error stops i = Some (Fin s)
     /\ nth_error stops (i + 1) = Some (Fin e)
     /\ (s <= p <= e)%Q
     /\ interpolatedColor scrollProgress
        = {| r := Fin (inject_Z zr); g := Fin (inject_Z zg);
             b := Fin (inject_Z zb) |}
     /\ (let t := ((p - s) / (e - s))%Q in
         let c := colorAt palette i in
         let d := colorAt palette (i + 1) in
         (Qabs (inject_Z zr
                - exactBlend (valueOf (r c)) (valueOf (r d)) t)
          <= (1 # 2) + 2 ^ (-42))%Q
         /\ (Qabs (inject_Z zg
                   - exactBlend (valueOf (g c)) (valueOf (g d)) t)
             <= (1 # 2) + 2 ^ (-42))%Q
         /\ (Qabs (inject_Z zb
                   - exactBlend (valueOf (b c)) (valueOf (b d)) t)
             <= (1 # 2) + 2 ^ (-42))%Q)
     /\ forall fractionToString,
          calculateBackgroundColor fractionToString scrollProgress
          = "rgb(" ++ decimal zr ++ ", " ++ decimal zg ++ ", "
                   ++ decimal zb ++ ")")
  /\ stops = [ Fin 0; Fin (3602879701896397 # 9007199254740992); Fin 1 ]
  /\ (forall k s q, nth_error stops k = Some (Fin s) -> (q == s)%Q ->
        interpolatedColor (Fin q) = colorAt palette k)
  /\ forall fractionToString,
       calculateBackgroundColor fractionToString (Fin (Double.literal 0.4))
       = "rgb(15, 0, 107)"
       /\ calculateBackgroundColor fractionToString (Fin 0.4)
          = "rgb(15, 0, 107)".
Proof.
  intros Hx. split; [| split; [exact stops_are | split; [exact stop_color |]]].
  - destruct (clamp_within 0 1 scrollProgress) as [p [Hp Hb]];
      [lra | exact Hx |].
    exists p.
    destruct (Qlt_le_dec (3602879701896397 # 9007199254740992) p)
      as [Hhigh | Hlow].
    + destruct (channel_rounded 15 62 (3602879701896397 # 9007199254740992)
                  1 p) as [zr [Hr Er]];
        try lia; try lra; try exact second_interval_exact.
      destruct (channel_rounded 0 116 (3602879701896397 # 9007199254740992)
                  1 p) as [zg [Hg Eg]];
        try lia; try lra; try exact second_interval_exact.
      destruct (channel_rounded 107 255 (3602879701896397 # 9007199254740992)
                  1 p) as [zb [Hb' Eb]];
        try lia; try lra; try exact second_interval_exact.
      assert (Hcolor : interpolatedColor scrollProgress
                       = {| r := Fin (inject_Z zr); g := Fin (inject_Z zg);
                            b := Fin (inject_Z zb) |}).
      { rewrite (color_high _ p Hp Hhigh) by lra.
        unfold interpolateColor.
        cbn [colorAt palette colors BACKGROUND_CONFIG nth r g b].
        change (Fin 15) with (Fin (inject_Z 15)) at 1.
        change (Fin 62) with (Fin (inject_Z 62)).
        change (Fin 0) with (Fin (inject_Z 0)).
        change (Fin 116) with (Fin (inject_Z 116)).
        change (Fin 107) with (Fin (inject_Z 107)).
        change (Fin 255) with (Fin (inject_Z 255)).
        rewrite Hr, Hg, Hb'. reflexivity. }
      exists 1%nat, (3602879701896397 # 9007199254740992)%Q, 1%Q, zr, zg, zb.
      split; [exact Hp |]. split; [exact Hb |]. split; [lia |].
      split; [rewrite stops_are; reflexivity |].
      split; [rewrite stops_are; reflexivity |].
      split; [lra |]. split; [exact Hcolor |].
      split; [split; [exact Er | split; [exact Eg | exact Eb]] |].
      intros f. unfold calculateBackgroundColor. rewrite Hcolor.
      unfold rgbToString. cbn [r g b].
      rewrite !numberToString_integer. reflexivity.
    + destruct (channel_rounded 0 15 0 (3602879701896397 # 9007199254740992)
                  p) as [zr [Hr Er]];
        try lia; try lra; try exact first_interval_exact.
      destruct (channel_rounded 0 0 0 (3602879701896397 # 9007199254740992)
                  p) as [zg [Hg Eg]];
        try lia; try lra; try exact first_interval_exact.
      destruct (channel_rounded 0 107 0 (3602879701896397 # 9007199254740992)
                  p) as [zb [Hb' Eb]];
        try lia; try lra; try exact first_interval_exact.
      assert (Hcolor : interpolatedColor scrollProgress
                       = {| r := Fin (inject_Z zr); g := Fin (inject_Z zg);
                            b := Fin (inject_Z zb) |}).
      { rewrite (color_low _ p Hp) by lra.
        unfold interpolateColor.
        cbn [colorAt palette colors BACKGROUND_CONFIG nth r g b].
        change (Fin 15) with (Fin (inject_Z 15)).
        change (Fin 0) with (Fin (inject_Z 0)).
        change (Fin 107) with (Fin (inject_Z 107)).
        rewrite Hr, Hg, Hb'. reflexivity. }
      exists 0%nat, 0%Q, (3602879701896397 # 9007199254740992)%Q, zr, zg, zb.
      split; [exact Hp |]. split; [exact Hb |]. split; [lia |].
      split; [rewrite stops_are; reflexivity |].
      split; [rewrite stops_are; reflexivity |].
      split; [lra |]. split; [exact Hcolor |].
      split; [split; [exact Er | split; [exact Eg | exact Eb]] |].
      intros f. unfold calculateBackgroundColor. rewrite Hcolor.
      unfold rgbToString. cbn [r g b].
      rewrite !numberToString_integer. reflexivity.
  - intros f. split; vm_compute; reflexivity.
Qed.

(** C4, as stated, fails on [NaN]: nothing is clamped, no interval holds
    the progress, and the string returned is not a color. *)
Lemma calculateBackgroundColor_NaN :
  ~ within 0 1 (Math_max (Fin 0) (Math_min (Fin 1) NaN))
  /\ interpolatedColor NaN = {| r := NaN; g := NaN; b := NaN |}
  /\ calculateBackgroundColor (fun _ => EmptyString) NaN
     = "rgb(NaN, NaN, NaN)".
Proof.
  split; [| split; vm_compute; reflexivity].
  intros [q [H _]]. discriminate H.
Qed.

(** ** On example inputs *)

Example color_at_half_of_first_interval :
  calculateBackgroundColor (fun _ => EmptyString) (Fin (Double.literal 0.2))
  = "rgb(8, 0, 54)".
Proof. vm_compute. reflexivity. Qed.

(** Where the rounding of the operations decides: the exact blend of the
    red channel is 1.5 at a progress of 0.04 (up to the distance of 0.04
    and 0.4 from their doubles), the rounded one is just below. *)
Example color_where_rounding_decides :
  calculateBackgroundColor (fun _ => EmptyString) (Fin (Double.literal 0.04))
  = "rgb(1, 0, 11)"
  /\ calculateBackgroundColor (fun _ => EmptyString)
       (Fin (Double.literal 0.12))
     = "rgb(5, 0, 32)".
Proof. split; vm_compute; reflexivity. Qed.

Example color_beyond_the_end :
  calculateBackgroundColor (fun _ => EmptyString) (Fin 5) = "rgb(62, 116, 255)".
Proof. vm_compute. reflexivity. Qed.

Lemma calculateBackgroundColor_blend_witness :
  isNaN (Fin 5) = false
  /\ exists p, Math_max (Fin 0) (Math_min (Fin 1) (Fin 5)) = Fin p
               /\ (0 <= p <= 1)%Q.
Proof.
  split; [reflexivity |].
  destruct (calculateBackgroundColor_blend (Fin 5) eq_refl)
    as [[p [i [s [e [zr [zg [zb [Hp [Hb _]]]]]]]]] _].
  exists p. split; assumption.
Defined.

End BackgroundTransitionSpec.

(* ================================================================== *)
(** * The links of a panel (panelAnimations.js) *)
(* ================================================================== *)

Module PanelAnimationsSpec.
Import JSNumber JSNumberFacts Browser PanelAnimations.
Local Open Scope num_scope.

(** A panel that is fully visible is not off screen. *)
Lemma fullyVisible_not_offScreen (rect : DOMRect) (viewportHeight : num) :
  isFullyVisible (calculatePanelAnimation rect viewportHeight) = true ->
  isOffScreen (calculatePanelAnimation rect viewportHeight) = false.
Proof.
  unfold calculatePanelAnimation. cbn [isFullyVisible isOffScreen].
  intros H. apply andb_true_iff in H. destruct H as [H _].
  apply andb_true_iff in H. destruct H as [Hb Ht].
  apply orb_false_iff. split.
  - unfold lt in Ht. unfold gt.
    destruct (cmp (Fin (top rect)) viewportHeight) as [[| |] |];
      try discriminate; reflexivity.
  - unfold gt in Hb. unfold lt.
    destruct (cmp (Fin (bottom rect))
                (Fin (visibilityThreshold PANEL_ANIMATION_CONFIG)))
      as [[| |] |] eqn:E; try discriminate.
    change (resetThreshold PANEL_ANIMATION_CONFIG)
      with (visibilityThreshold PANEL_ANIMATION_CONFIG).
    rewrite E. reflexivity.
Qed.

(** The opacity and the divider leave the flag and the links alone. *)
Lemma updatePanel_links (viewportHeight : num) (rect : DOMRect) (p : Panel) :
  exists p',
    linksAnimated p' = linksAnimated p /\ links p' = links p
    /\ updatePanel viewportHeight rect p
       = updatePanelLinks p'
           (isFullyVisible (calculatePanelAnimation rect viewportHeight))
           (isOffScreen (calculatePanelAnimation rect viewportHeight)).
Proof.
  unfold updatePanel. eexists. split; [| split; [| reflexivity]].
  - unfold updatePanelDivider, updatePanelOpacity. simpl.
    destruct (dividerWidth p); reflexivity.
  - unfold updatePanelDivider, updatePanelOpacity. simpl.
    destruct (dividerWidth p); reflexivity.
Qed.

Lemma classList_remove_absent (name : string) (classes : list string) :
  classList_contains name (classList_remove [name] classes) = false.
Proof.
  unfold classList_contains, classList_remove.
  induction classes as [| c rest IH]; [reflexivity |].
  cbn [filter existsb]. rewrite orb_false_r.
  destruct (String.eqb c name) eqn:E; cbn [negb existsb].
  - exact IH.
  - rewrite String.eqb_sym, E. exact IH.
Qed.

Lemma removed_class_absent (link : Link) :
  hasAnimationClass (removeAnimationClass link) = false.
Proof. apply classList_remove_absent. Qed.

Lemma updateNth_length {A : Type} (f : A -> A) (l : list A) :
  forall n, List.length (updateNth f n l) = List.length l.
Proof.
  induction l as [| a rest IH]; intros [| n]; simpl; auto.
Qed.

(** Off screen: the flag is reset, the class is gone from every link, and
    no timer is set. *)
Lemma step_offScreen (w : World) (e : Event) :
  offScreenAt e = true ->
  linksAnimated (panel (step w e)) = Some "false"
  /\ Forall (fun link => hasAnimationClass link = false)
       (links (panel (step w e)))
  /\ List.length (links (panel (step w e))) = List.length (links (panel w))
  /\ pending (step w e) = pending w.
Proof.
  destruct e as [vh rect | k]; [| discriminate].
  unfold offScreenAt, step. intros Hoff.
  destruct (updatePanel_links vh rect (panel w)) as [p' [Hf [Hl ->]]].
  unfold updatePanelLinks. rewrite Hoff. cbn [panel pending links linksAnimated].
  rewrite app_nil_r, Hl. repeat split.
  - apply Forall_forall. intros link Hin. apply in_map_iff in Hin.
    destruct Hin as [l0 [<- _]]. apply removed_class_absent.
  - apply length_map.
Qed.

(** While the panel is not fully visible the reset flag stays, whatever
    scrolls and timers come. *)
Lemma step_keeps_reset (w : World) (e : Event) :
  fullyVisibleAt e = false ->
  linksAnimated (panel w) = Some "false" ->
  linksAnimated (panel (step w e)) = Some "false"
  /\ List.length (links (panel (step w e))) = List.length (links (panel w)).
Proof.
  intros Hfv Hflag. destruct e as [vh rect | k]; unfold fullyVisibleAt in Hfv;
    unfold step.
  - destruct (updatePanel_links vh rect (panel w)) as [p' [Hf [Hl ->]]].
    unfold updatePanelLinks. rewrite Hfv.
    destruct (isOffScreen (calculatePanelAnimation rect vh));
      cbn [andb panel pending links linksAnimated].
    + rewrite length_map, Hl. split; reflexivity.
    + rewrite Hf, Hl. split; [exact Hflag | reflexivity].
  - destruct (nth_error (pending w) k);
      cbn [panel pending links linksAnimated fire].
    + rewrite updateNth_length. split; [exact Hflag | reflexivity].
    + split; [exact Hflag | reflexivity].
Qed.

Lemma run_keeps_reset (between : list Event) :
  forall w,
    (forall e, In e between -> fullyVisibleAt e = false) ->
    linksAnimated (panel w) = Some "false" ->
    linksAnimated (panel (fold_left step between w)) = Some "false"
    /\ List.length (links (panel (fold_left step between w)))
       = List.length (links (panel w)).
Proof.
  induction between as [| e rest IH]; intros w Hall Hflag; simpl.
  - split; [exact Hflag | reflexivity].
  - destruct (step_keeps_reset w e (Hall e (or_introl eq_refl)) Hflag)
      as [Hf Hl].
    destruct (IH (step w e) (fun e' He' => Hall e' (or_intror He')) Hf)
      as [Hf' Hl'].
    split; [exact Hf' | rewrite Hl', Hl; reflexivity].
Qed.

(** Fully visible with the flag not set: the flag is set and the staggered
    timers are added, one per link. *)
Lemma step_fullyVisible (w : World) (e : Event) :
  fullyVisibleAt e = true ->
  linksAnimated (panel w) = Some "false" ->
  linksAnimated (panel (step w e)) = Some "true"
  /\ links (panel (step w e)) = links (panel w)
  /\ pending (step w e)
     = (pending w ++ staggeredTimers (List.length (links (panel w))))%list.
Proof.
  destruct e as [vh rect | k]; [| discriminate].
  unfold fullyVisibleAt, step. intros Hfv Hflag.
  destruct (updatePanel_links vh rect (panel w)) as [p' [Hf [Hl ->]]].
  unfold updatePanelLinks.
  rewrite (fullyVisible_not_offScreen rect vh Hfv), Hfv, Hf, Hflag.
  cbn [andb negb String.eqb panel pending links linksAnimated].
  rewrite Hl. repeat split.
Qed.

(** ** On the example panel *)

Example panel_leaves_and_returns :
  let after :=
    fold_left step [Samples.below; Samples.entering; Samples.upperHalf]
      Samples.animatedPanel in
  linksAnimated (panel after) = Some "true"
  /\ pending after
     = [ {| delay := 0; target := 0 |}; {| delay := 150; target := 1 |};
         {| delay := 300; target := 2 |} ].
Proof. split; reflexivity. Qed.

End PanelAnimationsSpec.

(* ================================================================== *)
(** * Loading the cable data (globeBackground.js) *)
(* ================================================================== *)

Module GlobeBackgroundSpec.
Import GlobeBackground.

Section Fallback.

(** The platform the function runs on: any encoder, any parser, any
    state of the network. *)
Variable enc : string -> string.
Variable parse : option Json -> Exn + Json.
Variable net : string -> Response.

(** A [try] whose handler falls through never throws. *)
Lemma tryCatch_swallows {A : Type} (body : Completion A) :
  tryCatch body (fun _ => Normal) = Normal
  \/ exists v, tryCatch body (fun _ => Normal) = Return v.
Proof.
  destruct body as [| v | e]; simpl; [left | right; exists v | left];
    reflexivity.
Qed.

Lemma proxyLoop_no_throw (remaining : list string) :
  proxyLoop enc parse net remaining = Normal
  \/ exists v, proxyLoop enc parse net remaining = Return v.
Proof.
  induction remaining as [| proxyUrl rest IH]; cbn [proxyLoop].
  - left. reflexivity.
  - unfold proxyAttempt.
    destruct (tryCatch_swallows (proxyAttemptBody enc parse net proxyUrl))
      as [-> | [v ->]]; cbn [andThen].
    + exact IH.
    + right. exists v. reflexivity.
Qed.

(** No error escapes: the promise resolves, always. *)
Lemma fetchCableData_resolves :
  exists data, fetchCableData enc parse net = Return data.
Proof.
  unfold fetchCableData, directAttempt.
  match goal with
  | |- context [tryCatch ?body (fun _ => Normal)] =>
      destruct (tryCatch_swallows body) as [-> | [v ->]]
  end; cbn [andThen].
  - destruct (proxyLoop_no_throw (proxyUrls GLOBE_CONFIG)) as [-> | [v ->]];
      cbn [andThen tryCatch]; eexists; reflexivity.
  - exists v. reflexivity.
Qed.

Lemma directAttempt_fails :
  directRequestFails net -> directAttempt net = Normal.
Proof.
  unfold directRequestFails, directAttempt.
  destruct (net (cableApiUrl GLOBE_CONFIG)) as [e | ok status json].
  - reflexivity.
  - intros [-> | [e ->]]; [reflexivity |]. destruct ok; reflexivity.
Qed.

Lemma proxyAttempt_fails (proxyUrl : string) :
  proxyRequestFails enc parse net proxyUrl ->
  proxyAttempt enc parse net proxyUrl = Normal.
Proof.
  unfold proxyRequestFails, proxyAttempt, proxyAttemptBody.
  destruct (includes "allorigins.win" proxyUrl).
  - destruct (net (proxyUrl ++ enc (cableApiUrl GLOBE_CONFIG)))
      as [e | ok status json]; [reflexivity |].
    intros [-> | [[e ->] | [proxyData [-> Hbody]]]].
    + reflexivity.
    + destruct ok; reflexivity.
    + destruct ok; [| reflexivity].
      destruct Hbody as [[e ->] | [contents [e [-> ->]]]]; reflexivity.
  - destruct (net (proxyUrl ++ cableApiUrl GLOBE_CONFIG))
      as [e | ok status json]; [reflexivity |].
    intros [-> | [e ->]]; [reflexivity |]. destruct ok; reflexivity.
Qed.

Lemma proxyLoop_all_fail (remaining : list string) :
  (forall proxyUrl, In proxyUrl remaining ->
     proxyRequestFails enc parse net proxyUrl) ->
  proxyLoop enc parse net remaining = Normal.
Proof.
  induction remaining as [| proxyUrl rest IH]; intros Hall; cbn [proxyLoop].
  - reflexivity.
  - rewrite (proxyAttempt_fails proxyUrl (Hall proxyUrl (or_introl eq_refl))).
    cbn [andThen]. apply IH. intros u Hu. apply Hall. right. exact Hu.
Qed.

End Fallback.

(** C5.  If the direct request fails and the request through every proxy
    of the configured list fails, the promise of [fetchCableData] resolves
    (no error escapes) with exactly the embedded [mockData], the
    FeatureCollection of the five named cables. *)
Theorem fetchCableData_fallback (enc : string -> string)
  (parse : option Json -> Exn + Json) (net : string -> Response) :
  directRequestFails net ->
  (forall proxyUrl, In proxyUrl (proxyUrls GLOBE_CONFIG) ->
     proxyRequestFails enc parse net proxyUrl) ->
  fetchCableData enc parse net = Return mockData
  /\ lookup "type" (match mockData with JObject fs => fs | _ => [] end)
     = Some (JString "FeatureCollection")
  /\ featureNames mockData
     = [ Some "TransAtlantic Cable"; Some "TransPacific Cable";
         Some "European Cable"; Some "Asia Cable"; Some "Americas Cable" ].
Proof.
  intros Hdirect Hproxies. split; [| split; reflexivity].
  unfold fetchCableData.
  rewrite (directAttempt_fails net Hdirect),
    (proxyLoop_all_fail enc parse net _ Hproxies).
  reflexivity.
Qed.

(** ** With the network down *)

Lemma fetchCableData_fallback_witness :
  directRequestFails Samples.offline
  /\ fetchCableData Samples.asIs Samples.noParse Samples.offline
     = Return mockData.
Proof.
  assert (Hdirect : directRequestFails Samples.offline) by exact I.
  split; [exact Hdirect |].
  apply (fetchCableData_fallback Samples.asIs Samples.noParse
           Samples.offline Hdirect).
  intros proxyUrl _. unfold proxyRequestFails.
  destruct (includes "allorigins.win" proxyUrl); exact I.
Defined.

End GlobeBackgroundSpec.

(* ================================================================== *)
(** * Division by a zero document height *)
(* ================================================================== *)

Module ZeroHeightSpec.
Import JSNumber JSNumberFacts Browser.
Local Open Scope num_scope.

(** The scrollbar guards the division: without scrollable height every
    clickable mark sits at the minimum bound. *)
Lemma marks_collapse_without_height (trim : string -> string) (w : Window)
  (doc : CustomScrollbar.Document) (marks : list CustomScrollbar.Mark)
  (m : CustomScrollbar.Mark) :
  (scrollHeight w == innerHeight w)%Q ->
  CustomScrollbar.rulerMarkings (CustomScrollbar.createScrollbarMarkings trim w doc)
  = Some marks ->
  CustomScrollbar.rulerMarkings doc <> None ->
  In m marks -> CustomScrollbar.isClickable m = true ->
  CustomScrollbar.markTop m
  ~= Fin (CustomScrollbar.indicatorMinPosition CustomScrollbar.SCROLLBAR_CONFIG).
Proof.
  intros Hh Hres Hdoc Hm Hclick.
  destruct (CustomScrollbarSpec.createScrollbarMarkings_marks
              trim w doc marks Hres Hdoc) as [[_ ->] | [_ ->]];
    [contradiction |].
  destruct Hm as [<- | Hm]; [simpl; lra |].
  apply in_app_or in Hm. destruct Hm as [Hm | Hm].
  - apply in_map_iff in Hm. destruct Hm as [sd [<- _]].
    unfold CustomScrollbar.majorMark, CustomScrollbar.clampPosition.
    cbn [CustomScrollbar.markTop].
    pose proof (CustomScrollbarSpec.majorMarkPosition_flat
                  (scrollHeight w + - innerHeight w)
                  (innerHeight w * 0.2) sd) as Hflat.
    change (Fin (scrollHeight w) - Fin (innerHeight w))
      with (Fin (scrollHeight w + - innerHeight w)).
    change (Fin (innerHeight w)
            * Fin (CustomScrollbar.targetViewportPosition
                     CustomScrollbar.SCROLLBAR_CONFIG))
      with (Fin (innerHeight w * 0.2)).
    destruct (CustomScrollbar.majorMarkPosition
                (Fin (scrollHeight w + - innerHeight w))
                (Fin (innerHeight w * 0.2)) sd) as [q | | |];
      try (exfalso; apply Hflat; lra); try contradiction.
    + simpl in Hflat. unfold Math_min, Math_max, cmp. simpl.
      destruct (Qcompare_spec 96 q); try lra;
        destruct (Qcompare_spec 2 q); simpl; lra.
  - pose proof (CustomScrollbarSpec.minorMarks_not_clickable _ _ _ _ Hm) as H.
    unfold CustomScrollbar.isClickable in Hclick. rewrite H in Hclick.
    discriminate.
Qed.

(** C2.  On the page that does not scroll ([scrollHeight] equal to
    [innerHeight], offset 0) the scrollbar takes its guarded branch and
    puts its three clickable marks at the minimum bound; but
    [calculateScrollProgress] of the title-box controller has no such
    branch: it divides 0 by 0, returns [NaN], which is not in [0,1], and no
    branch of [updateTitleBoxing] applies.  On a page pulled above its top
    it returns a negative progress. *)
Theorem calculateScrollProgress_unguarded :
  option_map
    (fun marks =>
       map CustomScrollbar.markTop (filter CustomScrollbar.isClickable marks))
    (CustomScrollbar.rulerMarkings
       (CustomScrollbar.createScrollbarMarkings Samples.asIs
          Samples.shortWindow Samples.twoSections))
  = Some [Fin 2; Fin 2; Fin 2]
  /\ TitleBoxing.calculateScrollProgress Samples.shortWindow = NaN
  /\ ~ within 0 1 (TitleBoxing.calculateScrollProgress Samples.shortWindow)
  /\ TitleBoxing.selectBranch
       (TitleBoxing.calculateScrollProgress Samples.shortWindow) = None
  /\ (TitleBoxing.calculateScrollProgress Samples.bouncedWindow <? Fin 0) = true.
Proof.
  split; [vm_compute; reflexivity |].
  split; [reflexivity |].
  split; [intros [q [H _]]; discriminate H |].
  split; reflexivity.
Qed.

End ZeroHeightSpec.

(* ================================================================== *)
(** * More on the progress system (progressSystem.js) *)
(* ================================================================== *)

Module ProgressSystemMore.
Import JSNumber JSNumberFacts Browser ProgressSystem ProgressSystemSpec.
Local Open Scope num_scope.

Lemma smoothProgress_within (v : num) (page : Page) :
  (v >? Fin 0) = true ->
  within 0 1 (smoothProgress (calculateContentProgress v page)).
Proof.
  intros Hv. rewrite smoothProgress_journey.
  destruct (main page) as [hero |];
    [destruct (lastPanel (calculateContentProgress v page)) as [last |] |].
  - apply journey_within, Hv.
  - apply within_Fin. lra.
  - apply within_Fin. lra.
Qed.

(** ** Ring and compass *)

(** The ring and the compass are driven by the same progress: with both
    elements in the document and a viewport height [v > 0], the dash offset
    written is between 0 and the circumference, the angle between 0 and 360
    degrees, and the part of the ring left open and the part of the turn
    made add up to one. *)
Theorem dial_follows_progress (v : num) (page : Page) (dial : Dial)
  (ring compass : option num) :
  (v >? Fin 0) = true ->
  progressCircle dial = Some ring -> compassOuter dial = Some compass ->
  fst (updateProgressSystem v page dial) = calculateContentProgress v page
  /\ exists offset angle,
       progressCircle (snd (updateProgressSystem v page dial))
       = Some (Some (Fin offset))
       /\ compassOuter (snd (updateProgressSystem v page dial))
          = Some (Some (Fin angle))
       /\ (0 <= offset <= circumference PROGRESS_CONFIG)%Q
       /\ (0 <= angle <= rotationMultiplier PROGRESS_CONFIG)%Q
       /\ (offset / circumference PROGRESS_CONFIG
           + angle / rotationMultiplier PROGRESS_CONFIG == 1)%Q.
Proof.
  intros Hv Hring Hcompass. split; [reflexivity |].
  destruct (smoothProgress_within v page Hv) as [p [Hp Hb]].
  unfold updateProgressSystem, updateCompassRotation, updateProgressRing.
  cbn [fst snd]. rewrite Hring. cbn [compassOuter progressCircle].
  rewrite Hcompass, Hp. cbn [compassOuter progressCircle].
  eexists. eexists. split; [reflexivity |]. split; [reflexivity |].
  cbn [circumference rotationMultiplier PROGRESS_CONFIG].
  split; [| split].
  - split; nra.
  - split; nra.
  - field.
Qed.

Lemma dial_follows_progress_witness :
  (Fin 800 >? Fin 0) = true
  /\ fst (updateProgressSystem (Fin 800) Samples.page Samples.dial)
     = calculateContentProgress (Fin 800) Samples.page.
Proof.
  split; [reflexivity |].
  apply (dial_follows_progress (Fin 800) Samples.page Samples.dial None None);
    reflexivity.
Defined.

(** ** Scrolling further *)

Lemma cmp_same (x x' y y' : num) :
  x ~= x' -> y ~= y' -> cmp x y = cmp x' y'.
Proof.
  destruct x, x'; simpl; try contradiction;
    destruct y, y'; simpl; try contradiction; intros Hx Hy; try reflexivity.
  rewrite Hx, Hy. reflexivity.
Qed.

Lemma edge_scrolled (d : Q) (page : Page) (p : Panel) :
  absoluteBottom (scrolledBy d page) (shiftPanel d p) ~= absoluteBottom page p.
Proof. simpl. ring. Qed.

(** One iteration on the scrolled page decides as on the page itself. *)
Lemma step_scrolled (d : Q) (page : Page) (p : Panel) (lowest lowest' : num)
  (chosen : option Panel) :
  lowest' ~= lowest ->
  exists lowest2 lowest2' chosen2,
    lowestStep page (lowest, chosen) p = (lowest2, chosen2)
    /\ lowestStep (scrolledBy d page)
         (lowest', option_map (shiftPanel d) chosen) (shiftPanel d p)
       = (lowest2', option_map (shiftPanel d) chosen2)
    /\ lowest2' ~= lowest2.
Proof.
  intros Hsame. unfold lowestStep. cbn [fst].
  assert (Hgt : (absoluteBottom (scrolledBy d page) (shiftPanel d p) >? lowest')
                = (absoluteBottom page p >? lowest)).
  { unfold gt. rewrite (cmp_same _ _ _ _ (edge_scrolled d page p) Hsame).
    reflexivity. }
  rewrite Hgt. destruct (absoluteBottom page p >? lowest).
  - eexists. eexists. exists (Some p). repeat split. apply edge_scrolled.
  - eexists. eexists. exists chosen. repeat split. exact Hsame.
Qed.

Lemma fold_scrolled (d : Q) (page : Page) (l : list Panel) :
  forall lowest lowest' chosen,
    lowest' ~= lowest ->
    snd (fold_left (lowestStep (scrolledBy d page)) (map (shiftPanel d) l)
           (lowest', option_map (shiftPanel d) chosen))
    = option_map (shiftPanel d)
        (snd (fold_left (lowestStep page) l (lowest, chosen))).
Proof.
  induction l as [| p rest IH]; intros lowest lowest' chosen Hsame.
  - reflexivity.
  - cbn [fold_left map].
    destruct (step_scrolled d page p lowest lowest' chosen Hsame)
      as [l2 [l2' [c2 [-> [-> Hsame2]]]]].
    apply IH, Hsame2.
Qed.

(** Scrolling does not change which panel is the end anchor. *)
Lemma lastPanel_scrolled (v : num) (d : Q) (page : Page) :
  lastPanel (calculateContentProgress v (scrolledBy d page))
  = option_map (shiftPanel d) (lastPanel (calculateContentProgress v page)).
Proof.
  rewrite !lastPanel_findLowest. unfold findLowest.
  assert (Hall : allContentPanels (scrolledBy d page)
                 = map (shiftPanel d) (allContentPanels page)).
  { unfold allContentPanels, scrolledBy. cbn [smallPanels largePanels menuPanels].
    rewrite !map_app. reflexivity. }
  rewrite Hall.
  apply (fold_scrolled d page (allContentPanels page) NegInf NegInf None I).
Qed.

(** The journey of a hero and a panel between the anchors, as a ratio of
    rationals. *)
Lemma journey_ratio (vq : Q) (hero : DOMRect) (last : Panel) :
  (top hero < 0)%Q -> (0 < bottom (rect last) - vq)%Q ->
  journey (Fin vq) hero last
  ~= Fin (- top hero / (- top hero + (bottom (rect last) - vq))).
Proof.
  intros Htop Hend.
  assert (Hs : (Fin (top hero) >=? Fin 0) = false).
  { destruct (Fin (top hero) >=? Fin 0) eqn:E; [| reflexivity].
    apply ge_Fin in E. lra. }
  assert (He : (Fin (bottom (rect last)) - Fin vq <=? Fin 0) = false).
  { destruct (Fin (bottom (rect last)) - Fin vq <=? Fin 0) eqn:E;
      [| reflexivity].
    apply le_Fin in E. unfold Qminus in Hend. lra. }
  unfold journey. rewrite Hs, He.
  assert (Habs : (Qabs (top hero) == - top hero)%Q) by (apply Qabs_neg; lra).
  assert (Hdiv :
    Math_abs (Fin (top hero))
    / (Math_abs (Fin (top hero)) + (Fin (bottom (rect last)) - Fin vq))
    = Fin (Qabs (top hero)
           / (Qabs (top hero) + (bottom (rect last) + - vq)))).
  { simpl. unfold div, sgn.
    destruct (Qcompare_spec
                (Qabs (top hero) + (bottom (rect last) + - vq)) 0);
      try reflexivity; unfold Qminus in Hend; lra. }
  rewrite Hdiv.
  assert (Hpos : (0 < Qabs (top hero))%Q) by lra.
  assert (Hend' : (0 < bottom (rect last) + - vq)%Q)
    by (unfold Qminus in Hend; exact Hend).
  destruct (ratio_bounds _ _ Hpos Hend') as [Hlo Hhi].
  rewrite clamp_id by assumption.
  simpl. rewrite Habs. unfold Qminus. reflexivity.
Qed.

Lemma journey_start (v : num) (hero : DOMRect) (last : Panel) :
  (0 <= top hero)%Q -> journey v hero last = Fin 0.
Proof.
  intros H. unfold journey. rewrite (proj2 (ge_Fin (top hero) 0) H).
  reflexivity.
Qed.

Lemma journey_end (vq : Q) (hero : DOMRect) (last : Panel) :
  (top hero < 0)%Q -> (bottom (rect last) - vq <= 0)%Q ->
  journey (Fin vq) hero last = Fin 1.
Proof.
  intros Htop Hend. unfold journey.
  assert (Hs : (Fin (top hero) >=? Fin 0) = false).
  { destruct (Fin (top hero) >=? Fin 0) eqn:E; [| reflexivity].
    apply ge_Fin in E. lra. }
  rewrite Hs.
  assert (He : (Fin (bottom (rect last)) - Fin vq <=? Fin 0) = true).
  { apply le_Fin. unfold Qminus in Hend. exact Hend. }
  rewrite He. reflexivity.
Qed.

Lemma journey_grows (vq d : Q) (hero : DOMRect) (last : Panel) :
  (0 < vq)%Q -> (0 <= d)%Q ->
  (journey (Fin vq) hero last
   <=? journey (Fin vq) (shiftRect d hero) (shiftPanel d last)) = true.
Proof.
  intros Hv Hd.
  assert (Hvpos : (Fin vq >? Fin 0) = true) by (apply gt_Fin; exact Hv).
  destruct (journey_within (Fin vq) (shiftRect d hero) (shiftPanel d last) Hvpos)
    as [r' [Hr' Hb']].
  destruct (Qlt_le_dec (top hero) 0) as [Htop | Htop].
  2:{ rewrite (journey_start _ hero last Htop), Hr'. apply le_Fin. lra. }
  assert (Htop' : (top (shiftRect d hero) < 0)%Q) by (simpl; lra).
  destruct (Qlt_le_dec 0 (bottom (rect last) - vq)) as [Hend | Hend].
  2:{ rewrite (journey_end vq hero last Htop Hend).
      rewrite (journey_end vq (shiftRect d hero) (shiftPanel d last) Htop').
      - reflexivity.
      - simpl. lra. }
  destruct (journey_within (Fin vq) hero last Hvpos) as [r [Hr Hb]].
  pose proof (journey_ratio vq hero last Htop Hend) as Hratio.
  rewrite Hr in Hratio. simpl in Hratio. rewrite Hr.
  destruct (Qlt_le_dec 0 (bottom (rect (shiftPanel d last)) - vq))
    as [Hend' | Hend'].
  - pose proof (journey_ratio vq (shiftRect d hero) (shiftPanel d last)
                  Htop' Hend') as Hratio'.
    rewrite Hr' in Hratio'. simpl in Hratio'. rewrite Hr'.
    apply le_Fin. rewrite Hratio, Hratio'.
    simpl in Hend'.
    assert (Hden : (- (top hero - d) + (bottom (rect last) - d - vq)
                    == - top hero + (bottom (rect last) - vq))%Q) by ring.
    rewrite Hden.
    apply Qmult_le_compat_r; [lra |].
    apply Qlt_le_weak, Qinv_lt_0_compat. lra.
  - rewrite (journey_end vq (shiftRect d hero) (shiftPanel d last) Htop' Hend').
    apply le_Fin. rewrite Hratio.
    apply Qle_shift_div_r; lra.
Qed.

(** As the page scrolls down (every element of the flow moves up by [d],
    the page offset grows by [d]) the end anchor stays the same panel and
    the progress does not decrease. *)
Theorem progress_grows_with_scroll (vq d : Q) (page : Page) :
  (0 < vq)%Q -> (0 <= d)%Q ->
  lastPanel (calculateContentProgress (Fin vq) (scrolledBy d page))
  = option_map (shiftPanel d)
      (lastPanel (calculateContentProgress (Fin vq) page))
  /\ (smoothProgress (calculateContentProgress (Fin vq) page)
      <=? smoothProgress (calculateContentProgress (Fin vq) (scrolledBy d page)))
     = true.
Proof.
  intros Hv Hd. split; [apply lastPanel_scrolled |].
  rewrite !smoothProgress_journey, lastPanel_scrolled.
  cbn [main scrolledBy].
  destruct (main page) as [hero |]; cbn [option_map]; [| reflexivity].
  destruct (lastPanel (calculateContentProgress (Fin vq) page)) as [last |];
    cbn [option_map]; [| reflexivity].
  apply journey_grows; assumption.
Qed.

Lemma progress_grows_with_scroll_witness :
  (0 < 800)%Q /\ (0 <= 300)%Q
  /\ (smoothProgress (calculateContentProgress (Fin 800) Samples.page)
      <=? smoothProgress
            (calculateContentProgress (Fin 800) (scrolledBy 300 Samples.page)))
     = true.
Proof.
  assert (Hv : (0 < 800)%Q) by reflexivity.
  assert (Hd : (0 <= 300)%Q) by discriminate.
  split; [exact Hv |]. split; [exact Hd |].
  apply (progress_grows_with_scroll 800 300 Samples.page Hv Hd).
Defined.

End ProgressSystemMore.

(* ================================================================== *)
(** * More on the scrollbar (customScrollbar.js) *)
(* ================================================================== *)

Module CustomScrollbarMore.
Import JSNumber JSNumberFacts Browser CustomScrollbar CustomScrollbarSpec.
Local Open Scope num_scope.

(** [Math.max(0, h - off)] as a rational. *)
Lemma target_spec (h off : Q) :
  exists t,
    Math_max (Fin 0) (Fin h - Fin off) = Fin t
    /\ (0 <= t)%Q /\ (h - off <= t)%Q
    /\ ((h - off <= 0)%Q -> (t == 0)%Q)
    /\ ((0 <= h - off)%Q -> (t == h - off)%Q).
Proof.
  simpl. unfold Math_max, cmp.
  destruct (Qcompare_spec 0 (h + - off)); eexists;
    (split; [reflexivity |]); unfold Qminus; repeat split; intros; lra.
Qed.

(** The clamp of a finite position, by cases. *)
Lemma clampPosition_spec (q : Q) :
  exists c,
    clampPosition (Fin q) = Fin c
    /\ (((q <= 2)%Q /\ (c == 2)%Q)
        \/ ((2 <= q <= 96)%Q /\ (c == q)%Q)
        \/ ((96 <= q)%Q /\ (c == 96)%Q)).
Proof.
  unfold clampPosition, Math_min, Math_max, cmp. simpl.
  destruct (Qcompare_spec 96 q); destruct (Qcompare_spec 2 q);
    try (destruct (Qcompare_spec 2 96); try lra);
    eexists; (split; [reflexivity |]); lra.
Qed.

(** The position of a section mark on a page that scrolls. *)
Lemma majorMarkPosition_scrolling (dh off : Q) (sd : SectionData) (t : Q) :
  (0 < dh)%Q ->
  Math_max (Fin 0) (Fin (h1AbsoluteTop sd) - Fin off) = Fin t ->
  majorMarkPosition (Fin dh) (Fin off) sd = Fin (2 + t / dh * 94).
Proof.
  intros Hdh Ht. unfold majorMarkPosition. rewrite Ht.
  rewrite (proj2 (gt_Fin dh 0) Hdh).
  unfold div, sgn. destruct (Qcompare_spec dh 0); try lra; reflexivity.
Qed.

Lemma div_le_compat (a b d : Q) : (0 < d)%Q -> (a <= b)%Q -> (a / d <= b / d)%Q.
Proof.
  intros Hd Hab. apply Qmult_le_compat_r; [exact Hab |].
  apply Qlt_le_weak, Qinv_lt_0_compat, Hd.
Qed.

Lemma div_nonneg (a d : Q) : (0 < d)%Q -> (0 <= a)%Q -> (0 <= a / d)%Q.
Proof.
  intros Hd Ha. apply Qle_shift_div_l; [exact Hd | lra].
Qed.

(** ** The order of the section marks *)

(** Section marks follow the order of the headings: a heading that is
    lower in the document never gets a mark that is higher on the track. *)
Theorem section_marks_follow_headings (w : Window) (sd1 sd2 : SectionData) :
  (h1AbsoluteTop sd1 <= h1AbsoluteTop sd2)%Q ->
  let documentHeight := Fin (scrollHeight w) - Fin (innerHeight w) in
  let targetViewportOffset :=
    Fin (innerHeight w) * Fin (targetViewportPosition SCROLLBAR_CONFIG) in
  (markTop (majorMark documentHeight targetViewportOffset sd1)
   <=? markTop (majorMark documentHeight targetViewportOffset sd2)) = true.
Proof.
  intros Hh dh off. subst dh off.
  change (Fin (scrollHeight w) - Fin (innerHeight w))
    with (Fin (scrollHeight w + - innerHeight w)).
  change (Fin (innerHeight w) * Fin (targetViewportPosition SCROLLBAR_CONFIG))
    with (Fin (innerHeight w * 0.2)).
  set (dh := (scrollHeight w + - innerHeight w)%Q).
  set (off := (innerHeight w * 0.2)%Q).
  cbn [markTop majorMark].
  destruct (Qlt_le_dec 0 dh) as [Hdh | Hdh].
  - destruct (target_spec (h1AbsoluteTop sd1) off) as [t1 [E1 [P1 [L1 [Z1 F1]]]]].
    destruct (target_spec (h1AbsoluteTop sd2) off) as [t2 [E2 [P2 [L2 [Z2 F2]]]]].
    rewrite (majorMarkPosition_scrolling dh off sd1 t1 Hdh E1).
    rewrite (majorMarkPosition_scrolling dh off sd2 t2 Hdh E2).
    assert (Ht : (t1 <= t2)%Q).
    { destruct (Qlt_le_dec (h1AbsoluteTop sd1 - off) 0) as [Hn | Hp].
      - rewrite Z1 by lra. exact P2.
      - rewrite F1 by exact Hp. lra. }
    pose proof (div_le_compat t1 t2 dh Hdh Ht) as Hdiv.
    destruct (clampPosition_spec (2 + t1 / dh * 94)) as [c1 [-> H1]].
    destruct (clampPosition_spec (2 + t2 / dh * 94)) as [c2 [-> H2]].
    apply le_Fin. lra.
  - pose proof (majorMarkPosition_flat dh off sd1 Hdh) as F1.
    pose proof (majorMarkPosition_flat dh off sd2 Hdh) as F2.
    destruct (majorMarkPosition_finite dh off sd1) as [q1 E1].
    destruct (majorMarkPosition_finite dh off sd2) as [q2 E2].
    rewrite E1 in *. rewrite E2 in *. simpl in F1, F2.
    destruct (clampPosition_spec q1) as [c1 [-> H1]].
    destruct (clampPosition_spec q2) as [c2 [-> H2]].
    apply le_Fin. lra.
Qed.

Lemma section_marks_follow_headings_witness :
  (120 <= 900)%Q
  /\ (markTop
        (majorMark (Fin 4000 - Fin 800) (Fin 800 * Fin 0.2)
           {| title := "Atlas"; sectionAbsoluteTop := 0;
              h1AbsoluteTop := 120; index := 0 |})
      <=? markTop
            (majorMark (Fin 4000 - Fin 800) (Fin 800 * Fin 0.2)
               {| title := "Section 2"; sectionAbsoluteTop := 900;
                  h1AbsoluteTop := 900; index := 1 |})) = true.
Proof.
  assert (H : (120 <= 900)%Q) by discriminate.
  split; [exact H |].
  apply (section_marks_follow_headings Samples.tallWindow
           {| title := "Atlas"; sectionAbsoluteTop := 0;
              h1AbsoluteTop := 120; index := 0 |}
           {| title := "Section 2"; sectionAbsoluteTop := 900;
              h1AbsoluteTop := 900; index := 1 |} H).
Defined.

(** ** A click on a section mark *)

(** Where the page settles for a target that is not negative. *)
Lemma scrollTo_offset (target : Q) (w : Window) :
  (0 <= target)%Q -> (0 < scrollHeight w - innerHeight w)%Q ->
  ((target <= scrollHeight w - innerHeight w)%Q
   /\ (pageYOffset (scrollTo target w) == target)%Q)
  \/ ((scrollHeight w - innerHeight w <= target)%Q
      /\ (pageYOffset (scrollTo target w)
          == scrollHeight w - innerHeight w)%Q).
Proof.
  intros Ht Hdh. unfold scrollTo. cbn [pageYOffset].
  destruct (Qle_bool target 0) eqn:E0.
  - apply Qle_bool_iff in E0. left. split; lra.
  - destruct (Qle_bool (scrollHeight w - innerHeight w) target) eqn:E1.
    + apply Qle_bool_iff in E1. right. split; [exact E1 | reflexivity].
    + left. split; [| reflexivity].
      destruct (Qlt_le_dec target (scrollHeight w - innerHeight w)) as [H | H];
        [lra |].
      apply Qle_bool_iff in H. congruence.
Qed.

(** The progress of the coordinator on a page that scrolls. *)
Lemma actualScrollProgress_scrolling (w : Window) :
  (0 < scrollHeight w - innerHeight w)%Q -> (0 <= pageYOffset w)%Q ->
  exists p,
    actualScrollProgress w = Fin p
    /\ (((pageYOffset w <= scrollHeight w - innerHeight w)%Q
         /\ (p == pageYOffset w / (scrollHeight w - innerHeight w))%Q)
        \/ ((scrollHeight w - innerHeight w <= pageYOffset w)%Q
            /\ (p == 1)%Q)).
Proof.
  intros Hdh Hy. unfold actualScrollProgress.
  change (Fin (scrollHeight w) - Fin (innerHeight w))
    with (Fin (scrollHeight w + - innerHeight w)).
  unfold div, sgn.
  destruct (Qcompare_spec (scrollHeight w + - innerHeight w) 0);
    try (unfold Qminus in Hdh; lra).
  set (u := (pageYOffset w / (scrollHeight w + - innerHeight w))%Q).
  assert (Hu0 : (0 <= u)%Q).
  { apply div_nonneg; [unfold Qminus in Hdh; lra | exact Hy]. }
  assert (Hu1 : (pageYOffset w <= scrollHeight w - innerHeight w)%Q ->
                (u <= 1)%Q).
  { intros Hsmall. apply Qle_shift_div_r; unfold Qminus in *; lra. }
  assert (Hu2 : (scrollHeight w - innerHeight w <= pageYOffset w)%Q ->
                (1 <= u)%Q).
  { intros Hbig. apply Qle_shift_div_l; unfold Qminus in *; lra. }
  unfold Math_max, Math_min, cmp.
  destruct (Qcompare_spec 0 u); destruct (Qcompare_spec 1 u);
    try (destruct (Qcompare_spec 1 0); try lra);
    eexists; (split; [reflexivity |]);
    destruct (Qlt_le_dec (scrollHeight w - innerHeight w) (pageYOffset w))
      as [Hc | Hc];
    try (specialize (Hu2 (Qlt_le_weak _ _ Hc)));
    try (specialize (Hu1 Hc));
    first [ left; split; [lra | unfold Qminus; subst u; lra]
          | right; split; lra
          | left; split; [lra | unfold Qminus; subst u; reflexivity] ].
Qed.

(** On a page that scrolls, once the scroll started by a click on a
    section mark has settled, the position the coordinator gives to the
    scroll indicator is the position of that mark. *)
Theorem mark_meets_indicator (w : Window) (sd : SectionData) (target : Q) :
  (0 < scrollHeight w - innerHeight w)%Q ->
  click w (ScrollToH1 (h1AbsoluteTop sd)) = Fin target ->
  clampedPosition (actualScrollProgress (scrollTo target w))
  ~= markTop
       (majorMark (Fin (scrollHeight w) - Fin (innerHeight w))
          (Fin (innerHeight w) * Fin (targetViewportPosition SCROLLBAR_CONFIG))
          sd).
Proof.
  intros Hdh Hclick.
  change (Fin (scrollHeight w) - Fin (innerHeight w))
    with (Fin (scrollHeight w + - innerHeight w)).
  change (Fin (innerHeight w) * Fin (targetViewportPosition SCROLLBAR_CONFIG))
    with (Fin (innerHeight w * 0.2)).
  set (dh := (scrollHeight w + - innerHeight w)%Q).
  assert (Hdh' : (0 < dh)%Q) by (subst dh; unfold Qminus in Hdh; exact Hdh).
  destruct (target_spec (h1AbsoluteTop sd) (innerHeight w * 0.2))
    as [t [Et [Pt _]]].
  assert (Htarget : t = target).
  { cbn [click] in Hclick. unfold scrollToH1AtViewportPosition in Hclick.
    change (Fin (innerHeight w) * Fin (targetViewportPosition SCROLLBAR_CONFIG))
      with (Fin (innerHeight w * 0.2)) in Hclick.
    rewrite Et in Hclick. congruence. }
  subst t.
  cbn [markTop majorMark].
  rewrite (majorMarkPosition_scrolling dh _ sd target Hdh' Et).
  assert (Hy : (0 <= pageYOffset (scrollTo target w))%Q).
  { destruct (scrollTo_offset target w Pt Hdh) as [[_ E] | [_ E]];
      rewrite E; lra. }
  destruct (actualScrollProgress_scrolling (scrollTo target w) Hdh Hy)
    as [p [Ep Hp]].
  rewrite Ep.
  change (clampedPosition (Fin p)) with (clampPosition (Fin (2 + p * 94))).
  cbn [scrollHeight innerHeight scrollTo] in Hp.
  assert (Hone : (dh / dh == 1)%Q) by (field; lra).
  assert (Hfull : (dh <= target)%Q -> (1 <= target / dh)%Q).
  { intros Hbig. apply Qle_shift_div_l; lra. }
  assert (Hpart : (target <= dh)%Q -> (target / dh <= 1)%Q).
  { intros Hsmall. apply Qle_shift_div_r; lra. }
  assert (Hagree :
    ((target <= dh)%Q /\ (p == target / dh)%Q)
    \/ ((dh <= target)%Q /\ (p == 1)%Q)).
  { fold (pageYOffset (scrollTo target w)) in Hp.
    destruct (scrollTo_offset target w Pt Hdh) as [[Hs E] | [Hb E]];
      unfold Qminus in *; fold dh in Hs || fold dh in Hb; fold dh in E;
      fold dh in Hp.
    - destruct Hp as [[_ Hp] | [Hp1 Hp2]].
      + left. split; [exact Hs |]. rewrite Hp, E. reflexivity.
      + rewrite E in Hp1. right. split; [exact Hp1 | exact Hp2].
    - right. split; [exact Hb |].
      destruct Hp as [[_ Hp] | [_ Hp]]; [| exact Hp].
      rewrite Hp, E. exact Hone. }
  destruct (clampPosition_spec (2 + p * 94)) as [c1 [-> H1]].
  destruct (clampPosition_spec (2 + target / dh * 94)) as [c2 [-> H2]].
  simpl.
  destruct Hagree as [[Hs Hp'] | [Hb Hp']].
  - specialize (Hpart Hs). rewrite Hp' in H1. lra.
  - specialize (Hfull Hb). rewrite Hp' in H1. lra.
Qed.

Lemma mark_meets_indicator_witness :
  (0 < 4000 - 800)%Q
  /\ clampedPosition
       (actualScrollProgress (scrollTo (900 - 800 * 0.2) Samples.tallWindow))
     ~= markTop
          (majorMark (Fin 4000 - Fin 800) (Fin 800 * Fin 0.2)
             {| title := "Section 2"; sectionAbsoluteTop := 900;
                h1AbsoluteTop := 900; index := 1 |}).
Proof.
  assert (H : (0 < 4000 - 800)%Q) by reflexivity.
  split; [exact H |].
  apply (mark_meets_indicator Samples.tallWindow
           {| title := "Section 2"; sectionAbsoluteTop := 900;
              h1AbsoluteTop := 900; index := 1 |} (900 - 800 * 0.2)%Q H).
  reflexivity.
Defined.

Lemma mapWithIndex_In {A B : Type} (f : nat -> A -> B) (l : list A) (b : B) :
  forall start, In b (mapWithIndex f start l) ->
                exists i a, nth_error l i = Some a /\ b = f (start + i)%nat a.
Proof.
  induction l as [| a rest IH]; intros start Hb; [contradiction |].
  destruct Hb as [<- | Hb].
  - exists 0%nat, a. split; [reflexivity |]. rewrite Nat.add_0_r. reflexivity.
  - destruct (IH (S start) Hb) as [i [a' [Hnth ->]]].
    exists (S i), a'. split; [exact Hnth |].
    rewrite Nat.add_succ_r. reflexivity.
Qed.

Lemma getSectionData_nth (trim : string -> string) (w : Window)
  (doc : Document) (sd : SectionData) :
  In sd (getSectionData trim w doc) ->
  exists i section,
    nth_error (sections doc) i = Some section
    /\ sd = sectionDataAt trim w i section.
Proof.
  intros H. apply mapWithIndex_In in H. exact H.
Qed.

(** A mark with a click handler that scrolls to a heading is the mark of
    a section, and the handler holds the absolute top of its heading. *)
Lemma section_mark_handler (trim : string -> string) (w : Window)
  (doc : Document) (marks : list Mark) (m : Mark) (h : Q) :
  rulerMarkings (createScrollbarMarkings trim w doc) = Some marks ->
  rulerMarkings doc <> None ->
  In m marks -> onClick m = Some (ScrollToH1 h) ->
  exists sd,
    In sd (getSectionData trim w doc) /\ h = h1AbsoluteTop sd
    /\ m = majorMark (Fin (scrollHeight w) - Fin (innerHeight w))
             (Fin (innerHeight w)
              * Fin (targetViewportPosition SCROLLBAR_CONFIG)) sd.
Proof.
  intros Hres Hdoc Hm Hclick.
  destruct (createScrollbarMarkings_marks trim w doc marks Hres Hdoc)
    as [[_ ->] | [_ ->]]; [contradiction |].
  destruct Hm as [<- | Hm]; [discriminate |].
  apply in_app_or in Hm. destruct Hm as [Hm | Hm].
  - apply in_map_iff in Hm. destruct Hm as [sd [<- Hsd]].
    exists sd. cbn [onClick majorMark] in Hclick.
    injection Hclick as <-. repeat split. exact Hsd.
  - rewrite (minorMarks_not_clickable _ _ _ _ Hm) in Hclick. discriminate.
Qed.

(** What a scroll to a heading comes to, at the window of the click. *)
Lemma scroll_to_heading (h : Q) (w : Window) :
  exists target,
    click w (ScrollToH1 h) = Fin target
    /\ (0 <= target)%Q
    /\ ((innerHeight w * 0.2 <= h)%Q ->
        (h - innerHeight w * 0.2 <= scrollHeight w - innerHeight w)%Q ->
        (h - pageYOffset (scrollTo target w) == innerHeight w * 0.2)%Q)
    /\ ((h <= innerHeight w * 0.2)%Q ->
        (pageYOffset (scrollTo target w) == 0)%Q).
Proof.
  destruct (target_spec h (innerHeight w * 0.2)) as [t [Et [Pt [Lt [Zt Ft]]]]].
  exists t. split; [exact Et |]. split; [exact Pt |]. split.
  - intros Hlow Hreach. rewrite Ft in * by lra.
    unfold scrollTo. cbn [pageYOffset].
    destruct (Qle_bool t 0) eqn:E0.
    + apply Qle_bool_iff in E0. lra.
    + destruct (Qle_bool (scrollHeight w - innerHeight w) t) eqn:E1.
      * apply Qle_bool_iff in E1. lra.
      * lra.
  - intros Hhigh. unfold scrollTo. cbn [pageYOffset].
    assert (E0 : Qle_bool t 0 = true).
    { apply Qle_bool_iff. rewrite Zt by lra. lra. }
    rewrite E0. reflexivity.
Qed.

(** Every clickable mark other than the top mark belongs to a section of
    the page and scrolls to the heading of that section (to the top of the
    section when it has no heading).  The offset it asks for is never
    negative.  If the heading is at least a fifth of the viewport below the
    top of the document and the page can scroll that far, the heading
    stands at a fifth of the viewport height once the scroll has settled;
    if the heading is higher than that, the page goes to its top. *)
Theorem click_lands_heading (trim : string -> string) (w : Window)
  (doc : Document) (marks : list Mark) (m : Mark) (handler : ClickHandler) :
  rulerMarkings (createScrollbarMarkings trim w doc) = Some marks ->
  rulerMarkings doc <> None ->
  In m marks -> onClick m = Some handler -> handler <> ScrollToTop ->
  exists section i,
    nth_error (sections doc) i = Some section
    /\ let heading :=
         match h1 section with
         | Some (_, h1Top) => (h1Top + pageYOffset w)%Q
         | None => (sectionTop section + pageYOffset w)%Q
         end in
       handler = ScrollToH1 heading
       /\ forall w', exists target,
            click w' handler = Fin target
            /\ (0 <= target)%Q
            /\ ((innerHeight w' * 0.2 <= heading)%Q ->
                (heading - innerHeight w' * 0.2
                 <= scrollHeight w' - innerHeight w')%Q ->
                (heading - pageYOffset (scrollTo target w')
                 == innerHeight w' * 0.2)%Q)
            /\ ((heading <= innerHeight w' * 0.2)%Q ->
                (pageYOffset (scrollTo target w') == 0)%Q).
Proof.
  intros Hres Hdoc Hm Hclick Hnot.
  destruct handler as [| h]; [contradiction |].
  destruct (section_mark_handler trim w doc marks m h Hres Hdoc Hm Hclick)
    as [sd [Hsd [Hh _]]].
  destruct (getSectionData_nth trim w doc sd Hsd) as [i [section [Hnth ->]]].
  exists section, i. split; [exact Hnth |]. cbv zeta.
  assert (Hheading :
    h = match h1 section with
        | Some (_, h1Top) => (h1Top + pageYOffset w)%Q
        | None => (sectionTop section + pageYOffset w)%Q
        end).
  { rewrite Hh. unfold sectionDataAt. cbn [h1AbsoluteTop].
    destruct (h1 section) as [[text h1Top] |]; reflexivity. }
  rewrite <- Hheading. split; [reflexivity |].
  intros w'. apply scroll_to_heading.
Qed.

Lemma click_lands_heading_witness :
  rulerMarkings Samples.twoSections <> None
  /\ exists section i,
       nth_error (sections Samples.twoSections) i = Some section.
Proof.
  assert (Hdoc : rulerMarkings Samples.twoSections <> None) by discriminate.
  split; [exact Hdoc |].
  destruct (rulerMarkings
              (createScrollbarMarkings Samples.asIs Samples.tallWindow
                 Samples.twoSections)) as [marks |] eqn:Hres;
    [| discriminate Hres].
  pose (sd := sectionDataAt Samples.asIs Samples.tallWindow 1
                {| sectionTop := 900; h1 := None |}).
  pose (m := majorMark
               (Fin (scrollHeight Samples.tallWindow)
                - Fin (innerHeight Samples.tallWindow))
               (Fin (innerHeight Samples.tallWindow)
                * Fin (targetViewportPosition SCROLLBAR_CONFIG)) sd).
  assert (Hm : In m marks).
  { destruct (createScrollbarMarkings_marks Samples.asIs Samples.tallWindow
                Samples.twoSections marks Hres Hdoc) as [[Hs _] | [_ ->]];
      [discriminate Hs |].
    right. apply in_or_app. left. apply in_map.
    right. left. reflexivity. }
  destruct (click_lands_heading Samples.asIs Samples.tallWindow
              Samples.twoSections marks m (ScrollToH1 (h1AbsoluteTop sd))
              Hres Hdoc Hm eq_refl)
    as [section [i [Hnth _]]]; [discriminate |].
  exists section, i. exact Hnth.
Defined.

(** ** Minor marks keep their distance *)

(** The positions the loop of the minor marks goes through. *)
Lemma minorMarkPosition_range (i : nat) :
  In i (seq 1 (totalMinorMarks - 1)) ->
  exists q, minorMarkPosition i = Fin q /\ (4.35 <= q <= 93.65)%Q.
Proof.
  intros Hi.
  assert (Hall :
    forallb (fun i => match minorMarkPosition i with
                      | Fin q => Qle_bool 4.35 q && Qle_bool q 93.65
                      | _ => false
                      end)
      (seq 1 (totalMinorMarks - 1)) = true) by (vm_compute; reflexivity).
  rewrite forallb_forall in Hall. specialize (Hall i Hi).
  destruct (minorMarkPosition i) as [q | | |]; try discriminate.
  apply andb_true_iff in Hall. destruct Hall as [H1 H2].
  apply Qle_bool_iff in H1. apply Qle_bool_iff in H2.
  exists q. split; [reflexivity | split; assumption].
Qed.

(** The position of a section mark before clamping is at least the
    minimum bound. *)
Lemma majorMarkPosition_least (dh off : Q) (sd : SectionData) :
  exists q, majorMarkPosition (Fin dh) (Fin off) sd = Fin q /\ (2 <= q)%Q.
Proof.
  destruct (Qlt_le_dec 0 dh) as [Hdh | Hdh].
  - destruct (target_spec (h1AbsoluteTop sd) off) as [t [Et [Pt _]]].
    rewrite (majorMarkPosition_scrolling dh off sd t Hdh Et).
    eexists. split; [reflexivity |].
    pose proof (div_nonneg t dh Hdh Pt). lra.
  - pose proof (majorMarkPosition_flat dh off sd Hdh) as Hflat.
    destruct (majorMarkPosition_finite dh off sd) as [q Eq].
    rewrite Eq in *. simpl in Hflat. exists q. split; [reflexivity | lra].
Qed.

Lemma existsb_false {A : Type} (f : A -> bool) (l : list A) :
  existsb f l = false -> forall a, In a l -> f a = false.
Proof.
  induction l as [| b rest IH]; intros H a Ha; [contradiction |].
  cbn [existsb] in H. apply orb_false_iff in H. destruct H as [Hb Hrest].
  destruct Ha as [<- | Ha]; [exact Hb | apply IH; assumption].
Qed.

Lemma minor_mark_of (dh off : num) (sl : list SectionData) (m : Mark) :
  In m (minorMarks dh off sl) ->
  exists i, In i (seq 1 (totalMinorMarks - 1))
            /\ tooCloseToMajor dh off sl i = false
            /\ m = minorMark i.
Proof.
  unfold minorMarks. intros Hm. apply in_map_iff in Hm.
  destruct Hm as [i [<- Hi]]. apply filter_In in Hi. destruct Hi as [Hi Hfar].
  exists i. repeat split; [exact Hi |].
  destruct (tooCloseToMajor dh off sl i); [discriminate | reflexivity].
Qed.

Lemma far_from_top (mq : Q) :
  (4.35 <= mq <= 93.65)%Q ->
  (Math_abs (Fin mq - Fin 2) >=? Fin 2) = true.
Proof.
  intros Hmq. cbn [sub add neg Math_abs]. apply ge_Fin.
  rewrite Qabs_pos; lra.
Qed.

Lemma far_from_section (dh off mq : Q) (sl : list SectionData)
  (sd : SectionData) (i : nat) :
  minorMarkPosition i = Fin mq -> (4.35 <= mq <= 93.65)%Q ->
  tooCloseToMajor (Fin dh) (Fin off) sl i = false -> In sd sl ->
  (Math_abs (Fin mq - clampPosition (majorMarkPosition (Fin dh) (Fin off) sd))
   >=? Fin 2) = true.
Proof.
  intros Emq Hmq Hfar Hsd.
  destruct (majorMarkPosition_least dh off sd) as [q [Eq Hq]].
  assert (Hdist : (2 <= Qabs (mq - q))%Q).
  { unfold tooCloseToMajor in Hfar.
    pose proof (existsb_false _ _ Hfar sd Hsd) as H.
    cbv beta zeta in H. rewrite Emq, Eq in H.
    cbn [sub add neg Math_abs] in H.
    destruct (Qlt_le_dec (Qabs (mq + - q)) 2) as [Hlt | Hge]; [| exact Hge].
    apply lt_Fin in Hlt. congruence. }
  rewrite Eq. destruct (clampPosition_spec q) as [c [-> Hcl]].
  cbn [sub add neg Math_abs]. apply ge_Fin.
  destruct Hcl as [[H1 H2] | [[H1 H2] | [H1 H2]]].
  - rewrite H2. setoid_replace q with 2%Q in Hdist by lra. exact Hdist.
  - rewrite H2. exact Hdist.
  - rewrite H2. rewrite Qabs_neg; lra.
Qed.

(** No minor mark is placed within two percent of the track of a
    clickable mark, be it the top mark or the mark of a section. *)
Theorem minor_marks_keep_distance (trim : string -> string) (w : Window)
  (doc : Document) (marks : list Mark) (minor major : Mark) :
  rulerMarkings (createScrollbarMarkings trim w doc) = Some marks ->
  rulerMarkings doc <> None ->
  In minor marks -> isClickable minor = false ->
  In major marks -> isClickable major = true ->
  (Math_abs (markTop minor - markTop major) >=? Fin 2) = true.
Proof.
  intros Hres Hdoc Hminor Hnc Hmajor Hc.
  destruct (createScrollbarMarkings_marks trim w doc marks Hres Hdoc)
    as [[_ ->] | [_ ->]]; [contradiction |].
  assert (Hmin : In minor
                   (minorMarks (Fin (scrollHeight w) - Fin (innerHeight w))
                      (Fin (innerHeight w)
                       * Fin (targetViewportPosition SCROLLBAR_CONFIG))
                      (getSectionData trim w doc))).
  { destruct Hminor as [<- | Hminor]; [discriminate |].
    apply in_app_or in Hminor. destruct Hminor as [Hminor | Hminor];
      [| exact Hminor].
    apply in_map_iff in Hminor. destruct Hminor as [sd [<- _]]. discriminate. }
  destruct (minor_mark_of _ _ _ _ Hmin) as [i [Hi [Hfar ->]]].
  destruct (minorMarkPosition_range i Hi) as [mq [Emq Hmq]].
  assert (Etop : markTop (minorMark i) = Fin mq) by exact Emq.
  rewrite Etop.
  destruct Hmajor as [<- | Hmajor]; [apply far_from_top, Hmq |].
  apply in_app_or in Hmajor. destruct Hmajor as [Hmajor | Hmajor].
  - apply in_map_iff in Hmajor. destruct Hmajor as [sd [<- Hsd]].
    exact (far_from_section (scrollHeight w + - innerHeight w)
             (innerHeight w * 0.2) mq _ sd i Emq Hmq Hfar Hsd).
  - unfold isClickable in Hc.
    rewrite (minorMarks_not_clickable _ _ _ _ Hmajor) in Hc. discriminate.
Qed.

Lemma minor_marks_keep_distance_witness :
  rulerMarkings Samples.twoSections <> None
  /\ (Math_abs (markTop (minorMark 20) - markTop topMark) >=? Fin 2) = true.
Proof.
  assert (Hdoc : rulerMarkings Samples.twoSections <> None) by discriminate.
  split; [exact Hdoc |].
  destruct (rulerMarkings
              (createScrollbarMarkings Samples.asIs Samples.tallWindow
                 Samples.twoSections)) as [marks |] eqn:Hres;
    [| discriminate Hres].
  assert (Hshape :
    marks = (topMark
             :: map (majorMark
                       (Fin (scrollHeight Samples.tallWindow)
                        - Fin (innerHeight Samples.tallWindow))
                       (Fin (innerHeight Samples.tallWindow)
                        * Fin (targetViewportPosition SCROLLBAR_CONFIG)))
                  (getSectionData Samples.asIs Samples.tallWindow
                     Samples.twoSections)
             ++ minorMarks
                  (Fin (scrollHeight Samples.tallWindow)
                   - Fin (innerHeight Samples.tallWindow))
                  (Fin (innerHeight Samples.tallWindow)
                   * Fin (targetViewportPosition SCROLLBAR_CONFIG))
                  (getSectionData Samples.asIs Samples.tallWindow
                     Samples.twoSections))%list).
  { destruct (createScrollbarMarkings_marks Samples.asIs Samples.tallWindow
                Samples.twoSections marks Hres Hdoc) as [[Hs _] | [_ H]];
      [discriminate Hs | exact H]. }
  apply (minor_marks_keep_distance Samples.asIs Samples.tallWindow
           Samples.twoSections marks (minorMark 20) topMark Hres Hdoc).
  - rewrite Hshape. right. apply in_or_app. right.
    unfold minorMarks. apply in_map. apply filter_In. split.
    + apply in_seq. cbv. split; repeat constructor.
    + vm_compute. reflexivity.
  - reflexivity.
  - rewrite Hshape. left. reflexivity.
  - reflexivity.
Defined.

End CustomScrollbarMore.

(* ================================================================== *)
(** * Class lists *)
(* ================================================================== *)

Module ClassListFacts.
Import Browser.

Lemma contains_remove (name : string) (names classes : list string) :
  classList_contains name (classList_remove names classes)
  = classList_contains name classes && negb (existsb (String.eqb name) names).
Proof.
  unfold classList_contains, classList_remove.
  induction classes as [| c rest IH]; [reflexivity |].
  cbn [filter existsb].
  destruct (String.eqb_spec name c) as [<- | Hne].
  - destruct (existsb (String.eqb name) names); cbn [negb existsb orb andb].
    + rewrite IH. apply andb_false_r.
    + rewrite String.eqb_refl. reflexivity.
  - destruct (existsb (String.eqb c) names); cbn [negb existsb orb].
    + exact IH.
    + apply String.eqb_neq in Hne. rewrite Hne. exact IH.
Qed.

Lemma contains_add (name : string) (names : list string) :
  forall classes,
    classList_contains name (classList_add names classes)
    = classList_contains name classes || existsb (String.eqb name) names.
Proof.
  unfold classList_contains.
  induction names as [| n rest IH]; intros classes; cbn [classList_add existsb].
  - rewrite orb_false_r. reflexivity.
  - rewrite IH. destruct (existsb (String.eqb n) classes) eqn:Ein.
    + destruct (String.eqb_spec name n) as [-> | Hne]; cbn [orb].
      * rewrite Ein. reflexivity.
      * reflexivity.
    + rewrite existsb_app. cbn [existsb]. rewrite orb_false_r, orb_assoc.
      reflexivity.
Qed.

End ClassListFacts.

(* ================================================================== *)
(** * More on the title box (titleBoxing.js) *)
(* ================================================================== *)

Module TitleBoxingMore.
Import JSNumber JSNumberFacts Browser TitleBoxing TitleBoxingSpec ClassListFacts.
Local Open Scope num_scope.

(** ** The progress on a page that scrolls *)

(** With something to scroll and an offset that is not negative, the
    progress of the controller is a number of [0,1]: the offset over the
    scrollable height, or 1 beyond it. *)
Theorem calculateScrollProgress_scrolling (w : Window) :
  (innerHeight w < scrollHeight w)%Q -> (0 <= pageYOffset w)%Q ->
  exists p,
    calculateScrollProgress w = Fin p
    /\ (0 <= p <= 1)%Q
    /\ ((pageYOffset w <= scrollHeight w - innerHeight w)%Q ->
        (p == pageYOffset w / (scrollHeight w - innerHeight w))%Q)
    /\ ((scrollHeight w - innerHeight w <= pageYOffset w)%Q -> (p == 1)%Q).
Proof.
  intros Hdh Hy. unfold calculateScrollProgress.
  change (Fin (scrollHeight w) - Fin (innerHeight w))
    with (Fin (scrollHeight w + - innerHeight w)).
  unfold div, sgn.
  destruct (Qcompare_spec (scrollHeight w + - innerHeight w) 0); try lra.
  set (u := (pageYOffset w / (scrollHeight w + - innerHeight w))%Q).
  assert (Hu0 : (0 <= u)%Q) by (apply Qle_shift_div_l; lra).
  assert (Hu1 : (pageYOffset w <= scrollHeight w - innerHeight w)%Q ->
                (u <= 1)%Q).
  { intros Hsmall. apply Qle_shift_div_r; unfold Qminus in *; lra. }
  assert (Hu2 : (scrollHeight w - innerHeight w <= pageYOffset w)%Q ->
                (1 <= u)%Q).
  { intros Hbig. apply Qle_shift_div_l; unfold Qminus in *; lra. }
  assert (Hu : (u == pageYOffset w / (scrollHeight w - innerHeight w))%Q)
    by (unfold Qminus; subst u; reflexivity).
  unfold Math_min, cmp.
  destruct (Qcompare_spec 1 u) as [Heq | Hlt | Hgt];
    eexists; (split; [reflexivity |]).
  - split; [lra |]. split; intros Hcase; [| reflexivity].
    rewrite <- Hu. exact Heq.
  - split; [lra |]. split; intros Hcase; [| reflexivity].
    specialize (Hu1 Hcase). lra.
  - split; [lra |]. split; intros Hcase; [exact Hu |].
    specialize (Hu2 Hcase). lra.
Qed.

Lemma calculateScrollProgress_scrolling_witness :
  (innerHeight Samples.tallWindow < scrollHeight Samples.tallWindow)%Q
  /\ (0 <= pageYOffset Samples.tallWindow)%Q
  /\ exists p, calculateScrollProgress Samples.tallWindow = Fin p.
Proof.
  assert (H1 : (innerHeight Samples.tallWindow
                < scrollHeight Samples.tallWindow)%Q) by reflexivity.
  assert (H2 : (0 <= pageYOffset Samples.tallWindow)%Q) by discriminate.
  split; [exact H1 |]. split; [exact H2 |].
  destruct (calculateScrollProgress_scrolling Samples.tallWindow H1 H2)
    as [p [Hp _]].
  exists p. exact Hp.
Defined.

(** ** Phases in the order of the page *)

(** The branch taken, by the place of a finite progress among the
    thresholds. *)
Lemma branch_cases (q : Q) :
  ((q < 0.01)%Q /\ selectBranch (Fin q) = Some IdleBranch)
  \/ ((0.01 <= q < 0.13)%Q /\ selectBranch (Fin q) = Some BoxingBranch)
  \/ ((0.13 <= q < 0.4)%Q /\ selectBranch (Fin q) = Some MovementBranch)
  \/ ((0.4 <= q)%Q /\ selectBranch (Fin q) = Some ScrollableBranch).
Proof.
  unfold selectBranch, branchCondition, ge, lt, cmp. simpl.
  destruct (Qcompare_spec q 0.01), (Qcompare_spec q 0.13),
    (Qcompare_spec q 0.4); try lra;
    first [ left; split; [lra | reflexivity]
          | right; left; split; [lra | reflexivity]
          | right; right; left; split; [lra | reflexivity]
          | right; right; right; split; [lra | reflexivity] ].
Qed.

Lemma rank_follows_progress (p1 p2 : num) (br1 br2 : Branch) :
  (p1 <=? p2) = true ->
  selectBranch p1 = Some br1 -> selectBranch p2 = Some br2 ->
  (phaseRank (phaseOf br1) <= phaseRank (phaseOf br2))%nat.
Proof.
  intros Hle H1 H2.
  destruct p1 as [q1 | | |], p2 as [q2 | | |]; try discriminate;
    try (injection H1 as <-); try (injection H2 as <-);
    try (simpl; lia).
  - apply le_Fin in Hle.
    destruct (branch_cases q1) as [[B1 E1] | [[B1 E1] | [[B1 E1] | [B1 E1]]]];
      destruct (branch_cases q2) as [[B2 E2] | [[B2 E2] | [[B2 E2] | [B2 E2]]]];
      rewrite E1 in H1; rewrite E2 in H2;
      injection H1 as <-; injection H2 as <-; simpl; try lia; lra.
  - destruct (branch_cases q1) as [[B1 E1] | [[B1 E1] | [[B1 E1] | [B1 E1]]]];
      rewrite E1 in H1; injection H1 as <-; simpl; lia.
Qed.

(** Further down the page the phase is never an earlier one: if the
    progress at one window is at most the progress at another, the phase
    set at the first is not after the phase set at the second, in the order
    idle, boxing, boxed, moved, scrollable. *)
Theorem phase_follows_progress (w1 w2 : Window) (st1 st2 : AnimationState)
  (box1 box2 : TitleBox) :
  isInitialized st1 = true -> titleBox st1 = Some box1 ->
  isInitialized st2 = true -> titleBox st2 = Some box2 ->
  (calculateScrollProgress w1 <=? calculateScrollProgress w2) = true ->
  (phaseRank (currentPhase (updateTitleBoxing w1 st1))
   <= phaseRank (currentPhase (updateTitleBoxing w2 st2)))%nat.
Proof.
  intros Hi1 Hb1 Hi2 Hb2 Hle.
  rewrite (updateTitleBoxing_phase w1 st1 box1 Hi1 Hb1).
  rewrite (updateTitleBoxing_phase w2 st2 box2 Hi2 Hb2).
  assert (Hn1 : isNaN (calculateScrollProgress w1) = false).
  { destruct (calculateScrollProgress w1); try reflexivity. discriminate Hle. }
  assert (Hn2 : isNaN (calculateScrollProgress w2) = false).
  { destruct (calculateScrollProgress w2); try reflexivity.
    destruct (calculateScrollProgress w1); discriminate Hle. }
  assert (Hsel : forall p, isNaN p = false -> exists br, selectBranch p = Some br).
  { intros p Hp. destruct p as [q | | |]; try discriminate.
    - destruct (branch_cases q) as [[_ E] | [[_ E] | [[_ E] | [_ E]]]];
        rewrite E; eexists; reflexivity.
    - eexists; reflexivity.
    - eexists; reflexivity. }
  destruct (Hsel _ Hn1) as [br1 E1]. destruct (Hsel _ Hn2) as [br2 E2].
  rewrite E1, E2. exact (rank_follows_progress _ _ br1 br2 Hle E1 E2).
Qed.

Lemma phase_follows_progress_witness :
  (calculateScrollProgress Samples.atTenth
   <=? calculateScrollProgress Samples.atHalf) = true
  /\ (phaseRank (currentPhase
                   (updateTitleBoxing Samples.atTenth Samples.readyController))
      <= phaseRank (currentPhase
                      (updateTitleBoxing Samples.atHalf
                         Samples.readyController)))%nat.
Proof.
  split; [reflexivity |].
  apply (phase_follows_progress Samples.atTenth Samples.atHalf
           Samples.readyController Samples.readyController
           Samples.plainBox Samples.plainBox); reflexivity.
Defined.

(** ** Classes and phases *)

(** The element and the phase after an update that takes a branch. *)
Lemma updateTitleBoxing_branch (w : Window) (st : AnimationState)
  (box : TitleBox) (br : Branch) :
  isInitialized st = true -> titleBox st = Some box ->
  selectBranch (calculateScrollProgress w) = Some br ->
  updateTitleBoxing w st
  = {| isInitialized := true;
       titleBox :=
         Some (fst (runBranch br w (calculateScrollProgress w)
                      (currentPhase st) box));
       currentPhase := phaseOf br |}.
Proof.
  intros Hi Hb Hsel. unfold updateTitleBoxing. rewrite Hi, Hb, Hsel.
  rewrite <- (runBranch_phase br w (calculateScrollProgress w)
                (currentPhase st) box).
  destruct (runBranch br w (calculateScrollProgress w) (currentPhase st) box).
  reflexivity.
Qed.

(** After every update that takes a branch the class list tells the
    phase, whatever classes the element had before: 'scrollable' and
    'moved-to-top' are on the element exactly in the scrollable phase,
    'boxed' exactly from the boxed phase on, and 'boxing' is there in the
    boxing phase and gone in the idle phase. *)
Theorem classes_reflect_phase (w : Window) (st : AnimationState)
  (box : TitleBox) (br : Branch) :
  isInitialized st = true -> titleBox st = Some box ->
  selectBranch (calculateScrollProgress w) = Some br ->
  exists box',
    titleBox (updateTitleBoxing w st) = Some box'
    /\ classList_contains "scrollable" (classList box')
       = (phaseRank (currentPhase (updateTitleBoxing w st)) =? 4)%nat
    /\ classList_contains "moved-to-top" (classList box')
       = (phaseRank (currentPhase (updateTitleBoxing w st)) =? 4)%nat
    /\ classList_contains "boxed" (classList box')
       = (2 <=? phaseRank (currentPhase (updateTitleBoxing w st)))%nat
    /\ (currentPhase (updateTitleBoxing w st) = boxing ->
        classList_contains "boxing" (classList box') = true)
    /\ (currentPhase (updateTitleBoxing w st) = idle ->
        classList_contains "boxing" (classList box') = false).
Proof.
  intros Hi Hb Hsel.
  rewrite (updateTitleBoxing_branch w st box br Hi Hb Hsel).
  eexists. split; [reflexivity |]. cbn [currentPhase].
  destruct br; cbn [runBranch fst classList withFixedCenter phaseOf phaseRank];
    rewrite ?contains_remove, ?contains_add;
    cbn [existsb String.eqb Ascii.eqb Bool.eqb negb orb andb Nat.eqb Nat.leb];
    rewrite ?andb_false_r, ?orb_true_r, ?andb_true_r, ?orb_false_r;
    repeat split; try reflexivity; try discriminate.
Qed.

Lemma classes_reflect_phase_witness :
  selectBranch (calculateScrollProgress Samples.atHalf) = Some ScrollableBranch
  /\ exists box',
       titleBox (updateTitleBoxing Samples.atHalf Samples.readyController)
       = Some box'
       /\ classList_contains "scrollable" (classList box') = true.
Proof.
  split; [reflexivity |].
  destruct (classes_reflect_phase Samples.atHalf Samples.readyController
              Samples.plainBox ScrollableBranch eq_refl eq_refl eq_refl)
    as [box' [Hbox [Hs _]]].
  exists box'. split; [exact Hbox | exact Hs].
Defined.

(** ** What is drawn in the boxing and in the movement phase *)

(** In the boxing phase the box is fixed at the center of the viewport and
    its fill opacity is the linear share of the way from 0.01 to 0.13 that
    the progress has gone: it starts at 0 and stays below 1. *)
Theorem boxing_fill_is_linear (w : Window) (st : AnimationState)
  (box : TitleBox) (q : Q) :
  isInitialized st = true -> titleBox st = Some box ->
  calculateScrollProgress w = Fin q -> (0.01 <= q < 0.13)%Q ->
  exists box' fill,
    updateTitleBoxing w st
    = {| isInitialized := true; titleBox := Some box';
         currentPhase := boxing |}
    /\ fillOpacity box' = Some (Fin fill)
    /\ (fill == (q - 0.01) / 0.12)%Q
    /\ (0 <= fill < 1)%Q
    /\ stylePosition box' = Some "fixed"
    /\ styleTransform box' = Some TranslateCenter.
Proof.
  intros Hi Hb Hq Hrange.
  assert (Hsel : selectBranch (calculateScrollProgress w) = Some BoxingBranch).
  { rewrite Hq.
    destruct (branch_cases q) as [[B E] | [[B E] | [[B E] | [B E]]]];
      try lra; exact E. }
  rewrite (updateTitleBoxing_branch w st box BoxingBranch Hi Hb Hsel), Hq.
  cbn [runBranch fst phaseOf].
  set (f := ((q + - 0.01) / (0.13 + - 0.01))%Q).
  assert (Hf : (f == (q - 0.01) / 0.12)%Q).
  { subst f. unfold Qminus. field. }
  assert (Hf0 : (0 <= f)%Q).
  { subst f. apply Qle_shift_div_l; [reflexivity | lra]. }
  assert (Hf1 : (f < 1)%Q).
  { subst f. apply Qlt_shift_div_r; [reflexivity | lra]. }
  assert (Hfill :
    Math_min
      (Math_max
         ((Fin q - Fin (boxingStartPercent TITLE_BOX_CONFIG))
          / (Fin (boxingEndPercent TITLE_BOX_CONFIG)
             - Fin (boxingStartPercent TITLE_BOX_CONFIG)))
         (Fin 0))
      (Fin 1) = Fin f).
  { change ((Fin q - Fin (boxingStartPercent TITLE_BOX_CONFIG))
            / (Fin (boxingEndPercent TITLE_BOX_CONFIG)
               - Fin (boxingStartPercent TITLE_BOX_CONFIG)))
      with (Fin f).
    unfold Math_max, Math_min, cmp.
    destruct (Qcompare_spec f 0); try lra;
      destruct (Qcompare_spec f 1); try lra;
      try (destruct (Qcompare_spec 0 1); try lra); reflexivity. }
  eexists. exists f. split; [reflexivity |].
  cbn [fillOpacity withFixedCenter stylePosition styleTransform].
  rewrite Hfill. repeat split; try assumption.
Qed.

Lemma boxing_fill_is_linear_witness :
  calculateScrollProgress Samples.atTenth = Fin (320 / (4000 + - 800))
  /\ (0.01 <= 320 / (4000 + - 800) < 0.13)%Q
  /\ exists box' fill,
       updateTitleBoxing Samples.atTenth Samples.readyController
       = {| isInitialized := true; titleBox := Some box';
            currentPhase := boxing |}
       /\ fillOpacity box' = Some (Fin fill).
Proof.
  assert (Hq : calculateScrollProgress Samples.atTenth
               = Fin (320 / (4000 + - 800))) by reflexivity.
  assert (Hr : (0.01 <= 320 / (4000 + - 800) < 0.13)%Q).
  { split; [discriminate | reflexivity]. }
  split; [exact Hq |]. split; [exact Hr |].
  destruct (boxing_fill_is_linear Samples.atTenth Samples.readyController
              Samples.plainBox _ eq_refl eq_refl Hq Hr)
    as [box' [fill [Hupd [Hfill _]]]].
  exists box', fill. split; assumption.
Defined.

(** In the movement phase the box is translated to a height between the
    center of the viewport, where it stood while fixed, and 32 px from the
    top of the document, and scaled by a factor above 0.7 and at most 1.
    At the threshold 0.13 the translation is the center itself and the
    scale is 1, so the box does not jump when the phase begins.  On the
    first update of the phase the element becomes absolutely positioned
    and its transitions are switched off. *)
Theorem movement_is_between (w : Window) (st : AnimationState)
  (box : TitleBox) (q : Q) :
  isInitialized st = true -> titleBox st = Some box ->
  calculateScrollProgress w = Fin q -> (0.13 <= q < 0.4)%Q ->
  exists box' y scale,
    updateTitleBoxing w st
    = {| isInitialized := true; titleBox := Some box';
         currentPhase := moved |}
    /\ styleTransform box' = Some (TranslateScale (Fin y) (Fin scale))
    /\ (0.7 < scale <= 1)%Q
    /\ ((centerY w box <= y <= 32)%Q \/ (32 <= y <= centerY w box)%Q)
    /\ ((q == 0.13)%Q -> (y == centerY w box)%Q /\ (scale == 1)%Q)
    /\ (currentPhase st <> moved ->
        stylePosition box' = Some "absolute"
        /\ styleTransition box' = Some "none").
Proof.
  intros Hi Hb Hq Hrange.
  assert (Hsel : selectBranch (calculateScrollProgress w) = Some MovementBranch).
  { rewrite Hq.
    destruct (branch_cases q) as [[B E] | [[B E] | [[B E] | [B E]]]];
      try lra; exact E. }
  rewrite (updateTitleBoxing_branch w st box MovementBranch Hi Hb Hsel), Hq.
  cbn [runBranch fst phaseOf].
  set (m := ((q + - 0.13) / (0.4 + - 0.13))%Q).
  assert (Hm0 : (0 <= m)%Q).
  { subst m. apply Qle_shift_div_l; [reflexivity | lra]. }
  assert (Hm1 : (m < 1)%Q).
  { subst m. apply Qlt_shift_div_r; [reflexivity | lra]. }
  assert (Hmstart : (q == 0.13)%Q -> (m == 0)%Q).
  { intros E. subst m. rewrite E. reflexivity. }
  change ((Fin q - Fin (moveStartPercent TITLE_BOX_CONFIG))
          / (Fin (makeScrollablePercent TITLE_BOX_CONFIG)
             - Fin (moveStartPercent TITLE_BOX_CONFIG)))
    with (Fin m).
  cbn [add sub neg mul].
  eexists. eexists. eexists. split; [reflexivity |].
  cbn [styleTransform stylePosition styleTransition].
  split; [reflexivity |].
  unfold centerY, Qminus.
  set (c := (pageYOffset w + innerHeight w * 0.5
             + - (offsetHeight box * 0.5))%Q).
  split; [split; lra |]. split.
  - destruct (Qlt_le_dec c 32) as [Hc | Hc]; [left | right]; split; nra.
  - split.
    + intros E. specialize (Hmstart E). split.
      * rewrite Hmstart. ring.
      * rewrite Hmstart. ring.
    + intros Hphase. destruct (currentPhase st); try contradiction;
        split; reflexivity.
Qed.

Lemma movement_is_between_witness :
  calculateScrollProgress Samples.atFifth = Fin (640 / (4000 + - 800))
  /\ (0.13 <= 640 / (4000 + - 800) < 0.4)%Q
  /\ exists box',
       updateTitleBoxing Samples.atFifth Samples.readyController
       = {| isInitialized := true; titleBox := Some box';
            currentPhase := moved |}.
Proof.
  assert (Hq : calculateScrollProgress Samples.atFifth
               = Fin (640 / (4000 + - 800))) by reflexivity.
  assert (Hr : (0.13 <= 640 / (4000 + - 800) < 0.4)%Q).
  { split; [discriminate | reflexivity]. }
  split; [exact Hq |]. split; [exact Hr |].
  destruct (movement_is_between Samples.atFifth Samples.readyController
              Samples.plainBox _ eq_refl eq_refl Hq Hr)
    as [box' [y [scale [Hupd _]]]].
  exists box'. exact Hupd.
Defined.

End TitleBoxingMore.

(* ================================================================== *)
(** * The controller with three phases (titleBoxing.js) *)
(* ================================================================== *)

Module TitleBoxingLegacyMore.
Import JSNumber JSNumberFacts Browser TitleBoxingLegacy ClassListFacts.
Local Open Scope num_scope.

(** For a progress that is a finite number the controller sets one of its
    three phases by the thresholds 0.01 and 0.1 (idle below 0.01, boxed
    from 0.01 up to 0.1, moved from 0.1 on), and the class list tells the
    phase whatever classes the element had: 'boxed' is on the element
    exactly when the phase is not idle, 'moved-to-top' exactly when it is
    moved. *)
Theorem three_phases_and_their_classes (w : Window) (st : AnimationState)
  (classes : list string) (q : Q) :
  isInitialized st = true -> titleBox st = Some classes ->
  calculateScrollProgress w = Fin q ->
  exists classes',
    isInitialized (updateTitleBoxing w st) = true
    /\ titleBox (updateTitleBoxing w st) = Some classes'
    /\ ((q < 0.01)%Q -> currentPhase (updateTitleBoxing w st) = idle)
    /\ ((0.01 <= q < 0.1)%Q -> currentPhase (updateTitleBoxing w st) = boxed)
    /\ ((0.1 <= q)%Q -> currentPhase (updateTitleBoxing w st) = moved)
    /\ classList_contains "boxed" classes'
       = match currentPhase (updateTitleBoxing w st) with
         | idle => false
         | _ => true
         end
    /\ classList_contains "moved-to-top" classes'
       = match currentPhase (updateTitleBoxing w st) with
         | moved => true
         | _ => false
         end.
Proof.
  intros Hi Hb Hq. unfold updateTitleBoxing. rewrite Hi, Hb, Hq.
  unfold lt, ge, cmp.
  cbn [boxingStartPercent moveStartPercent TITLE_BOX_CONFIG].
  destruct (Qcompare_spec q 0.01), (Qcompare_spec q 0.1); try lra;
    cbn [andb]; eexists; (split; [reflexivity |]); (split; [reflexivity |]);
    cbn [currentPhase];
    rewrite ?contains_remove, ?contains_add;
    cbn [existsb String.eqb Ascii.eqb Bool.eqb negb orb andb];
    rewrite ?andb_false_r, ?orb_true_r, ?andb_true_r, ?orb_false_r;
    repeat split; intros; try reflexivity; try lra.
Qed.

Lemma three_phases_and_their_classes_witness :
  calculateScrollProgress Samples.atFifth = Fin (640 / (4000 + - 800))
  /\ exists classes',
       titleBox
         (updateTitleBoxing Samples.atFifth
            {| isInitialized := true; titleBox := Some ["title"];
               currentPhase := idle |})
       = Some classes'
       /\ classList_contains "moved-to-top" classes' = true.
Proof.
  assert (Hq : calculateScrollProgress Samples.atFifth
               = Fin (640 / (4000 + - 800))) by reflexivity.
  split; [exact Hq |].
  destruct (three_phases_and_their_classes Samples.atFifth
              {| isInitialized := true; titleBox := Some ["title"];
                 currentPhase := idle |}
              ["title"] _ eq_refl eq_refl Hq)
    as [classes' [_ [Hbox [_ [_ [_ [_ Hmoved]]]]]]].
  exists classes'. split; [exact Hbox | exact Hmoved].
Defined.

End TitleBoxingLegacyMore.

(* ================================================================== *)
(** * More on the panels (panelAnimations.js) *)
(* ================================================================== *)

Module PanelAnimationsMore.
Import JSNumber JSNumberFacts Browser PanelAnimations PanelAnimationsSpec.
Import ClassListFacts.
Local Open Scope num_scope.

(** ** Opacity and divider *)

(** The progress of a panel at a viewport height that is not negative. *)
Lemma animationProgress_within (rect : DOMRect) (vh : num) :
  (vh <? Fin 0) = false ->
  within 0 1 (animationProgress (calculatePanelAnimation rect vh)).
Proof.
  intros Hvh. unfold calculatePanelAnimation. cbn [animationProgress].
  destruct vh as [v | | |]; try discriminate.
  3:{ change (Fin (top rect) <? NaN) with false. rewrite andb_false_r.
      apply within_Fin. lra. }
  all: destruct ((Fin (bottom rect)
                  >? Fin (visibilityThreshold PANEL_ANIMATION_CONFIG))
                 && (Fin (top rect) <? _)); [| apply within_Fin; lra].
  - assert (Hv : (0 <= v)%Q).
    { destruct (Qlt_le_dec v 0) as [H | H]; [| exact H].
      apply lt_Fin in H. congruence. }
    change (Fin v / Fin 2) with (Fin (v / 2)).
    change (Fin (top rect) + Fin (height rect) / Fin 2)
      with (Fin (top rect + height rect / 2)).
    set (c := (top rect + height rect / 2)%Q).
    destruct (Fin c >? Fin (v / 2)) eqn:Hbelow; [| apply within_Fin; lra].
    apply gt_Fin in Hbelow.
    change (Fin c - Fin (v / 2)) with (Fin (c + - (v / 2))).
    change (Fin v - Fin (v / 2)) with (Fin (v + - (v / 2))).
    assert (Hhalf : (v + - (v / 2) == v / 2)%Q) by field.
    assert (Hhalf0 : (0 <= v / 2)%Q) by (apply Qle_shift_div_l; lra).
    unfold div, sgn.
    destruct (Qcompare_spec (v + - (v / 2)) 0) as [E | E | E]; try lra.
    + destruct (Qcompare_spec (c + - (v / 2)) 0); try lra.
      apply within_Fin. simpl. lra.
    + assert (Hd : (0 < (c + - (v / 2)) / (v + - (v / 2)))%Q).
      { apply Qlt_shift_div_l; lra. }
      cbn [sub add neg]. unfold Math_max, cmp.
      destruct (Qcompare_spec 0 (1 + - ((c + - (v / 2)) / (v + - (v / 2)))));
        apply within_Fin; lra.
  - apply within_Fin. simpl. lra.
Qed.

(** What [updatePanel] writes for the opacity and the divider. *)
Lemma updatePanel_styles (vh : num) (rect : DOMRect) (p : Panel) :
  let progress := animationProgress (calculatePanelAnimation rect vh) in
  styleOpacity (fst (updatePanel vh rect p))
  = Some (Fin (minOpacity PANEL_ANIMATION_CONFIG)
          + progress * Fin (opacityRange PANEL_ANIMATION_CONFIG))
  /\ dividerWidth (fst (updatePanel vh rect p))
     = match dividerWidth p with
       | None => None
       | Some _ =>
           Some (Some (progress
                       * Fin (dividerAnimationSpeed PANEL_ANIMATION_CONFIG)))
       end.
Proof.
  cbv zeta. unfold updatePanel, updatePanelLinks, updatePanelDivider,
    updatePanelOpacity.
  cbn [dividerWidth].
  destruct (dividerWidth p);
    destruct (isOffScreen (calculatePanelAnimation rect vh));
    cbn [fst styleOpacity dividerWidth linksAnimated];
    try (split; reflexivity);
    match goal with
    | |- context [if ?c then _ else _] => destruct c
    end; split; reflexivity.
Qed.

(** For every panel position and every viewport height that is not
    negative, the opacity written is within the configured band from
    [minOpacity] to [maxOpacity] and the width of the divider, when the
    panel has one, is between 0 and 100 percent. *)
Theorem panel_styles_within_bands (vh : num) (rect : DOMRect) (p : Panel) :
  (vh <? Fin 0) = false ->
  (exists opacity,
     styleOpacity (fst (updatePanel vh rect p)) = Some (Fin opacity)
     /\ (minOpacity PANEL_ANIMATION_CONFIG <= opacity
         <= maxOpacity PANEL_ANIMATION_CONFIG)%Q)
  /\ (dividerWidth p <> None ->
      exists width,
        dividerWidth (fst (updatePanel vh rect p)) = Some (Some (Fin width))
        /\ (0 <= width <= 100)%Q).
Proof.
  intros Hvh.
  destruct (updatePanel_styles vh rect p) as [Ho Hd].
  destruct (animationProgress_within rect vh Hvh) as [a [Ha Hb]].
  rewrite Ha in Ho, Hd. split.
  - eexists. split; [exact Ho |]. simpl. lra.
  - intros Hdiv. destruct (dividerWidth p); [| contradiction].
    eexists. split; [exact Hd |]. simpl. lra.
Qed.

Lemma panel_styles_within_bands_witness :
  (Fin 800 <? Fin 0) = false
  /\ exists opacity,
       styleOpacity
         (fst (updatePanel (Fin 800)
                 {| top := 700; bottom := 1100; height := 400 |}
                 (panel Samples.animatedPanel)))
       = Some (Fin opacity)
       /\ (minOpacity PANEL_ANIMATION_CONFIG <= opacity
           <= maxOpacity PANEL_ANIMATION_CONFIG)%Q.
Proof.
  split; [reflexivity |].
  apply (panel_styles_within_bands (Fin 800)
           {| top := 700; bottom := 1100; height := 400 |}
           (panel Samples.animatedPanel)).
  reflexivity.
Defined.

(** A panel that is off screen is not visible. *)
Lemma offScreen_not_visible (rect : DOMRect) (vh : num) :
  isOffScreen (calculatePanelAnimation rect vh) = true ->
  isVisible (calculatePanelAnimation rect vh) = false.
Proof.
  unfold calculatePanelAnimation. cbn [isVisible isOffScreen].
  intros H. apply orb_true_iff in H. apply andb_false_iff.
  destruct H as [H | H].
  - right. unfold gt in H. unfold lt.
    destruct (cmp (Fin (top rect)) vh) as [[| |] |];
      try discriminate; reflexivity.
  - left. unfold lt in H. unfold gt.
    change (visibilityThreshold PANEL_ANIMATION_CONFIG)
      with (resetThreshold PANEL_ANIMATION_CONFIG).
    destruct (cmp (Fin (bottom rect))
                (Fin (resetThreshold PANEL_ANIMATION_CONFIG)))
      as [[| |] |]; try discriminate; reflexivity.
Qed.

(** The two ends of the band: a panel found fully visible is drawn at the
    maximum opacity with its divider at full width; a panel found off
    screen is drawn at the minimum opacity with a divider of width zero. *)
Theorem panel_styles_at_the_ends (vh : num) (rect : DOMRect) (p : Panel)
  (width : option num) :
  dividerWidth p = Some width ->
  (isFullyVisible (calculatePanelAnimation rect vh) = true ->
   styleOpacity (fst (updatePanel vh rect p))
   = Some (Fin (minOpacity PANEL_ANIMATION_CONFIG
                + 1 * opacityRange PANEL_ANIMATION_CONFIG))
   /\ (minOpacity PANEL_ANIMATION_CONFIG
       + 1 * opacityRange PANEL_ANIMATION_CONFIG
       == maxOpacity PANEL_ANIMATION_CONFIG)%Q
   /\ dividerWidth (fst (updatePanel vh rect p)) = Some (Some (Fin (1 * 100))))
  /\ (isOffScreen (calculatePanelAnimation rect vh) = true ->
      styleOpacity (fst (updatePanel vh rect p))
      = Some (Fin (minOpacity PANEL_ANIMATION_CONFIG
                   + 0 * opacityRange PANEL_ANIMATION_CONFIG))
      /\ dividerWidth (fst (updatePanel vh rect p))
         = Some (Some (Fin (0 * 100)))).
Proof.
  intros Hdiv.
  destruct (updatePanel_styles vh rect p) as [Ho Hd]. rewrite Hdiv in Hd.
  split.
  - intros Hfull.
    assert (Hp : animationProgress (calculatePanelAnimation rect vh) = Fin 1).
    { unfold calculatePanelAnimation in *. cbn [isFullyVisible] in Hfull.
      cbn [animationProgress].
      apply andb_true_iff in Hfull. destruct Hfull as [-> Hnb].
      apply negb_true_iff in Hnb. rewrite Hnb. reflexivity. }
    rewrite Hp in Ho, Hd. split; [exact Ho |]. split; [reflexivity | exact Hd].
  - intros Hoff.
    assert (Hp : animationProgress (calculatePanelAnimation rect vh) = Fin 0).
    { pose proof (offScreen_not_visible rect vh Hoff) as Hnv.
      unfold calculatePanelAnimation in *. cbn [isVisible] in Hnv.
      cbn [animationProgress]. rewrite Hnv. reflexivity. }
    rewrite Hp in Ho, Hd. split; [exact Ho | exact Hd].
Qed.

Lemma panel_styles_at_the_ends_witness :
  dividerWidth (panel Samples.animatedPanel) = Some None
  /\ offScreenAt Samples.below = true
  /\ styleOpacity
       (fst (updatePanel (Fin 800)
               {| top := 900; bottom := 1300; height := 400 |}
               (panel Samples.animatedPanel)))
     = Some (Fin (minOpacity PANEL_ANIMATION_CONFIG
                  + 0 * opacityRange PANEL_ANIMATION_CONFIG)).
Proof.
  split; [reflexivity |]. split; [reflexivity |].
  refine (proj1 (proj2 (panel_styles_at_the_ends (Fin 800)
                          {| top := 900; bottom := 1300; height := 400 |}
                          (panel Samples.animatedPanel) None eq_refl)
                   eq_refl)).
Defined.

(** ** The stagger is set once *)

Lemma In_removeNth {A : Type} (l : list A) :
  forall k x, In x (removeNth k l) -> In x l.
Proof.
  induction l as [| a rest IH]; intros k x H; [destruct k; exact H |].
  destruct k as [| k]; cbn [removeNth] in H.
  - right. exact H.
  - destruct H as [<- | H]; [left; reflexivity | right; apply (IH k), H].
Qed.

(** While the panel does not go off screen, an animated panel stays
    animated and no scroll sets a timer. *)
Lemma step_keeps_animated (w : World) (e : Event) :
  offScreenAt e = false ->
  linksAnimated (panel w) = Some "true" ->
  linksAnimated (panel (step w e)) = Some "true"
  /\ incl (pending (step w e)) (pending w).
Proof.
  intros Hoff Hflag. destruct e as [vh rect | k]; unfold step.
  - unfold offScreenAt in Hoff.
    destruct (updatePanel_links vh rect (panel w)) as [p' [Hf [Hl ->]]].
    unfold updatePanelLinks. rewrite Hoff, Hf, Hflag.
    cbn [String.eqb Ascii.eqb Bool.eqb negb andb].
    rewrite andb_false_r. cbn [panel pending].
    rewrite app_nil_r, Hf. split; [exact Hflag | apply incl_refl].
  - destruct (nth_error (pending w) k); cbn [panel pending fire linksAnimated].
    + split; [exact Hflag |]. intros x Hx. apply (In_removeNth _ k), Hx.
    + split; [exact Hflag | apply incl_refl].
Qed.

(** The stagger is a one-shot: once the links of a panel are animated,
    and as long as no update finds the panel off screen, the flag stays
    set and no update sets a timer again; the timers pending can only be
    those that were pending before. *)
Theorem stagger_is_set_once (events : list Event) :
  forall w,
    linksAnimated (panel w) = Some "true" ->
    (forall e, In e events -> offScreenAt e = false) ->
    linksAnimated (panel (fold_left step events w)) = Some "true"
    /\ incl (pending (fold_left step events w)) (pending w).
Proof.
  induction events as [| e rest IH]; intros w Hflag Hall; cbn [fold_left].
  - split; [exact Hflag | apply incl_refl].
  - destruct (step_keeps_animated w e (Hall e (or_introl eq_refl)) Hflag)
      as [Hf Hincl].
    destruct (IH (step w e) Hf (fun e' He' => Hall e' (or_intror He')))
      as [Hf' Hincl'].
    split; [exact Hf' |]. intros x Hx. apply Hincl, Hincl', Hx.
Qed.

Lemma stagger_is_set_once_witness :
  linksAnimated (panel Samples.animatedPanel) = Some "true"
  /\ pending (fold_left step [Samples.upperHalf; Samples.entering;
                              Samples.upperHalf]
                Samples.animatedPanel) = [].
Proof.
  split; [reflexivity |].
  destruct (stagger_is_set_once
              [Samples.upperHalf; Samples.entering; Samples.upperHalf]
              Samples.animatedPanel eq_refl) as [_ Hincl].
  - intros e [<- | [<- | [<- | []]]]; reflexivity.
  - apply incl_l_nil. exact Hincl.
Defined.

(** ** The stagger comes to its end *)

Lemma staggered_serves (n i : nat) :
  (i < n)%nat -> exists t, In t (staggeredTimers n) /\ target t = i.
Proof.
  intros Hi. exists {| delay := i * linkStaggerDelay PANEL_ANIMATION_CONFIG;
                       target := i |}.
  split; [| reflexivity].
  unfold staggeredTimers.
  apply (in_map (fun i => {| delay := i * linkStaggerDelay PANEL_ANIMATION_CONFIG;
                             target := i |})).
  apply in_seq. lia.
Qed.

Lemma nth_error_updateNth {A : Type} (f : A -> A) (l : list A) :
  forall j i,
    nth_error (updateNth f j l) i
    = if (i =? j)%nat then option_map f (nth_error l i) else nth_error l i.
Proof.
  induction l as [| a rest IH]; intros j i.
  - replace (updateNth f j []) with (@nil A) by (destruct j; reflexivity).
    destruct (i =? j)%nat; destruct i; reflexivity.
  - destruct j as [| j], i as [| i]; cbn [updateNth nth_error Nat.eqb];
      try reflexivity.
    apply IH.
Qed.

Lemma In_removeNth_or {A : Type} (l : list A) :
  forall k t x,
    nth_error l k = Some t -> In x l -> x = t \/ In x (removeNth k l).
Proof.
  induction l as [| a rest IH]; intros k t x Hk Hx; [contradiction |].
  destruct k as [| k]; cbn [nth_error removeNth] in *.
  - injection Hk as <-. destruct Hx as [<- | Hx]; [left | right]; auto.
  - destruct Hx as [<- | Hx].
    + right. left. reflexivity.
    + destruct (IH k t x Hk Hx) as [-> | H]; [left | right; right]; auto.
Qed.

Lemma added_class_present (link : Link) :
  hasAnimationClass (addAnimationClass link) = true.
Proof.
  unfold hasAnimationClass, addAnimationClass. cbn [linkClasses].
  rewrite contains_add. cbn [existsb]. rewrite String.eqb_refl.
  apply orb_true_r.
Qed.

(** An event that does not find the panel off screen keeps every link
    served. *)
Lemma step_keeps_served (w : World) (e : Event) :
  offScreenAt e = false -> served w -> served (step w e).
Proof.
  intros Hoff Hserved. destruct e as [vh rect | k]; unfold step.
  - unfold offScreenAt in Hoff.
    destruct (updatePanel_links vh rect (panel w)) as [p' [Hf [Hl ->]]].
    unfold updatePanelLinks. rewrite Hoff.
    match goal with
    | |- context [if ?c then _ else _] => destruct c
    end; intros i link Hnth; cbn [panel pending links] in *;
      rewrite ?Hl in Hnth;
      (destruct (Hserved i link Hnth) as [Hc | [t [Ht Hi]]];
       [left; exact Hc
       | right; exists t; split; [apply in_or_app; left; exact Ht | exact Hi]]).
  - destruct (nth_error (pending w) k) as [t |] eqn:Hk; [| exact Hserved].
    intros i link Hnth. cbn [panel pending links fire] in *.
    rewrite nth_error_updateNth in Hnth.
    destruct (i =? target t)%nat eqn:Ei.
    + destruct (nth_error (links (panel w)) i) as [old |]; [| discriminate].
      cbn [option_map] in Hnth. injection Hnth as <-.
      left. apply added_class_present.
    + destruct (Hserved i link Hnth) as [Hc | [t' [Ht' Hi]]];
        [left; exact Hc |].
      right. exists t'. split; [| exact Hi].
      destruct (In_removeNth_or _ k t t' Hk Ht') as [-> | Hin];
        [| exact Hin].
      apply Nat.eqb_neq in Ei. congruence.
Qed.

Lemma run_keeps_served (events : list Event) :
  forall w,
    (forall e, In e events -> offScreenAt e = false) ->
    served w -> served (fold_left step events w).
Proof.
  induction events as [| e rest IH]; intros w Hall Hserved; cbn [fold_left].
  - exact Hserved.
  - apply IH; [intros e' He'; apply Hall; right; exact He' |].
    apply step_keeps_served; [apply Hall; left; reflexivity | exact Hserved].
Qed.

(** The stagger comes to its end.  From the update that finds a reset
    panel fully visible, and as long as no update finds the panel off
    screen, every link has the animation class or still has its timer
    pending, in whatever order updates and timers come; so when no timer
    is pending any more, every link has the class. *)
Theorem links_all_animated_in_the_end (w : World) (back : Event)
  (events : list Event) :
  linksAnimated (panel w) = Some "false" ->
  fullyVisibleAt back = true ->
  (forall e, In e events -> offScreenAt e = false) ->
  let final := fold_left step events (step w back) in
  served final
  /\ (pending final = [] ->
      Forall (fun link => hasAnimationClass link = true)
        (links (panel final))).
Proof.
  intros Hflag Hback Hall final.
  assert (Hserved : served final).
  { apply run_keeps_served; [exact Hall |].
    destruct (step_fullyVisible w back Hback Hflag) as [_ [Hlinks Hpending]].
    intros i link Hnth. rewrite Hlinks in Hnth. right.
    assert (Hi : (i < List.length (links (panel w)))%nat).
    { apply nth_error_Some. rewrite Hnth. discriminate. }
    destruct (staggered_serves _ i Hi) as [t [Ht Htarget]].
    exists t. split; [| exact Htarget].
    rewrite Hpending. apply in_or_app. right. exact Ht. }
  split; [exact Hserved |].
  intros Hdone. apply Forall_forall. intros link Hin.
  apply In_nth_error in Hin. destruct Hin as [i Hnth].
  destruct (Hserved i link Hnth) as [Hc | [t [Ht _]]]; [exact Hc |].
  rewrite Hdone in Ht. contradiction.
Qed.

Lemma links_all_animated_in_the_end_witness :
  linksAnimated (panel Samples.resetPanel) = Some "false"
  /\ fullyVisibleAt Samples.upperHalf = true
  /\ Forall (fun link => hasAnimationClass link = true)
       (links (panel (fold_left step Samples.threeTimeouts
                        (step Samples.resetPanel Samples.upperHalf)))).
Proof.
  split; [reflexivity |]. split; [reflexivity |].
  refine (proj2 (links_all_animated_in_the_end Samples.resetPanel
                   Samples.upperHalf Samples.threeTimeouts
                   eq_refl eq_refl _) eq_refl).
  intros e [<- | [<- | [<- | []]]]; reflexivity.
Defined.

End PanelAnimationsMore.

(* ================================================================== *)
(** * Leaving and coming back (panelAnimations.js) *)
(* ================================================================== *)

Module PanelAnimationsReplay.
Import JSNumber JSNumberFacts Browser PanelAnimations PanelAnimationsSpec
  PanelAnimationsMore.
Local Open Scope num_scope.

(** With no timer pending and no link animated, nothing changes for the
    links while the panel is not fully visible. *)
Lemma step_keeps_clean (w : World) (e : Event) :
  fullyVisibleAt e = false ->
  pending w = [] ->
  Forall (fun link => hasAnimationClass link = false) (links (panel w)) ->
  pending (step w e) = []
  /\ Forall (fun link => hasAnimationClass link = false)
       (links (panel (step w e))).
Proof.
  intros Hfv Hnone Hclean. destruct e as [vh rect | k];
    unfold fullyVisibleAt in Hfv; unfold step.
  - destruct (updatePanel_links vh rect (panel w)) as [p' [Hf [Hl ->]]].
    unfold updatePanelLinks. rewrite Hfv.
    destruct (isOffScreen (calculatePanelAnimation rect vh));
      cbn [andb panel pending links]; rewrite Hnone.
    + split; [reflexivity |]. apply Forall_forall. intros link Hin.
      apply in_map_iff in Hin. destruct Hin as [l0 [<- _]].
      apply removed_class_absent.
    + split; [reflexivity |]. rewrite Hl. exact Hclean.
  - rewrite Hnone. destruct k; cbn [nth_error]; split; assumption.
Qed.

Lemma run_keeps_clean (between : list Event) :
  forall w,
    (forall e, In e between -> fullyVisibleAt e = false) ->
    pending w = [] ->
    Forall (fun link => hasAnimationClass link = false) (links (panel w)) ->
    pending (fold_left step between w) = []
    /\ Forall (fun link => hasAnimationClass link = false)
         (links (panel (fold_left step between w))).
Proof.
  induction between as [| e rest IH]; intros w Hall Hnone Hclean;
    cbn [fold_left].
  - split; assumption.
  - destruct (step_keeps_clean w e (Hall e (or_introl eq_refl)) Hnone Hclean)
      as [Hnone' Hclean'].
    apply IH; [intros e' He'; apply Hall; right; exact He' | |]; assumption.
Qed.

(** C9.  Take a panel whose links have been animated (the flag is
    "true").  The update that finds it off screen sets the flag to "false"
    and leaves no link with the animation class.  Whatever follows while
    the panel is not fully visible (further scrolls, timers firing), the
    first update that finds it fully visible again sets the flag to "true"
    and sets the whole staggered sequence of timers again, one per link,
    the link of index [i] after [i * 150] ms.  Every link has its timer in
    that sequence, and the timer firing gives the link the animation
    class.  When no timer of the earlier animation was left as the panel
    went off screen, no link has the class at the moment of the re-entry:
    the animation starts from nothing.  From the re-entry on, as long as
    no update finds the panel off screen, every link has the class or a
    timer pending that will give it, in whatever order updates and timers
    come; with no timer pending every link has the class. *)
Theorem links_replay_on_reentry (w : World) (leave : Event)
  (between : list Event) (back : Event) (later : list Event) :
  linksAnimated (panel w) = Some "true" ->
  offScreenAt leave = true ->
  (forall e, In e between -> fullyVisibleAt e = false) ->
  fullyVisibleAt back = true ->
  (forall e, In e later -> offScreenAt e = false) ->
  let left := step w leave in
  let before := fold_left step between left in
  let after := step before back in
  let final := fold_left step later after in
  let n := List.length (links (panel w)) in
  linksAnimated (panel left) = Some "false"
  /\ Forall (fun link => hasAnimationClass link = false) (links (panel left))
  /\ linksAnimated (panel after) = Some "true"
  /\ pending after = (pending before ++ staggeredTimers n)%list
  /\ staggeredTimers n
     = map (fun i => {| delay := i * 150; target := i |}) (seq 0 n)
  /\ (pending w = [] ->
      Forall (fun link => hasAnimationClass link = false)
        (links (panel after)))
  /\ (forall i link,
        nth_error (links (panel after)) i = Some link ->
        exists t link',
          In t (staggeredTimers n) /\ In t (pending after)
          /\ target t = i /\ delay t = (i * 150)%nat
          /\ nth_error (links (fire t (panel after))) i = Some link'
          /\ hasAnimationClass link' = true)
  /\ served final
  /\ (pending final = [] ->
      Forall (fun link => hasAnimationClass link = true)
        (links (panel final))).
Proof.
  intros Hflag Hleave Hbetween Hback Hlater left before after final n.
  destruct (step_offScreen w leave Hleave) as [Hreset [Hclean [Hlen Hsame]]].
  destruct (run_keeps_reset between left Hbetween Hreset) as [Hstill Hlen'].
  destruct (step_fullyVisible before back Hback Hstill)
    as [Hset [Hlinks Htimers]].
  assert (Hn : List.length (links (panel before)) = n).
  { subst before left n. rewrite Hlen', Hlen. reflexivity. }
  rewrite Hn in Htimers.
  assert (Htimer : forall i link,
             nth_error (links (panel after)) i = Some link ->
             exists t link',
               In t (staggeredTimers n) /\ In t (pending after)
               /\ target t = i /\ delay t = (i * 150)%nat
               /\ nth_error (links (fire t (panel after))) i = Some link'
               /\ hasAnimationClass link' = true).
  { intros i link Hnth.
    assert (Hi : (i < n)%nat).
    { rewrite <- Hn. subst after. rewrite Hlinks in Hnth.
      apply nth_error_Some. rewrite Hnth. discriminate. }
    exists {| delay := i * linkStaggerDelay PANEL_ANIMATION_CONFIG;
              target := i |}, (addAnimationClass link).
    assert (Hin : In {| delay := i * linkStaggerDelay PANEL_ANIMATION_CONFIG;
                        target := i |} (staggeredTimers n)).
    { unfold staggeredTimers.
      apply (in_map (fun i =>
                       {| delay := i * linkStaggerDelay PANEL_ANIMATION_CONFIG;
                          target := i |})).
      apply in_seq. lia. }
    split; [exact Hin |].
    split; [subst after; rewrite Htimers; apply in_or_app; right; exact Hin |].
    split; [reflexivity |]. split; [reflexivity |].
    split; [| apply added_class_present].
    cbn [fire links target]. rewrite nth_error_updateNth, Nat.eqb_refl, Hnth.
    reflexivity. }
  assert (Hserved : served final).
  { apply run_keeps_served; [exact Hlater |].
    intros i link Hnth. right.
    destruct (Htimer i link Hnth) as [t [_ [_ [Hpending [Htarget _]]]]].
    exists t. split; assumption. }
  split; [exact Hreset |]. split; [exact Hclean |]. split; [exact Hset |].
  split; [exact Htimers |]. split; [reflexivity |].
  split; [| split; [exact Htimer | split; [exact Hserved |]]].
  - intros Hnone. subst after. rewrite Hlinks.
    apply (run_keeps_clean between left Hbetween).
    + subst left. rewrite Hsame. exact Hnone.
    + exact Hclean.
  - intros Hdone. apply Forall_forall. intros link Hin.
    apply In_nth_error in Hin. destruct Hin as [i Hnth].
    destruct (Hserved i link Hnth) as [Hc | [t [Ht _]]]; [exact Hc |].
    rewrite Hdone in Ht. contradiction.
Qed.

Lemma links_replay_on_reentry_witness :
  linksAnimated (panel Samples.animatedPanel) = Some "true"
  /\ offScreenAt Samples.below = true
  /\ fullyVisibleAt Samples.entering = false
  /\ fullyVisibleAt Samples.upperHalf = true
  /\ Forall (fun link => hasAnimationClass link = true)
       (links (panel (fold_left step Samples.threeTimeouts
                        (step (fold_left step [Samples.entering]
                                 (step Samples.animatedPanel Samples.below))
                           Samples.upperHalf)))).
Proof.
  split; [reflexivity |]. split; [reflexivity |].
  split; [reflexivity |]. split; [reflexivity |].
  refine (proj2 (proj2 (proj2 (proj2 (proj2 (proj2 (proj2 (proj2
            (links_replay_on_reentry Samples.animatedPanel Samples.below
               [Samples.entering] Samples.upperHalf Samples.threeTimeouts
               eq_refl eq_refl _ eq_refl _)))))))) eq_refl).
  - intros e [<- | []]. reflexivity.
  - intros e [<- | [<- | [<- | []]]]; reflexivity.
Defined.

End PanelAnimationsReplay.

(* ================================================================== *)
(** * The logo and the background (scrollBehavior.js) *)
(* ================================================================== *)

Module ScrollBehaviorMore.
Import JSNumber JSNumberFacts Browser ScrollBehavior.
Local Open Scope num_scope.

(** ** The scroll data *)

(** The scroll progress is [NaN] exactly on a page that does not scroll
    and stands at offset 0; in every other case it is a number of [0,1]. *)
Theorem scrollProgress_NaN_or_within (w : Window) :
  (isNaN (scrollProgress (calculateScrollData w)) = true
   <-> (scrollHeight w == innerHeight w)%Q /\ (pageYOffset w == 0)%Q)
  /\ (isNaN (scrollProgress (calculateScrollData w)) = false ->
      within 0 1 (scrollProgress (calculateScrollData w)))
  /\ viewportHeight (getCurrentScrollData w) = innerHeight w.
Proof.
  split; [| split; [| reflexivity]].
  - unfold calculateScrollData. cbn [scrollProgress].
    change (Fin (scrollHeight w) - Fin (innerHeight w))
      with (Fin (scrollHeight w + - innerHeight w)).
    unfold div, sgn.
    destruct (Qcompare_spec (scrollHeight w + - innerHeight w) 0) as [E | E | E].
    + destruct (Qcompare_spec (pageYOffset w) 0) as [E0 | E0 | E0]; cbn.
      * split; [intros _; split; lra | reflexivity].
      * split; [discriminate | intros [_ H]; lra].
      * split; [discriminate | intros [_ H]; lra].
    + split; [| intros [H _]; lra].
      unfold Math_max, Math_min, cmp.
      repeat match goal with
             | |- context [Qcompare ?a ?b] => destruct (Qcompare a b)
             end; discriminate.
    + split; [| intros [H _]; lra].
      unfold Math_max, Math_min, cmp.
      repeat match goal with
             | |- context [Qcompare ?a ?b] => destruct (Qcompare a b)
             end; discriminate.
  - intros Hn. unfold calculateScrollData in *. cbn [scrollProgress] in *.
    apply clamp_within'; [lra |].
    destruct (Fin (pageYOffset w)
              / (Fin (scrollHeight w) - Fin (innerHeight w)));
      try reflexivity.
    discriminate Hn.
Qed.

Lemma scrollProgress_NaN_or_within_witness :
  isNaN (scrollProgress (calculateScrollData Samples.shortWindow)) = true.
Proof.
  apply (proj1 (scrollProgress_NaN_or_within Samples.shortWindow)).
  split; reflexivity.
Defined.

(** ** The logo *)

(** The logo and the background move as one.  With both elements in the
    document, a tracked panel as end anchor and a viewport height [v > 0],
    both get the same transform at every update: the reset position, or a
    shift upwards by the distance the top of the last panel has gone above
    the top of the viewport.  They are shifted exactly when the top of the
    last panel is at or above the top of the viewport and the journey is
    complete, and the shift is never downwards. *)
Theorem logo_and_background_move_as_one (v : num) (page : ProgressSystem.Page)
  (w : Window) (scene : Scene) (hero background : option Transform)
  (last : ProgressSystem.Panel) :
  (v >? Fin 0) = true ->
  heroImage scene = Some hero -> masterBackground scene = Some background ->
  let data := ProgressSystem.calculateContentProgress v page in
  ProgressSystem.lastPanel data = Some last ->
  let scene' := snd (updateScrollBehavior data w scene) in
  let panelTop := top (ProgressSystem.rect last) in
  heroImage scene' = masterBackground scene'
  /\ (((panelTop <= 0)%Q /\ ProgressSystem.smoothProgress data ~= Fin 1
       /\ exists offset,
            heroImage scene' = Some (Some (TranslateUp (Fin offset)))
            /\ (offset == - panelTop)%Q /\ (0 <= offset)%Q)
      \/ ((~ (panelTop <= 0)%Q
           \/ (ProgressSystem.smoothProgress data <? Fin 1) = true)
          /\ heroImage scene' = Some (Some ResetPosition))).
Proof.
  intros Hv Hhero Hbg data Hlast scene' panelTop.
  subst scene'. unfold updateScrollBehavior, handleLogoMovement. cbn [snd].
  rewrite Hlast, Hhero, Hbg. fold panelTop.
  destruct (ProgressSystemMore.smoothProgress_within v page Hv) as [p [Hp Hb]].
  fold data in Hp. rewrite Hp.
  cbn [progressCompleteThreshold movementStartThreshold movementMultiplier
       SCROLL_BEHAVIOR_CONFIG].
  destruct (Fin p >=? Fin 1) eqn:Hdone;
    destruct (Fin panelTop <=? Fin 0) eqn:Htop; cbn [andb].
  - apply ge_Fin in Hdone. apply le_Fin in Htop.
    split; [reflexivity |]. left. split; [exact Htop |].
    split; [simpl; lra |].
    eexists. split; [reflexivity |]. cbn [Math_abs mul].
    rewrite Qabs_neg by exact Htop. split; lra.
  - split; [reflexivity |]. right. split; [| reflexivity]. left.
    intros H. apply le_Fin in H. congruence.
  - split; [reflexivity |]. right. split; [| reflexivity]. right.
    apply lt_Fin. destruct (Qlt_le_dec p 1) as [H | H]; [exact H |].
    apply ge_Fin in H. congruence.
  - split; [reflexivity |]. right. split; [| reflexivity]. left.
    intros H. apply le_Fin in H. congruence.
Qed.

Lemma logo_and_background_move_as_one_witness :
  (Fin 800 >? Fin 0) = true
  /\ heroImage
       (snd (updateScrollBehavior
               (ProgressSystem.calculateContentProgress (Fin 800)
                  Samples.pageAtEnd)
               Samples.tallWindow Samples.scene))
     = masterBackground
         (snd (updateScrollBehavior
                 (ProgressSystem.calculateContentProgress (Fin 800)
                    Samples.pageAtEnd)
                 Samples.tallWindow Samples.scene)).
Proof.
  split; [reflexivity |].
  refine (proj1 (logo_and_background_move_as_one (Fin 800) Samples.pageAtEnd
                   Samples.tallWindow Samples.scene None None
                   (ProgressSystem.shiftPanel 1300 Samples.panelB)
                   eq_refl eq_refl eq_refl eq_refl)).
Defined.

End ScrollBehaviorMore.


(* ================================================================== *)
(** * More on the coordinator *)
(* ================================================================== *)

Module CoordinatorMore.
Import Coordinator.

Section Throttle.
Variable World : Type.
Variable updateScrollEffects : World -> World.

Lemma handleScroll_pending (rt : Runtime World) :
  tidy rt ->
  animationFrameCallbacks (handleScroll rt) = [S (callbackIdentifier rt)]
  /\ scrollTimeout (handleScroll rt) = Some (S (callbackIdentifier rt))
  /\ world (handleScroll rt) = world rt.
Proof.
  intros [Hnone | [h [Hone [Hh Hnz]]]]; unfold handleScroll.
  - destruct (scrollTimeout rt) as [h |]; [destruct (truthy (Some h)) |];
      cbn; rewrite ?Hnone; auto.
  - rewrite Hh. cbn [truthy].
    destruct (Nat.eqb_spec h 0) as [-> | _]; [congruence |].
    cbn. rewrite Hone. cbn. rewrite Nat.eqb_refl. cbn. auto.
Qed.

Lemma step_tidy (rt : Runtime World) (e : Event) :
  tidy rt -> tidy (step World updateScrollEffects rt e).
Proof.
  intros Ht. destruct e; cbn [step].
  - destruct (handleScroll_pending rt Ht) as [Hc [Hs _]].
    right. exists (S (callbackIdentifier rt)).
    split; [exact Hc |]. split; [exact Hs | discriminate].
  - left. reflexivity.
Qed.

Lemma run_tidy (events : list Event) (rt : Runtime World) :
  tidy rt -> tidy (run World updateScrollEffects events rt).
Proof.
  revert rt. induction events as [| e events IH]; intros rt Ht;
    [exact Ht |].
  apply IH, step_tidy, Ht.
Qed.

Lemma scrolls_pending (n : nat) (rt : Runtime World) :
  tidy rt ->
  let rt' := run World updateScrollEffects (repeat Scroll (S n)) rt in
  (exists h, animationFrameCallbacks rt' = [h]) /\ world rt' = world rt.
Proof.
  revert rt. induction n as [| n IH]; intros rt Ht.
  - cbn. destruct (handleScroll_pending rt Ht) as [Hc [_ Hw]]. eauto.
  - change (repeat Scroll (S (S n))) with (Scroll :: repeat Scroll (S n)).
    cbn [run fold_left step].
    destruct (handleScroll_pending rt Ht) as [_ [_ Hw]].
    destruct (IH (handleScroll rt)) as [Hc Hw'].
    { apply (step_tidy rt Scroll Ht). }
    split; [exact Hc |]. unfold run in Hw'. rewrite Hw'. exact Hw.
Qed.

Lemma run_app (events events' : list Event) (rt : Runtime World) :
  run World updateScrollEffects (events ++ events') rt
  = run World updateScrollEffects events'
      (run World updateScrollEffects events rt).
Proof. apply fold_left_app. Qed.

Lemma burst_updates (n : nat) (rt : Runtime World) :
  animationFrameCallbacks rt = [] ->
  let rt' :=
    run World updateScrollEffects
      (repeat Scroll n ++ [AnimationFrame])%list rt in
  animationFrameCallbacks rt' = []
  /\ world rt'
     = if (n =? 0)%nat then world rt else updateScrollEffects (world rt).
Proof.
  intros Hnone rt'. subst rt'. rewrite run_app.
  destruct n as [| n].
  - cbn. rewrite Hnone. auto.
  - destruct (scrolls_pending n rt (or_introl Hnone)) as [[h Hc] Hw].
    cbn zeta in Hc, Hw.
    set (rt' := run World updateScrollEffects (repeat Scroll (S n)) rt) in *.
    cbn [run fold_left step animationFrame animationFrameCallbacks world
         Nat.eqb].
    rewrite Hc, Hw. auto.
Qed.

Lemma iter_S' (k : nat) (w : World) :
  Nat.iter k updateScrollEffects (updateScrollEffects w)
  = updateScrollEffects (Nat.iter k updateScrollEffects w).
Proof. rewrite <- Nat.iter_succ_r. apply Nat.iter_succ. Qed.

Lemma bursts_updates (sizes : list nat) (rt : Runtime World) :
  animationFrameCallbacks rt = [] ->
  let rt' := run World updateScrollEffects (bursts sizes) rt in
  animationFrameCallbacks rt' = []
  /\ world rt' = Nat.iter (nonEmpty sizes) updateScrollEffects (world rt).
Proof.
  revert rt. induction sizes as [| n sizes IH]; intros rt Hnone.
  - cbn. auto.
  - cbn [bursts flat_map]. fold (bursts sizes). cbn zeta. rewrite run_app.
    destruct (burst_updates n rt Hnone) as [Hc Hw].
    destruct (IH _ Hc) as [Hc' Hw'].
    split; [exact Hc' |]. rewrite Hw', Hw.
    unfold nonEmpty. cbn [filter].
    destruct (n =? 0)%nat; cbn [negb List.length]; [reflexivity |].
    fold (nonEmpty sizes). rewrite iter_S'. reflexivity.
Qed.

(** The scroll handler coalesces the scroll events of a frame.  Whatever
    [updateScrollEffects] does and however many handles were given out
    before: after any sequence of scroll events and animation frames at
    most one callback is pending; and when scroll events come in bursts,
    each burst followed by an animation frame, [updateScrollEffects] has
    run once for every burst with at least one scroll event and not at all
    for the frames with none. *)
Theorem one_update_per_frame (identifier : nat) (w : World) :
  (forall events : list Event,
      (List.length (animationFrameCallbacks
                      (run World updateScrollEffects events
                         (loaded identifier w))) <= 1)%nat)
  /\ (forall sizes : list nat,
        world (run World updateScrollEffects (bursts sizes)
                 (loaded identifier w))
        = Nat.iter (nonEmpty sizes) updateScrollEffects w).
Proof.
  split.
  - intros events.
    destruct (run_tidy events (loaded identifier w) (or_introl eq_refl))
      as [-> | [h [-> _]]]; cbn; lia.
  - intros sizes.
    apply (bursts_updates sizes (loaded identifier w) eq_refl).
Qed.

End Throttle.

End CoordinatorMore.


(* ================================================================== *)
(** * More on the globe *)
(* ================================================================== *)

Module GlobeBackgroundMore.
Import GlobeBackground GlobeBackgroundSpec.

Section Answers.

Variable enc : string -> string.
Variable parse : option Json -> Exn + Json.
Variable net : string -> Response.

(** ** Which source the data comes from *)

Lemma direct_cases :
  (directAttempt net = Normal /\ directRequestFails net)
  \/ exists data, directAttempt net = Return data /\ directDelivers net data.
Proof.
  unfold directAttempt, directRequestFails, directDelivers.
  destruct (net (cableApiUrl GLOBE_CONFIG)) as [e | ok status json].
  - left. split; [reflexivity | exact I].
  - destruct ok.
    + destruct json as [e | data].
      * left. split; [reflexivity |]. right. exists e. reflexivity.
      * right. exists data. split; [reflexivity |]. exists status.
        reflexivity.
    + left. split; [reflexivity |]. left. reflexivity.
Qed.

Lemma direct_delivers (data : Json) :
  directDelivers net data -> directAttempt net = Return data.
Proof.
  unfold directDelivers, directAttempt. intros [status ->]. reflexivity.
Qed.

Lemma proxy_cases (proxyUrl : string) :
  (proxyAttempt enc parse net proxyUrl = Normal
   /\ proxyRequestFails enc parse net proxyUrl)
  \/ exists data, proxyAttempt enc parse net proxyUrl = Return data
                  /\ proxyDelivers enc parse net proxyUrl data.
Proof.
  unfold proxyAttempt, proxyAttemptBody, proxyRequestFails, proxyDelivers.
  destruct (includes "allorigins.win" proxyUrl).
  - destruct (net (proxyUrl ++ enc (cableApiUrl GLOBE_CONFIG)))
      as [e | ok status json].
    { left. split; [reflexivity | exact I]. }
    destruct ok; [| left; split; [reflexivity | left; reflexivity]].
    destruct json as [e | proxyData].
    { left. split; [reflexivity |]. right. left. exists e. reflexivity. }
    destruct (readContents proxyData) as [e | contents] eqn:Hread.
    { left. split; [reflexivity |]. right. right. exists proxyData.
      split; [reflexivity |]. left. exists e. exact Hread. }
    destruct (parse contents) as [e | data] eqn:Hparse.
    { left. split; [reflexivity |]. right. right. exists proxyData.
      split; [reflexivity |]. right. exists contents, e. split; auto. }
    right. exists data. split; [reflexivity |].
    exists status, proxyData, contents. auto.
  - destruct (net (proxyUrl ++ cableApiUrl GLOBE_CONFIG))
      as [e | ok status json].
    { left. split; [reflexivity | exact I]. }
    destruct ok; [| left; split; [reflexivity | left; reflexivity]].
    destruct json as [e | data].
    { left. split; [reflexivity |]. right. exists e. reflexivity. }
    right. exists data. split; [reflexivity |]. exists status. reflexivity.
Qed.

Lemma proxy_delivers (proxyUrl : string) (data : Json) :
  proxyDelivers enc parse net proxyUrl data ->
  proxyAttempt enc parse net proxyUrl = Return data.
Proof.
  unfold proxyDelivers, proxyAttempt, proxyAttemptBody.
  destruct (includes "allorigins.win" proxyUrl).
  - intros [status [proxyData [contents [-> [-> ->]]]]]. reflexivity.
  - intros [status ->]. reflexivity.
Qed.

Lemma proxyLoop_first (before after : list string) (proxyUrl : string)
  (data : Json) :
  (forall u, In u before -> proxyRequestFails enc parse net u) ->
  proxyDelivers enc parse net proxyUrl data ->
  proxyLoop enc parse net (before ++ proxyUrl :: after) = Return data.
Proof.
  intros Hbefore Hdelivers.
  induction before as [| u before IH]; cbn [app proxyLoop].
  - rewrite (proxy_delivers proxyUrl data Hdelivers). reflexivity.
  - rewrite (proxyAttempt_fails enc parse net u (Hbefore u (or_introl eq_refl))).
    cbn [andThen]. apply IH. intros u' Hu'. apply Hbefore. right. exact Hu'.
Qed.

Lemma proxyLoop_cases (remaining : list string) :
  (proxyLoop enc parse net remaining = Normal
   /\ forall u, In u remaining -> proxyRequestFails enc parse net u)
  \/ exists data before proxyUrl after,
       remaining = (before ++ proxyUrl :: after)%list
       /\ (forall u, In u before -> proxyRequestFails enc parse net u)
       /\ proxyDelivers enc parse net proxyUrl data
       /\ proxyLoop enc parse net remaining = Return data.
Proof.
  induction remaining as [| proxyUrl rest IH]; cbn [proxyLoop].
  - left. split; [reflexivity |]. intros u [].
  - destruct (proxy_cases proxyUrl) as [[Hn Hfails] | [data [Hr Hdelivers]]].
    + rewrite Hn. cbn [andThen].
      destruct IH as [[Hrest Hall] | [data [before [u [after H]]]]].
      * left. split; [exact Hrest |].
        intros u [<- | Hu]; [exact Hfails | exact (Hall u Hu)].
      * destruct H as [-> [Hbefore [Hdelivers Hloop]]].
        right. exists data, (proxyUrl :: before), u, after.
        split; [reflexivity |]. split; [| split; assumption].
        intros u' [<- | Hu']; [exact Hfails | exact (Hbefore u' Hu')].
    + right. exists data, [], proxyUrl, rest. rewrite Hr.
      split; [reflexivity |]. split; [intros u [] |]. split; auto.
Qed.

(** The data comes from the first source that answers.  On every network
    and platform, [fetchCableData] resolves with [data] exactly when [data]
    is the first answer, in the order direct request, then the proxies of
    the configured list, or no attempt delivers and [data] is the embedded
    mock collection. *)
Theorem data_is_the_first_answer (data : Json) :
  fetchCableData enc parse net = Return data
  <-> firstAnswer enc parse net data
      \/ (noAnswer enc parse net /\ data = mockData).
Proof.
  unfold fetchCableData, firstAnswer, noAnswer. split.
  - destruct direct_cases as [[Hn Hfails] | [v [Hr Hdelivers]]].
    + rewrite Hn. cbn [andThen].
      destruct (proxyLoop_cases (proxyUrls GLOBE_CONFIG))
        as [[Hloop Hall] | [v [before [u [after H]]]]].
      * rewrite Hloop. cbn [andThen tryCatch]. intros [= <-].
        right. auto.
      * destruct H as [Hsplit [Hbefore [Hdelivers Hloop]]].
        rewrite Hloop. cbn [andThen tryCatch]. intros [= <-].
        left. right. split; [exact Hfails |].
        exists before, u, after. auto.
    + rewrite Hr. cbn [andThen tryCatch]. intros [= <-]. left. left.
      exact Hdelivers.
  - intros [[Hdelivers | [Hfails [before [u [after H]]]]] | [[Hfails Hall] ->]].
    + rewrite (direct_delivers data Hdelivers). reflexivity.
    + destruct H as [Hsplit [Hbefore Hdelivers]].
      rewrite (directAttempt_fails net Hfails), Hsplit,
        (proxyLoop_first before after u data Hbefore Hdelivers).
      reflexivity.
    + rewrite (directAttempt_fails net Hfails),
        (proxyLoop_all_fail enc parse net _ Hall).
      reflexivity.
Qed.

End Answers.

Lemma data_is_the_first_answer_witness :
  fetchCableData Samples.asIs Samples.noParse Samples.secondProxyAnswers
  = Return Samples.twoCables.
Proof.
  apply (proj2 (data_is_the_first_answer Samples.asIs Samples.noParse
                  Samples.secondProxyAnswers Samples.twoCables)).
  left. right. split; [exact I |].
  exists [ "https://http-proxy.vastur.com?url=" ],
    "https://cors-anywhere.herokuapp.com/",
    [ "https://api.allorigins.win/get?url="; "https://corsproxy.io/?url=" ].
  split; [reflexivity |]. split.
  - intros u [<- | []]. exact I.
  - exists 200%nat. reflexivity.
Defined.

(** ** From the data to the paths *)

Section Cables.

Variable toNumber : Json -> Exn + JSNumber.num.
Variable toString : Json -> Exn + string.
Variable hue : nat -> string.

Lemma truthy_named (s : string) : s <> EmptyString -> truthy (JString s) = true.
Proof.
  intros Hs. cbn [truthy].
  destruct (String.eqb_spec s EmptyString); [congruence | reflexivity].
Qed.

Lemma pushFeature_lineString (cablePaths : list Path) (index : nat)
  (coordinates : list Json) (label tint : string) :
  label <> EmptyString -> tint <> EmptyString ->
  pushFeature toNumber toString hue cablePaths
    (feature coordinates label tint) index
  = inr (cablePaths ++ [linePath coordinates label tint])%list.
Proof.
  intros Hlabel Htint. unfold pushFeature, feature, linePath.
  cbn [get lookup String.eqb Ascii.eqb Bool.eqb truthy optionalGet orElse].
  cbn.
  destruct (String.eqb_spec label EmptyString); [congruence |].
  destruct (String.eqb_spec tint EmptyString); [congruence |].
  reflexivity.
Qed.

Lemma forEach_lineStrings
  (cables : list (list Json * string * string)) :
  Forall (fun c => snd (fst c) <> EmptyString /\ snd c <> EmptyString) cables ->
  forall (index : nat) (cablePaths : list Path),
    forEach (pushFeature toNumber toString hue)
      (map (fun c => feature (fst (fst c)) (snd (fst c)) (snd c)) cables)
      index cablePaths
    = inr (cablePaths
           ++ map (fun c => linePath (fst (fst c)) (snd (fst c)) (snd c))
                cables)%list.
Proof.
  induction 1 as [| c cables [Hlabel Htint] _ IH]; intros index cablePaths.
  - cbn. rewrite app_nil_r. reflexivity.
  - cbn [map forEach].
    rewrite (pushFeature_lineString _ _ _ _ _ Hlabel Htint), IH.
    rewrite <- app_assoc. reflexivity.
Qed.

(** Line strings become paths, one for one.  A collection whose features
    are line strings, each with a name and a colour that are not empty,
    gives one path per feature, in the order of the features, with the
    coordinates, the name and the colour of its feature untouched. *)
Theorem line_strings_become_paths
  (cables : list (list Json * string * string)) :
  Forall (fun c => snd (fst c) <> EmptyString /\ snd c <> EmptyString) cables ->
  processCableData toNumber toString hue
    (collection
       (map (fun c => feature (fst (fst c)) (snd (fst c)) (snd c)) cables))
  = inr (map (fun c => linePath (fst (fst c)) (snd (fst c)) (snd c)) cables).
Proof.
  intros Hnamed. unfold processCableData, collection.
  cbn [truthy negb get lookup]. cbn.
  apply (forEach_lineStrings cables Hnamed 0 []).
Qed.

Lemma forEach_invariant {A Acc : Type} (P : Acc -> Prop)
  (callback : Acc -> A -> nat -> Exn + Acc) :
  (forall acc item index acc',
      P acc -> callback acc item index = inr acc' -> P acc') ->
  forall (items : list A) (index : nat) (acc acc' : Acc),
    P acc -> forEach callback items index acc = inr acc' -> P acc'.
Proof.
  intros Hstep. induction items as [| item rest IH]; intros index acc acc' HP.
  - cbn. intros [= <-]. exact HP.
  - cbn [forEach].
    destruct (callback acc item index) as [e | acc1] eqn:Hcall;
      [discriminate |].
    apply IH. exact (Hstep _ _ _ _ HP Hcall).
Qed.

Lemma orElse_truthy (v : option Json) (fallback : Json) :
  truthy fallback = true -> truthy (orElse v fallback) = true.
Proof.
  intros Hf. destruct v as [v |]; cbn [orElse]; [| exact Hf].
  destruct (truthy v) eqn:Hv; [exact Hv | exact Hf].
Qed.

Lemma append_named (s : string) (c : ascii) (t : string) :
  truthy (JString (s ++ String c t)) = true.
Proof. destruct s; reflexivity. Qed.

Lemma complete_snoc (cablePaths : list Path) (path : Path) :
  Forall complete cablePaths -> complete path ->
  Forall complete (cablePaths ++ [path]).
Proof.
  intros Hall Hpath. apply Forall_app. split; [exact Hall |].
  constructor; [exact Hpath | constructor].
Qed.

Lemma pushSegment_complete (featureProperties : option Json) (index : nat)
  (cablePaths : list Path) (segment : Json) (segmentIndex : nat)
  (cablePaths' : list Path) :
  Forall complete cablePaths ->
  pushSegment toNumber toString hue featureProperties index cablePaths
    segment segmentIndex = inr cablePaths' ->
  Forall complete cablePaths'.
Proof.
  intros Hall. unfold pushSegment.
  destruct (truthy segment) eqn:Hsegment; [| intros [= <-]; exact Hall].
  destruct (greaterThanOne toNumber (lengthOf segment)) as [e | [|]];
    [discriminate | | intros [= <-]; exact Hall].
  destruct (interpolated toString _) as [e | cable]; [discriminate |].
  intros [= <-]. apply complete_snoc; [exact Hall |].
  split; [exact Hsegment |]. split.
  - apply append_named.
  - apply orElse_truthy. reflexivity.
Qed.

Lemma pushFeature_complete (cablePaths : list Path) (item : Json)
  (index : nat) (cablePaths' : list Path) :
  Forall complete cablePaths ->
  pushFeature toNumber toString hue cablePaths item index = inr cablePaths' ->
  Forall complete cablePaths'.
Proof.
  intros Hall. unfold pushFeature.
  assert (Hskip : @inr Exn _ cablePaths = inr cablePaths' ->
                  Forall complete cablePaths')
    by (intros [= <-]; exact Hall).
  destruct item; try discriminate;
    cbn [get]; try exact Hskip.
  destruct (lookup "geometry" fields) as [geometry |]; [| exact Hskip].
  destruct (truthy geometry); [| exact Hskip].
  destruct (get "coordinates" geometry) as [coordinates |]; [| exact Hskip].
  destruct (truthy coordinates) eqn:Hcoordinates; [| exact Hskip].
  destruct (get "type" geometry) as [[| | | type | |] |]; try exact Hskip.
  destruct (String.eqb type "LineString").
  - intros [= <-]. apply complete_snoc; [exact Hall |].
    split; [exact Hcoordinates |].
    split; apply orElse_truthy; reflexivity.
  - destruct (String.eqb type "MultiLineString"); [| exact Hskip].
    destruct coordinates; try discriminate.
    apply (forEach_invariant (Forall complete)); [| exact Hall].
    intros acc segment segmentIndex acc' Hacc.
    apply pushSegment_complete. exact Hacc.
Qed.

(** Every path is complete.  Whatever the data and the platform, when
    [processCableData] returns, every path of its result has coordinates,
    a name and a colour that are truthy, so that the label and the colour
    functions of the path layer never meet a missing value. *)
Theorem paths_are_complete (cablesGeo : Json) (cablePaths : list Path) :
  processCableData toNumber toString hue cablesGeo = inr cablePaths ->
  Forall complete cablePaths.
Proof.
  unfold processCableData.
  destruct (negb (truthy cablesGeo)); [intros [= <-]; constructor |].
  destruct (get "features" cablesGeo) as [[| | | | features |] |];
    try (intros [= <-]; constructor).
  apply (forEach_invariant (Forall complete)); [| constructor].
  intros acc item index acc'. apply pushFeature_complete.
Qed.

Lemma length_greaterThanOne (points : list Json) :
  greaterThanOne toNumber (lengthOf (JArray points))
  = inr (1 <? List.length points)%nat.
Proof.
  cbn [lengthOf greaterThanOne]. f_equal.
  apply Bool.eq_true_iff_eq.
  rewrite JSNumberFacts.gt_Fin, Nat.ltb_lt.
  change 1%Q with (inject_Z 1). rewrite <- Zlt_Qlt. lia.
Qed.

Lemma pushSegment_array (label tint : string) (index : nat)
  (cablePaths : list Path) (points : list Json) (segmentIndex : nat) :
  label <> EmptyString -> tint <> EmptyString ->
  pushSegment toNumber toString hue
    (Some (JObject [ ("name", JString label); ("color", JString tint) ]))
    index cablePaths (JArray points) segmentIndex
  = inr (if (1 <? List.length points)%nat
         then (cablePaths
               ++ [ linePath points
                      (label ++ " Segment "
                       ++ numberToString (segmentIndex + 1)) tint ])%list
         else cablePaths).
Proof.
  intros Hlabel Htint. unfold pushSegment.
  cbn [truthy]. rewrite length_greaterThanOne.
  destruct (1 <? List.length points)%nat; [| reflexivity].
  cbn [optionalGet get lookup]. cbn.
  destruct (String.eqb_spec label EmptyString); [congruence |].
  destruct (String.eqb_spec tint EmptyString); [congruence |].
  reflexivity.
Qed.


Lemma forEach_segments (label tint : string) (index : nat)
  (segments : list (list Json)) :
  label <> EmptyString -> tint <> EmptyString ->
  forall (first : nat) (cablePaths : list Path),
  exists added,
    forEach
      (pushSegment toNumber toString hue
         (Some (JObject [ ("name", JString label); ("color", JString tint) ]))
         index)
      (map JArray segments) first cablePaths
    = inr (cablePaths ++ added)%list
    /\ forall path,
         In path added
         <-> exists k points,
               nth_error segments k = Some points
               /\ (2 <= List.length points)%nat
               /\ path = linePath points
                           (label ++ " Segment "
                            ++ numberToString (first + k + 1)) tint.
Proof.
  intros Hlabel Htint.
  induction segments as [| points rest IH]; intros first cablePaths.
  - exists []. split; [cbn; now rewrite app_nil_r |].
    intros path. split; [intros [] |].
    intros [k [points [Hk _]]]. destruct k; discriminate.
  - cbn [map forEach].
    rewrite (pushSegment_array label tint index cablePaths points first
               Hlabel Htint).
    destruct (Nat.ltb_spec 1 (List.length points)) as [Hlong | Hshort].
    + match goal with
      | |- context [forEach _ _ _ (cablePaths ++ [?p])%list] =>
          destruct (IH (S first) (cablePaths ++ [p])%list)
            as [added [Heq Hin]];
          exists (p :: added)
      end.
      split; [rewrite Heq, <- app_assoc; reflexivity |].
      intros path. cbn [In]. rewrite Hin. split.
      * intros [<- | [k [pts [Hk [Hlen ->]]]]].
        -- exists 0%nat, points. split; [reflexivity |].
           split; [lia |]. unfold linePath.
           replace (first + 0 + 1)%nat with (first + 1)%nat by lia.
           reflexivity.
        -- exists (S k), pts. split; [exact Hk |]. split; [exact Hlen |].
           replace (first + S k + 1)%nat with (S first + k + 1)%nat by lia.
           reflexivity.
      * intros [[| k] [pts [Hk [Hlen ->]]]].
        -- left. injection Hk as <-. unfold linePath.
           replace (first + 0 + 1)%nat with (first + 1)%nat by lia.
           reflexivity.
        -- right. exists k, pts. split; [exact Hk |]. split; [exact Hlen |].
           replace (first + S k + 1)%nat with (S first + k + 1)%nat by lia.
           reflexivity.
    + destruct (IH (S first) cablePaths) as [added [Heq Hin]].
      exists added. split; [exact Heq |].
      intros path. rewrite Hin. split.
      * intros [k [pts [Hk [Hlen ->]]]].
        exists (S k), pts. split; [exact Hk |]. split; [exact Hlen |].
        replace (first + S k + 1)%nat with (S first + k + 1)%nat by lia.
        reflexivity.
      * intros [[| k] [pts [Hk [Hlen ->]]]].
        -- injection Hk as <-. lia.
        -- exists k, pts. split; [exact Hk |]. split; [exact Hlen |].
           replace (first + S k + 1)%nat with (S first + k + 1)%nat by lia.
           reflexivity.
Qed.

Lemma pushFeature_multi (cablePaths : list Path) (index : nat)
  (segments : list (list Json)) (label tint : string) :
  pushFeature toNumber toString hue cablePaths
    (multiFeature segments label tint) index
  = forEach
      (pushSegment toNumber toString hue
         (Some (JObject [ ("name", JString label); ("color", JString tint) ]))
         index)
      (map JArray segments) 0 cablePaths.
Proof. reflexivity. Qed.


(** The segments of a multi line string become paths.  For a feature of
    type MultiLineString whose coordinates are a list of segments, with a
    name and a colour that are not empty, the paths are exactly the
    segments of two points or more; the path of segment [k] (counted from
    0 over all the segments, the dropped ones included) is named after the
    feature with [Segment k+1] appended and has the colour of the
    feature. *)
Theorem segments_become_paths (segments : list (list Json))
  (label tint : string) :
  label <> EmptyString -> tint <> EmptyString ->
  exists cablePaths,
    processCableData toNumber toString hue
      (collection [multiFeature segments label tint])
    = inr cablePaths
    /\ forall path,
         In path cablePaths
         <-> exists k points,
               nth_error segments k = Some points
               /\ (2 <= List.length points)%nat
               /\ path = linePath points
                           (label ++ " Segment " ++ numberToString (k + 1))
                           tint.
Proof.
  intros Hlabel Htint.
  destruct (forEach_segments label tint 0 segments Hlabel Htint 0 [])
    as [added [Heq Hin]].
  exists added. split; [| exact Hin].
  replace (processCableData toNumber toString hue
             (collection [multiFeature segments label tint]))
    with (forEach (pushFeature toNumber toString hue)
            [multiFeature segments label tint] 0 []) by reflexivity.
  cbn [forEach]. rewrite pushFeature_multi, Heq. reflexivity.
Qed.


End Cables.

Lemma line_strings_become_paths_witness :
  processCableData Samples.notNumeric Samples.notPrintable Samples.wholeHue
    Samples.twoCables
  = inr [ linePath [ point 0 52; point 10 54 ] "North Sea Link" "#00ff88";
          linePath [ point 139 35; point 103 1 ] "Asia Direct" "#ffaa00" ].
Proof.
  apply (line_strings_become_paths Samples.notNumeric Samples.notPrintable
           Samples.wholeHue
           [ ([ point 0 52; point 10 54 ], "North Sea Link", "#00ff88");
             ([ point 139 35; point 103 1 ], "Asia Direct", "#ffaa00") ]).
  repeat constructor; discriminate.
Defined.

Lemma paths_are_complete_witness :
  Forall complete
    [ linePath [ point 0 52; point 10 54 ] "North Sea Link" "#00ff88";
      linePath [ point 139 35; point 103 1 ] "Asia Direct" "#ffaa00" ].
Proof.
  apply (paths_are_complete Samples.notNumeric Samples.notPrintable
           Samples.wholeHue Samples.twoCables).
  reflexivity.
Defined.

Lemma segments_become_paths_witness :
  exists cablePaths,
    processCableData Samples.notNumeric Samples.notPrintable Samples.wholeHue
      (collection
         [ multiFeature
             [ [ point 0 52; point 10 54 ]; [ point 20 55 ];
               [ point 30 60; point 40 61; point 50 62 ] ]
             "Baltic Ring" "#00ff88" ])
    = inr cablePaths
    /\ forall path,
         In path cablePaths
         <-> exists k points,
               nth_error
                 [ [ point 0 52; point 10 54 ]; [ point 20 55 ];
                   [ point 30 60; point 40 61; point 50 62 ] ] k
               = Some points
               /\ (2 <= List.length points)%nat
               /\ path = linePath points
                           ("Baltic Ring" ++ " Segment "
                            ++ numberToString (k + 1))
                           "#00ff88".
Proof.
  apply (segments_become_paths Samples.notNumeric Samples.notPrintable
           Samples.wholeHue); discriminate.
Defined.


(** ** Loading the cables onto the globe *)

Section Loading.

Variable enc : string -> string.
Variable parse : option Json -> Exn + Json.
Variable toNumber : Json -> Exn + JSNumber.num.
Variable toString : Json -> Exn + string.
Variable hue : nat -> string.

Lemma length_zero {A : Type} (l : list A) :
  (List.length l =? 0)%nat = false -> l <> [].
Proof. destruct l; discriminate. Qed.

Lemma load_cases (fetch : string -> Response) (st : State)
  (g : GlobeInstance) :
  cablesLoaded st = false ->
  let result := loadCableDataAsync enc parse toNumber toString hue fetch st g in
  (cablesLoaded (fst result) = false /\ snd result = g
   /\ ~ givesPaths enc parse toNumber toString hue fetch)
  \/ (cablesLoaded (fst result) = true
      /\ exists data cablePaths,
           fetchCableData enc parse fetch = Return data
           /\ processCableData toNumber toString hue data = inr cablePaths
           /\ cablePaths <> []
           /\ cableData (fst result) = Some data
           /\ snd result = withCablePaths cablePaths g).
Proof.
  intros Hfresh result. subst result.
  unfold loadCableDataAsync, givesPaths. rewrite Hfresh.
  destruct (fetchCableData enc parse fetch) as [| data | e].
  - left. split; [exact Hfresh |]. split; [reflexivity |].
      intros [d [c [H _]]]. discriminate H.
  - destruct (processCableData toNumber toString hue data)
      as [e | cablePaths] eqn:Hpaths.
    + left. split; [exact Hfresh |]. split; [reflexivity |].
      intros [d [c [Hd [Hc _]]]].
      injection Hd as <-. rewrite Hpaths in Hc. discriminate Hc.
    + destruct (List.length cablePaths =? 0)%nat eqn:Hlength.
      * left. split; [exact Hfresh |]. split; [reflexivity |].
      intros [d [c [Hd [Hc Hne]]]].
        injection Hd as <-. rewrite Hpaths in Hc. injection Hc as <-.
        destruct cablePaths; [contradiction | discriminate].
      * right. split; [reflexivity |]. exists data, cablePaths.
        split; [reflexivity |]. split; [exact Hpaths |].
        split; [exact (length_zero _ Hlength) |]. split; reflexivity.
  - left. split; [exact Hfresh |]. split; [reflexivity |].
      intros [d [c [H _]]]. discriminate H.
Qed.

Lemma loaded_stays (networks : list (string -> Response)) (st : State)
  (g : GlobeInstance) :
  cablesLoaded st = true ->
  loadAll enc parse toNumber toString hue networks st g = (st, g).
Proof.
  intros Hloaded. unfold loadAll.
  induction networks as [| fetch rest IH]; [reflexivity |].
  cbn [fold_left fst snd]. unfold loadCableDataAsync at 2.
  rewrite Hloaded. exact IH.
Qed.

(** The cables are loaded once.  Over any sequence of completed calls of
    [loadCableDataAsync] on one globe, on whatever networks, starting with
    [cablesLoaded] false: either no call got a path out of its data, the
    flag is still false and nothing was set on the globe; or the flag is
    true and the globe shows the paths of the first call that got at
    least one path out of its data: no call before it got a path, those
    calls left the flag false and the globe untouched, and the calls
    after it changed nothing. *)
Theorem cables_load_once (networks : list (string -> Response))
  (st0 : State) (g0 : GlobeInstance) :
  cablesLoaded st0 = false ->
  let load := loadAll enc parse toNumber toString hue in
  (cablesLoaded (fst (load networks st0 g0)) = false
   /\ snd (load networks st0 g0) = g0
   /\ forall fetch, In fetch networks ->
        ~ givesPaths enc parse toNumber toString hue fetch)
  \/ (cablesLoaded (fst (load networks st0 g0)) = true
      /\ exists before fetch after data cablePaths,
           networks = (before ++ fetch :: after)%list
           /\ (forall earlier, In earlier before ->
                 ~ givesPaths enc parse toNumber toString hue earlier)
           /\ cablesLoaded (fst (load before st0 g0)) = false
           /\ snd (load before st0 g0) = g0
           /\ fetchCableData enc parse fetch = Return data
           /\ processCableData toNumber toString hue data = inr cablePaths
           /\ cablePaths <> []
           /\ cableData (fst (load networks st0 g0)) = Some data
           /\ snd (load networks st0 g0) = withCablePaths cablePaths g0).
Proof.
  intros Hfresh load. subst load. revert st0 Hfresh.
  induction networks as [| fetch rest IH]; intros st0 Hfresh.
  - left. split; [exact Hfresh |]. split; [reflexivity |]. intros f [].
  - assert (Hstep : forall nets,
               loadAll enc parse toNumber toString hue (fetch :: nets) st0 g0
               = loadAll enc parse toNumber toString hue nets
                   (fst (loadCableDataAsync enc parse toNumber toString hue
                           fetch st0 g0))
                   (snd (loadCableDataAsync enc parse toNumber toString hue
                           fetch st0 g0))).
    { intros nets. unfold loadAll. cbn [fold_left fst snd].
      destruct (loadCableDataAsync enc parse toNumber toString hue
                  fetch st0 g0); reflexivity. }
    rewrite Hstep.
    destruct (load_cases fetch st0 g0 Hfresh)
      as [[Hstill [Hsame Hnone]] | [Hloaded [data [cablePaths H]]]].
    + rewrite Hsame.
      destruct (IH _ Hstill)
        as [[Hflag [Hglobe Hall]]
           | [Hloaded [before [f [after [data [cablePaths H]]]]]]].
      * left. split; [exact Hflag |]. split; [exact Hglobe |].
        intros f [<- | Hf]; [exact Hnone | exact (Hall f Hf)].
      * right. split; [exact Hloaded |].
        exists (fetch :: before), f, after, data, cablePaths.
        destruct H as [-> [Hbefore H]]. split; [reflexivity |].
        split; [intros e [<- | He]; [exact Hnone | exact (Hbefore e He)] |].
        rewrite Hstep, Hsame. exact H.
    + rewrite (loaded_stays rest _ _ Hloaded). cbn [fst snd].
      right. split; [exact Hloaded |].
      exists [], fetch, rest, data, cablePaths.
      split; [reflexivity |]. split; [intros e [] |].
      split; [exact Hfresh |]. split; [reflexivity |]. exact H.
Qed.

(** Without a network the globe shows the five cables of the mock
    collection.  When no attempt delivers anything, a call with
    [cablesLoaded] false sets the flag, keeps the mock collection as cable
    data and puts five paths on the globe, which carry the names and the
    colours of the five mock cables in their order. *)
Theorem offline_globe_shows_mock_cables (fetch : string -> Response)
  (st : State) (g : GlobeInstance) :
  noAnswer enc parse fetch ->
  cablesLoaded st = false ->
  let result := loadCableDataAsync enc parse toNumber toString hue fetch st g in
  cablesLoaded (fst result) = true
  /\ cableData (fst result) = Some mockData
  /\ map (fun path => (name (properties path), color (properties path)))
       (pathsData (snd result))
     = [ (JString "TransAtlantic Cable", JString "#00aaff");
         (JString "TransPacific Cable", JString "#ff6600");
         (JString "European Cable", JString "#00ff88");
         (JString "Asia Cable", JString "#ffaa00");
         (JString "Americas Cable", JString "#aa00ff") ]
  /\ pathStroke (snd result) = Some 1.5
  /\ pointOfView (snd result) = pointOfView g.
Proof.
  intros [Hdirect Hproxies] Hfresh result. subst result.
  unfold loadCableDataAsync. rewrite Hfresh.
  assert (Hmock : fetchCableData enc parse fetch = Return mockData).
  { unfold fetchCableData.
    rewrite (directAttempt_fails fetch Hdirect),
      (proxyLoop_all_fail enc parse fetch _ Hproxies).
    reflexivity. }
  rewrite Hmock.
  pose (cables :=
    [ ([ point (-74) 40; point (-60) 45; point (-40) 50;
         point (-20) 52; point (-0.1) 51.5 ],
       "TransAtlantic Cable", "#00aaff");
      ([ point (-118) 34; point (-140) 25; point (-160) 20;
         point (-180) 25; point 160 30; point 139 35 ],
       "TransPacific Cable", "#ff6600");
      ([ point 0 52; point 10 54; point 20 55; point 30 60 ],
       "European Cable", "#00ff88");
      ([ point 139 35; point 130 25; point 120 15;
         point 110 5; point 103 1 ],
       "Asia Cable", "#ffaa00");
      ([ point (-74) 40; point (-80) 30; point (-85) 20;
         point (-90) 10; point (-85) (-10); point (-70) (-30) ],
       "Americas Cable", "#aa00ff") ]%string).
  assert (Hpaths :
    processCableData toNumber toString hue mockData
    = inr (map (fun c => linePath (fst (fst c)) (snd (fst c)) (snd c))
             cables)).
  { apply (line_strings_become_paths toNumber toString hue cables).
    repeat constructor; discriminate. }
  rewrite Hpaths. cbn [map List.length Nat.eqb fst snd].
  repeat split.
Qed.

End Loading.

Lemma cables_load_once_witness :
  cablesLoaded state0 = false
  /\ pathsData
       (snd (loadAll Samples.asIs Samples.noParse Samples.notNumeric
               Samples.notPrintable Samples.wholeHue
               [Samples.secondProxyAnswers; Samples.offline]
               state0 Samples.newGlobe))
     = [ linePath [ point 0 52; point 10 54 ] "North Sea Link" "#00ff88";
         linePath [ point 139 35; point 103 1 ] "Asia Direct" "#ffaa00" ].
Proof.
  split; [reflexivity |].
  destruct (cables_load_once Samples.asIs Samples.noParse Samples.notNumeric
              Samples.notPrintable Samples.wholeHue
              [Samples.secondProxyAnswers; Samples.offline]
              state0 Samples.newGlobe eq_refl)
    as [[Hstill _] | [_ _]].
  - discriminate Hstill.
  - reflexivity.
Defined.

Lemma offline_globe_shows_mock_cables_witness :
  noAnswer Samples.asIs Samples.noParse Samples.offline
  /\ cablesLoaded
       (fst (loadCableDataAsync Samples.asIs Samples.noParse
               Samples.notNumeric Samples.notPrintable Samples.wholeHue
               Samples.offline state0 Samples.newGlobe))
     = true.
Proof.
  assert (Hoffline : noAnswer Samples.asIs Samples.noParse Samples.offline).
  { split; [exact I |].
    intros proxyUrl [<- | [<- | [<- | [<- | []]]]]; exact I. }
  split; [exact Hoffline |].
  exact (proj1 (offline_globe_shows_mock_cables Samples.asIs Samples.noParse
                  Samples.notNumeric Samples.notPrintable Samples.wholeHue
                  Samples.offline state0 Samples.newGlobe Hoffline eq_refl)).
Defined.

(** ** The camera *)

Lemma truncate_bounds (x : Q) :
  ((0 <= x)%Q ->
   (inject_Z (truncate x) <= x)%Q /\ (x < inject_Z (truncate x) + 1)%Q)
  /\ ((x <= 0)%Q ->
      (x <= inject_Z (truncate x))%Q /\ (inject_Z (truncate x) - 1 < x)%Q).
Proof.
  unfold truncate.
  destruct (Qle_bool 0 x) eqn:Hsign.
  - apply Qle_bool_iff in Hsign. split; intros Hx.
    + split; [apply Qfloor_le |].
      pose proof (Qlt_floor x) as H.
      rewrite inject_Z_plus in H. exact H.
    + pose proof (Qfloor_resp_le 0 x Hsign) as Hfloor.
      change (Qfloor 0) with 0%Z in Hfloor.
      rewrite Zle_Qle in Hfloor. change (inject_Z 0) with 0%Q in Hfloor.
      pose proof (Qfloor_le x). split; lra.
  - assert (Hneg : ~ (0 <= x)%Q).
    { intros H. apply Qle_bool_iff in H. congruence. }
    split; intros Hx; [contradiction |].
    split; [apply Qle_ceiling |].
    pose proof (Qceiling_lt x) as H.
    unfold Z.sub in H. rewrite inject_Z_plus in H.
    change (inject_Z (- (1))) with (- (1))%Q in H. lra.
Qed.

Lemma rem_Fin (a b : Q) :
  (0 < b)%Q ->
  exists r turns,
    rem (JSNumber.Fin a) (JSNumber.Fin b) = JSNumber.Fin r
    /\ (r == a - b * inject_Z turns)%Q
    /\ (- b < r)%Q /\ (r < b)%Q.
Proof.
  intros Hb. unfold rem.
  destruct (Qeq_bool b 0) eqn:Hzero.
  { apply Qeq_bool_iff in Hzero. lra. }
  exists (a - b * inject_Z (truncate (a / b)))%Q, (truncate (a / b)).
  split; [reflexivity |]. split; [reflexivity |].
  assert (Hdiv : (a / b * b == a)%Q) by (field; lra).
  destruct (truncate_bounds (a / b)) as [Hpos Hneg].
  set (x := (a / b)%Q) in *. set (t := inject_Z (truncate x)) in *.
  destruct (Qlt_le_dec a 0) as [Ha | Ha].
  - assert (Hx : (x <= 0)%Q).
    { apply Qle_shift_div_r; lra. }
    destruct (Hneg Hx) as [H1 H2]. split; nra.
  - assert (Hx : (0 <= x)%Q).
    { apply Qle_shift_div_l; lra. }
    destruct (Hpos Hx) as [H1 H2]. split; nra.
Qed.

Section Scroll.

Variable pow : JSNumber.num -> JSNumber.num -> JSNumber.num.

(** The camera follows the scroll.  On an initialised globe, for a scroll
    progress [q] between 0 and 1 whose cube root the platform gives as a
    [c] between 0 and 1: when [q] is less than 0.001 away from the
    progress of the last update, nothing changes at all; when it is not
    (or no finite progress is recorded), [q] is recorded, the altitude
    becomes [3.5 - 3.2 c], which is within the range 0.3 to 3.5, the
    longitude advances by the speed [0.1 + 0.9 q] up to whole turns and
    stays strictly within one turn, and the latitude and the paths stay
    as they are. *)
Theorem camera_follows_scroll (q c l : Q) (st : State) (g : GlobeInstance) :
  globe st = Some g -> isInitialized st = true ->
  (0 <= q <= 1)%Q ->
  pow (JSNumber.Fin q) (JSNumber.Fin (1 / 3)) = JSNumber.Fin c ->
  (0 <= c <= 1)%Q ->
  lng (pointOfView g) = JSNumber.Fin l ->
  let st' := updateGlobeScroll pow (JSNumber.Fin q) st in
  ((exists last, lastScrollProgress st = JSNumber.Fin last
                 /\ (Qabs (q - last) < 0.001)%Q) ->
   st' = st)
  /\ ((forall last, lastScrollProgress st = JSNumber.Fin last ->
         (0.001 <= Qabs (q - last))%Q) ->
      lastScrollProgress st' = JSNumber.Fin q
      /\ exists g' high l' turns,
           globe st' = Some g'
           /\ altitude (pointOfView g') = JSNumber.Fin high
           /\ (high == 3.5 - 3.2 * c)%Q /\ (0.3 <= high <= 3.5)%Q
           /\ lng (pointOfView g') = JSNumber.Fin l'
           /\ (l' == l + (0.1 + 0.9 * q) - 360 * inject_Z turns)%Q
           /\ (-360 < l' < 360)%Q
           /\ lat (pointOfView g') = lat (pointOfView g)
           /\ pathsData g' = pathsData g).
Proof.
  intros Hglobe Hinit Hq Hpow Hc Hlng st'. subst st'.
  unfold updateGlobeScroll. rewrite Hglobe, Hinit. cbn [negb].
  destruct (JSNumber.lt
              (JSNumber.Math_abs
                 (JSNumber.sub (JSNumber.Fin q) (lastScrollProgress st)))
              (JSNumber.Fin 0.001)) eqn:Hnear.
  - split; [reflexivity |]. intros Hfar. exfalso.
    destruct (lastScrollProgress st) as [last | | |]; try discriminate.
    apply JSNumberFacts.lt_Fin in Hnear.
    pose proof (Hfar last eq_refl) as H.
    apply (Qlt_irrefl 0.001). apply Qle_lt_trans with (Qabs (q - last)).
    + exact H.
    + exact Hnear.
  - split.
    { intros [last [Hlast Hclose]]. exfalso. rewrite Hlast in Hnear.
      apply JSNumberFacts.lt_Fin in Hclose. 
      change (JSNumber.Math_abs (JSNumber.sub (JSNumber.Fin q)
                                   (JSNumber.Fin last)))
        with (JSNumber.Fin (Qabs (q + - last))) in Hnear.
      change (JSNumber.Fin (Qabs (q - last))) with
        (JSNumber.Fin (Qabs (q + - last))) in Hclose.
      congruence. }
    intros _. cbn [lastScrollProgress]. split; [reflexivity |].
    cbn [zoomCurveExponent scrollAltitudeRange baseRotateSpeed maxRotateSpeed
         GLOBE_SETTINGS fst snd].
    change (JSNumber.div (JSNumber.Fin 1) (JSNumber.Fin 3))
      with (JSNumber.Fin (1 / 3)).
    rewrite Hpow.
    cbn [globe setPointOfView pointOfView lat lng altitude pathsData].
    rewrite Hlng.
    destruct (rem_Fin (l + (0.1 + (1 + - 0.1) * q)) 360 ltac:(lra))
      as [l' [turns [Hrem [Hl' [Hlow Hhigh]]]]].
    eexists. exists (0.3 + (3.5 + - 0.3) * (1 + - c))%Q, l', turns.
    split; [reflexivity |].
    cbn [pointOfView altitude lng lat pathsData].
    split; [reflexivity |]. split; [lra |]. split; [lra |].
    split; [exact Hrem |]. split; [lra |]. split; [lra |].
    split; reflexivity.
Qed.

End Scroll.

Lemma camera_follows_scroll_witness :
  GlobeBackground.isInitialized Samples.globeState = true
  /\ lastScrollProgress
       (updateGlobeScroll Samples.powAtEighth (JSNumber.Fin 0.125)
          Samples.globeState)
     = JSNumber.Fin 0.125.
Proof.
  split; [reflexivity |].
  refine (proj1 (proj2 (camera_follows_scroll Samples.powAtEighth 0.125 0.5 0
                          Samples.globeState Samples.newGlobe eq_refl eq_refl
                          _ eq_refl _ eq_refl) _)).
  - split; lra.
  - split; lra.
  - intros last [= <-]. apply Qle_bool_iff. reflexivity.
Defined.

End GlobeBackgroundMore.


(* ================================================================== *)
(** * More on the background *)
(* ================================================================== *)

Module BackgroundTransitionMore.
Import JSNumber JSNumberFacts DoubleFacts BackgroundTransition
  BackgroundTransitionSpec.
Local Open Scope num_scope.

Lemma floor_le_integer (x : Q) (z : Z) :
  (x < inject_Z z + 1)%Q -> (Qfloor x <= z)%Z.
Proof.
  intros Hx. pose proof (Qfloor_le x) as Hfloor.
  destruct (Z_le_gt_dec (Qfloor x) z) as [Hle | Hgt]; [exact Hle |].
  assert (H : (inject_Z (z + 1) <= inject_Z (Qfloor x))%Q)
    by (rewrite <- Zle_Qle; lia).
  rewrite inject_Z_plus in H. change (inject_Z 1) with 1%Q in H. lra.
Qed.

Lemma integer_le_floor (x : Q) (z : Z) :
  (inject_Z z <= x)%Q -> (z <= Qfloor x)%Z.
Proof.
  intros Hx. rewrite <- (Qfloor_Z z). apply Qfloor_resp_le. exact Hx.
Qed.

(** A channel blended between two integer channels [a <= b] stays between
    them and grows with the factor. *)
Lemma channel_between (a b : Z) (f f' : Q) :
  (0 <= a)%Z -> (a <= b)%Z -> (b <= 255)%Z ->
  (0 <= f)%Q -> (f <= f')%Q -> (f' <= 1)%Q ->
  (Fin (inject_Z a)
   <=? Math_round (lerp (Fin (inject_Z a)) (Fin (inject_Z b)) (Fin f))) = true
  /\ (Math_round (lerp (Fin (inject_Z a)) (Fin (inject_Z b)) (Fin f))
      <=? Math_round (lerp (Fin (inject_Z a)) (Fin (inject_Z b)) (Fin f')))
     = true
  /\ (Math_round (lerp (Fin (inject_Z a)) (Fin (inject_Z b)) (Fin f'))
      <=? Fin (inject_Z b)) = true.
Proof.
  intros Ha Hab Hb Hf Hff Hf'.
  assert (Qa : (0 <= inject_Z a)%Q)
    by (change 0%Q with (inject_Z 0); rewrite <- Zle_Qle; exact Ha).
  assert (Qab : (inject_Z a <= inject_Z b)%Q) by (rewrite <- Zle_Qle; exact Hab).
  assert (Qb : (inject_Z b <= 255)%Q)
    by (change 255%Q with (inject_Z 255); rewrite <- Zle_Qle; exact Hb).
  assert (Ea : (Double.round (inject_Z a) == inject_Z a)%Q)
    by (apply round_int; lia).
  assert (Eb : (Double.round (inject_Z b) == inject_Z b)%Q)
    by (apply round_int; lia).
  assert (Ed : (Double.round (inject_Z b + - inject_Z a)
                == inject_Z b + - inject_Z a)%Q).
  { assert (E : (inject_Z b + - inject_Z a == inject_Z (b - a))%Q).
    { unfold Z.sub. rewrite inject_Z_plus, inject_Z_opp. reflexivity. }
    rewrite (round_comp _ _ E), E. apply round_int. lia. }
  destruct (channelOf_bounds _ _ f Qa Qab Qb Ea Eb Ed Hf ltac:(lra))
    as [-> [L1 U1]].
  destruct (channelOf_bounds _ _ f' Qa Qab Qb Ea Eb Ed ltac:(lra) Hf')
    as [-> [L2 U2]].
  pose proof (channelOf_mono _ _ f f' Qa Qab Ed Hf Hff) as M.
  cbn [Math_round]. rewrite !le_Fin, <- !Zle_Qle.
  split; [| split].
  - apply integer_le_floor. lra.
  - apply Qfloor_resp_le. lra.
  - apply floor_le_integer. lra.
Qed.

Lemma interpolateColor_between (c d : Color) (ar ag ab br bg bb : Z)
  (f f' : Q) :
  c = {| r := Fin (inject_Z ar); g := Fin (inject_Z ag);
         b := Fin (inject_Z ab) |} ->
  d = {| r := Fin (inject_Z br); g := Fin (inject_Z bg);
         b := Fin (inject_Z bb) |} ->
  (0 <= ar <= br)%Z -> (0 <= ag <= bg)%Z -> (0 <= ab <= bb)%Z ->
  (br <= 255)%Z -> (bg <= 255)%Z -> (bb <= 255)%Z ->
  (0 <= f)%Q -> (f <= f')%Q -> (f' <= 1)%Q ->
  noBrighter c (interpolateColor c d (Fin f))
  /\ noBrighter (interpolateColor c d (Fin f))
       (interpolateColor c d (Fin f'))
  /\ noBrighter (interpolateColor c d (Fin f')) d.
Proof.
  intros -> -> [Hr0 Hr] [Hg0 Hg] [Hb0 Hb] Ur Ug Ub Hf Hff Hf'.
  destruct (channel_between ar br f f' Hr0 Hr Ur Hf Hff Hf') as [R1 [R2 R3]].
  destruct (channel_between ag bg f f' Hg0 Hg Ug Hf Hff Hf') as [G1 [G2 G3]].
  destruct (channel_between ab bb f f' Hb0 Hb Ub Hf Hff Hf') as [B1 [B2 B3]].
  unfold noBrighter, interpolateColor. cbn [r g b]. auto 10.
Qed.

Lemma noBrighter_trans (c d e : Color) :
  isNaN (r d) = false -> isNaN (g d) = false -> isNaN (b d) = false ->
  noBrighter c d -> noBrighter d e -> noBrighter c e.
Proof.
  assert (Hle : forall x y z, isNaN y = false ->
            (x <=? y) = true -> (y <=? z) = true -> (x <=? z) = true).
  { intros x y z Hy. unfold le.
    destruct x as [x | | |], y as [y | | |], z as [z | | |];
      cbn; try congruence; try discriminate.
    destruct (Qcompare_spec x y), (Qcompare_spec y z), (Qcompare_spec x z);
      intros; try congruence; try lra. }
  intros Hr Hg Hb [R1 [G1 B1]] [R2 [G2 B2]].
  split; [exact (Hle _ _ _ Hr R1 R2) |].
  split; [exact (Hle _ _ _ Hg G1 G2) | exact (Hle _ _ _ Hb B1 B2)].
Qed.

(** Clamping keeps the order and lands between 0 and 1. *)
Lemma clamp_mono (x y : num) :
  isNaN x = false -> isNaN y = false -> (x <=? y) = true ->
  exists p q,
    Math_max (Fin 0) (Math_min (Fin 1) x) = Fin p
    /\ Math_max (Fin 0) (Math_min (Fin 1) y) = Fin q
    /\ (0 <= p)%Q /\ (p <= q)%Q /\ (q <= 1)%Q.
Proof.
  intros Hx Hy Hxy.
  destruct x as [a | | |], y as [c | | |]; try discriminate;
    try apply le_Fin in Hxy; unfold Math_min, Math_max, cmp;
    repeat match goal with
           | |- context [(?u ?= ?v)%Q] =>
               destruct (Qcompare_spec u v); cbn [cmp]
           end;
    do 2 eexists; (split; [reflexivity |]); (split; [reflexivity |]);
    repeat split; lra.
Qed.

(** The position in each of the two intervals: between 0 and 1, and
    growing with the progress. *)
Lemma factor_low (p q : Q) :
  (0 <= p)%Q -> (p <= q)%Q ->
  (q <= 3602879701896397 # 9007199254740992)%Q ->
  (0 <= segmentProgressOf 0 (3602879701896397 # 9007199254740992) p)%Q
  /\ (segmentProgressOf 0 (3602879701896397 # 9007199254740992) p
      <= segmentProgressOf 0 (3602879701896397 # 9007199254740992) q)%Q
  /\ (segmentProgressOf 0 (3602879701896397 # 9007199254740992) q <= 1)%Q.
Proof.
  intros H0 Hpq H1.
  destruct (segmentProgress_Fin 0 (3602879701896397 # 9007199254740992) p)
    as [_ [P0 _]]; try lra; try exact first_interval_exact.
  destruct (segmentProgress_Fin 0 (3602879701896397 # 9007199254740992) q)
    as [_ [_ Q1]]; try lra; try exact first_interval_exact.
  split; [exact P0 |]. split; [| exact Q1].
  apply segmentProgress_mono; try lra. exact first_interval_exact.
Qed.

Lemma factor_high (p q : Q) :
  (3602879701896397 # 9007199254740992 <= p)%Q -> (p <= q)%Q -> (q <= 1)%Q ->
  (0 <= segmentProgressOf (3602879701896397 # 9007199254740992) 1 p)%Q
  /\ (segmentProgressOf (3602879701896397 # 9007199254740992) 1 p
      <= segmentProgressOf (3602879701896397 # 9007199254740992) 1 q)%Q
  /\ (segmentProgressOf (3602879701896397 # 9007199254740992) 1 q <= 1)%Q.
Proof.
  intros H0 Hpq H1.
  destruct (segmentProgress_Fin (3602879701896397 # 9007199254740992) 1 p)
    as [_ [P0 _]]; try lra; try exact second_interval_exact.
  destruct (segmentProgress_Fin (3602879701896397 # 9007199254740992) 1 q)
    as [_ [_ Q1]]; try lra; try exact second_interval_exact.
  split; [exact P0 |]. split; [| exact Q1].
  apply segmentProgress_mono; try lra. exact second_interval_exact.
Qed.

(** The background only gets brighter.  For two scroll positions that
    are no [NaN], the color at the lower one is no brighter than the color
    at the higher one in any of its three channels, and both lie between
    the first and the last color of the configuration, black and light
    blue, positions before the start or past the end included. *)
Theorem background_only_brightens (x y : num) :
  isNaN x = false -> isNaN y = false -> (x <=? y) = true ->
  noBrighter (colorAt palette 0) (interpolatedColor x)
  /\ noBrighter (interpolatedColor x) (interpolatedColor y)
  /\ noBrighter (interpolatedColor y) (colorAt palette 2).
Proof.
  intros Hx Hy Hxy.
  destruct (clamp_mono x y Hx Hy Hxy) as [p [q [Hp [Hq [H0 [Hpq H1]]]]]].
  assert (B01 := fun f f' =>
    interpolateColor_between (colorAt palette 0) (colorAt palette 1)
      0 0 0 15 0 107 f f' eq_refl eq_refl
      ltac:(lia) ltac:(lia) ltac:(lia) ltac:(lia) ltac:(lia) ltac:(lia)).
  assert (B12 := fun f f' =>
    interpolateColor_between (colorAt palette 1) (colorAt palette 2)
      15 0 107 62 116 255 f f' eq_refl eq_refl
      ltac:(lia) ltac:(lia) ltac:(lia) ltac:(lia) ltac:(lia) ltac:(lia)).
  assert (Hmid : forall c e,
             noBrighter c (colorAt palette 1) ->
             noBrighter (colorAt palette 1) e -> noBrighter c e).
  { intros c e. apply noBrighter_trans; reflexivity. }
  destruct (Qlt_le_dec (3602879701896397 # 9007199254740992) p)
    as [Hhigh | Hlow].
  - rewrite (color_high x p Hp Hhigh ltac:(lra)),
      (color_high y q Hq ltac:(lra) H1).
    destruct (factor_high p q ltac:(lra) Hpq H1) as [F0 [F1 F2]].
    destruct (B12 _ _ F0 F1 F2) as [L [M U]].
    split; [| split; assumption].
    apply Hmid; [| exact L]. repeat split.
  - destruct (Qlt_le_dec (3602879701896397 # 9007199254740992) q)
      as [Hqhigh | Hqlow].
    + rewrite (color_low x p Hp H0 Hlow),
        (color_high y q Hq Hqhigh H1).
      destruct (factor_low p p H0 ltac:(lra) Hlow) as [F0 [F1 F2]].
      destruct (factor_high q q ltac:(lra) ltac:(lra) H1) as [G0 [G1 G2]].
      destruct (B01 _ _ F0 F1 F2) as [L [_ U]].
      destruct (B12 _ _ G0 G1 G2) as [L' [_ U']].
      split; [exact L |]. split; [| exact U'].
      apply Hmid; assumption.
    + rewrite (color_low x p Hp H0 Hlow),
        (color_low y q Hq ltac:(lra) Hqlow).
      destruct (factor_low p q H0 Hpq Hqlow) as [F0 [F1 F2]].
      destruct (B01 _ _ F0 F1 F2) as [L [M U]].
      split; [exact L |]. split; [exact M |].
      apply Hmid; [exact U |]. repeat split.
Qed.

Lemma background_only_brightens_witness :
  (Fin 0.2 <=? PosInf) = true
  /\ noBrighter (interpolatedColor (Fin 0.2)) (interpolatedColor PosInf).
Proof.
  split; [reflexivity |].
  exact (proj1 (proj2 (background_only_brightens (Fin 0.2) PosInf
                         eq_refl eq_refl eq_refl))).
Defined.

End BackgroundTransitionMore.


(* ================================================================== *)
(** * The title box at rest *)
(* ================================================================== *)

Module TitleBoxingRest.
Import JSNumber Browser ClassListFacts TitleBoxing.

Lemma remove_twice (names classes : list string) :
  classList_remove names (classList_remove names classes)
  = classList_remove names classes.
Proof.
  unfold classList_remove.
  induction classes as [| c rest IH]; [reflexivity |].
  cbn [filter].
  destruct (negb (existsb (String.eqb c) names)) eqn:Hkeep; [| exact IH].
  cbn [filter]. rewrite Hkeep, IH. reflexivity.
Qed.

Lemma add_present (names classes : list string) :
  (forall n, In n names -> classList_contains n classes = true) ->
  classList_add names classes = classes.
Proof.
  induction names as [| n rest IH]; intros Hall; [reflexivity |].
  cbn [classList_add].
  pose proof (Hall n (or_introl eq_refl)) as Hn.
  unfold classList_contains in Hn. rewrite Hn.
  apply IH. intros m Hm. apply Hall. right. exact Hm.
Qed.

(** Adding and then removing, done a second time, changes nothing, when
    no added name is among the removed ones. *)
Lemma add_remove_twice (added removed classes : list string) :
  (forall n, In n added -> existsb (String.eqb n) removed = false) ->
  classList_remove removed
    (classList_add added
       (classList_remove removed (classList_add added classes)))
  = classList_remove removed (classList_add added classes).
Proof.
  intros Hapart. rewrite add_present; [apply remove_twice |].
  intros n Hn. rewrite contains_remove, contains_add, (Hapart n Hn).
  cbn [negb]. rewrite andb_true_r.
  assert (Hin : existsb (String.eqb n) added = true).
  { apply existsb_exists. exists n. split; [exact Hn |].
    apply String.eqb_refl. }
  rewrite Hin. apply orb_true_r.
Qed.

Lemma add_twice (added classes : list string) :
  classList_add added (classList_add added classes)
  = classList_add added classes.
Proof.
  apply add_present. intros n Hn. rewrite contains_add.
  assert (Hin : existsb (String.eqb n) added = true).
  { apply existsb_exists. exists n. split; [exact Hn |].
    apply String.eqb_refl. }
  rewrite Hin. apply orb_true_r.
Qed.

(** An update is idempotent.  Running [updateTitleBoxing] a second time
    at the same scroll position leaves the class list, every inline style
    and the phase exactly as the first run left them, in each of the five
    phases and also when the controller is not initialised or no branch
    is taken. *)
Theorem update_twice_is_update_once (w : Window) (st : AnimationState) :
  updateTitleBoxing w (updateTitleBoxing w st) = updateTitleBoxing w st.
Proof.
  unfold updateTitleBoxing.
  destruct (isInitialized st) eqn:Hinit; [| rewrite Hinit; reflexivity].
  destruct (titleBox st) as [box |] eqn:Hbox;
    [| rewrite Hinit, Hbox; reflexivity].
  destruct (selectBranch (calculateScrollProgress w)) as [br |] eqn:Hbranch;
    [| rewrite Hinit, Hbox; reflexivity].
  destruct br; cbn [runBranch isInitialized titleBox currentPhase];
    unfold withFixedCenter;
    cbn [classList stylePosition styleTop styleLeft styleTransform
         styleTransition fillOpacity offsetHeight isMoved negb];
    do 3 f_equal.
  - apply remove_twice.
  - apply add_remove_twice. intros n [<- | []]. reflexivity.
  - apply add_remove_twice. intros n [<- | []]. reflexivity.
  - apply add_remove_twice. intros n [<- | []]. reflexivity.
  - apply add_twice.
Qed.

(** After the cleanup no scroll moves the box.  Cleaning up an
    initialised controller takes the four animation classes off the box,
    drops the fill opacity and puts the phase back to idle, and from then
    on updates at whatever scroll positions change nothing, nor does a
    second cleanup; the inline position and transform stay as the last
    update left them. *)
Theorem cleanup_stops_the_animation (st : AnimationState) (box : TitleBox)
  (windows : list Window) :
  isInitialized st = true -> titleBox st = Some box ->
  let st' := cleanupTitleBoxing st in
  fold_left step (map Update windows) st' = st'
  /\ cleanupTitleBoxing st' = st'
  /\ currentPhase st' = idle
  /\ exists box',
       titleBox st' = Some box'
       /\ (forall name,
             In name ["boxing"; "boxed"; "moved-to-top"; "scrollable"] ->
             classList_contains name (classList box') = false)
       /\ (forall name,
             ~ In name ["boxing"; "boxed"; "moved-to-top"; "scrollable"] ->
             classList_contains name (classList box')
             = classList_contains name (classList box))
       /\ fillOpacity box' = None
       /\ stylePosition box' = stylePosition box
       /\ styleTransform box' = styleTransform box.
Proof.
  intros Hinit Hbox st'. subst st'.
  assert (Hclean : exists box',
             cleanupTitleBoxing st
             = {| isInitialized := false; titleBox := Some box';
                  currentPhase := idle |}
             /\ classList box'
                = classList_remove
                    ["boxing"; "boxed"; "moved-to-top"; "scrollable"]
                    (classList box)
             /\ fillOpacity box' = None
             /\ stylePosition box' = stylePosition box
             /\ styleTransform box' = styleTransform box).
  { unfold cleanupTitleBoxing. rewrite Hinit, Hbox. eexists.
    split; [reflexivity |]. repeat split. }
  destruct Hclean as [box' [-> [Hclasses [Hfill [Hposition Htransform]]]]].
  split; [| split; [reflexivity | split; [reflexivity |]]].
  - induction windows as [| w rest IH]; [reflexivity |]. exact IH.
  - exists box'. split; [reflexivity |]. rewrite Hclasses.
    split; [| split; [| repeat split; assumption]].
    + intros name Hname. rewrite contains_remove.
      assert (Hin : existsb (String.eqb name)
                      ["boxing"; "boxed"; "moved-to-top"; "scrollable"]
                    = true).
      { apply existsb_exists. exists name. split; [exact Hname |].
        apply String.eqb_refl. }
      rewrite Hin. apply andb_false_r.
    + intros name Hname. rewrite contains_remove.
      destruct (existsb (String.eqb name)
                  ["boxing"; "boxed"; "moved-to-top"; "scrollable"]) eqn:Hin.
      * apply existsb_exists in Hin. destruct Hin as [n [Hn Heq]].
        apply String.eqb_eq in Heq. subst n. contradiction.
      * apply andb_true_r.
Qed.

Lemma cleanup_stops_the_animation_witness :
  isInitialized (updateTitleBoxing Samples.atHalf Samples.readyController)
  = true
  /\ currentPhase
       (cleanupTitleBoxing
          (updateTitleBoxing Samples.atHalf Samples.readyController))
     = idle.
Proof.
  split; [reflexivity |].
  destruct (cleanup_stops_the_animation
              (updateTitleBoxing Samples.atHalf Samples.readyController)
              _ [Samples.atTenth; Samples.atFifth] eq_refl eq_refl)
    as [_ [_ [Hphase _]]].
  exact Hphase.
Defined.

End TitleBoxingRest.


(* ================================================================== *)
(** * The earlier progress system *)
(* ================================================================== *)

Module ProgressSystemLegacyMore.
Import JSNumber JSNumberFacts Browser ProgressSystem.
Local Open Scope num_scope.

Lemma last_of_snoc {A : Type} (before : list A) (last : A) :
  (if (0 <? List.length (before ++ [last]))%nat
   then nth_error (before ++ [last]) (List.length (before ++ [last]) - 1)
   else None)
  = Some last.
Proof.
  rewrite length_app. cbn [List.length].
  replace (List.length before + 1 - 1)%nat with (List.length before) by lia.
  destruct (Nat.ltb_spec 0 (List.length before + 1)) as [_ | H]; [| lia].
  rewrite nth_error_app2 by lia. rewrite Nat.sub_diag. reflexivity.
Qed.

(** The journey of the earlier version.  With a hero section and at least
    one small panel, whatever the large panels and the menu: the end
    anchor is the last small panel; the progress is 0 while the top of the
    hero is at or below the top of the viewport; once the hero has left,
    it is 1 as soon as the top of the last small panel is at or above the
    line 5 percent of the viewport height below the top of the viewport;
    and before that it is the share of the distance covered, which is
    strictly between 0 and 1. *)
Theorem legacy_progress_regimes (v : Q) (page : Page) (hero : DOMRect)
  (before : list Panel) (last : Panel) :
  main page = Some hero ->
  smallPanels page = (before ++ [last])%list ->
  let data := ProgressSystemLegacy.calculateContentProgress (Fin v) page in
  lastPanel data = Some last
  /\ totalPanels data = S (List.length before)
  /\ ((0 <= top hero)%Q -> smoothProgress data = Fin 0)
  /\ ((top hero < 0)%Q -> (top (rect last) <= 0.05 * v)%Q ->
      smoothProgress data = Fin 1)
  /\ ((top hero < 0)%Q -> (0.05 * v < top (rect last))%Q ->
      exists ratio,
        smoothProgress data = Fin ratio
        /\ (ratio == - top hero / (- top hero + (top (rect last) - 0.05 * v)))%Q
        /\ (0 < ratio)%Q /\ (ratio < 1)%Q).
Proof.
  intros Hmain Hsmall data. subst data.
  unfold ProgressSystemLegacy.calculateContentProgress.
  cbn [lastPanel totalPanels smoothProgress].
  rewrite Hmain, Hsmall, last_of_snoc.
  split; [reflexivity |].
  split; [rewrite length_app; cbn [List.length]; lia |].
  cbn [ProgressSystemLegacy.targetViewportPosition
       ProgressSystemLegacy.PROGRESS_CONFIG].
  change (Fin v * Fin 0.05) with (Fin (v * 0.05)).
  change (Fin (top (rect last)) - Fin (v * 0.05))
    with (Fin (top (rect last) + - (v * 0.05))).
  split; [| split].
  - intros H0. rewrite (proj2 (ge_Fin _ _) H0). reflexivity.
  - intros Hleft Hdone.
    destruct (Fin (top hero) >=? Fin 0) eqn:Hstart.
    { apply ge_Fin in Hstart. lra. }
    rewrite (proj2 (le_Fin _ _)) by lra. reflexivity.
  - intros Hleft Hway.
    destruct (Fin (top hero) >=? Fin 0) eqn:Hstart.
    { apply ge_Fin in Hstart. lra. }
    destruct (Fin (top (rect last) + - (v * 0.05)) <=? Fin 0) eqn:Hend.
    { apply le_Fin in Hend. lra. }
    cbn [Math_abs add].
    pose proof (Qabs_neg (top hero) ltac:(lra)) as Habs.
    set (a := Qabs (top hero)) in *.
    set (e := (top (rect last) + - (v * 0.05))%Q).
    assert (Ha : (0 < a)%Q) by lra.
    assert (He : (0 < e)%Q) by (unfold e; lra).
    destruct (ProgressSystemSpec.ratio_bounds a e Ha He) as [Hlow Hhigh].
    exists (a / (a + e))%Q.
    split; [| split; [| split; assumption]].
    + unfold div, sgn.
      destruct (Qcompare_spec (a + e) 0) as [H | H | H]; try lra.
      rewrite clamp_id by assumption. reflexivity.
    + rewrite Habs. unfold e. field. lra.
Qed.

Lemma legacy_progress_regimes_witness :
  main Samples.shuffledPage
  = Some {| top := -100; bottom := 700; height := 800 |}
  /\ lastPanel
       (ProgressSystemLegacy.calculateContentProgress (Fin 800)
          Samples.shuffledPage)
     = Some Samples.panelC.
Proof.
  split; [reflexivity |].
  exact (proj1 (legacy_progress_regimes 800 Samples.shuffledPage _
                  [Samples.panelB] Samples.panelC eq_refl eq_refl)).
Defined.

End ProgressSystemLegacyMore.
